(** * Background task broker: a shallow embedding and its properties

    The development follows [src/taskmanager.ts] (task runner, stream
    broker and task registry), [src/tools.ts] and [src/python_executor.ts]
    (the tool gateway) and [handleTaskStream] of [src/server.ts].

    JavaScript runs one turn at a time: between two [await]s the code of
    [processTask] cannot be interleaved with a subscribe request or a
    status query.  The embedding therefore takes the code between two
    suspension points as one step, and lets the environment choose, before
    every step, the answer to the awaited operation or a request of a
    client.  The world holds one task: tasks share nothing but the
    registry, from which each removes only itself.  The calls to the
    logger are left out. *)

From Stdlib Require Import ZArith Lia Ascii String DecimalString DecimalNat.
From stdpp Require Import base list sets strings.

#[local] Set Warnings "-clear-no-such-hyp".

Local Open Scope string_scope.
Local Open Scope Z_scope.
Local Open Scope list_scope.

(** ** Exceptions *)

(** The result of a call that may throw: [Throws msg] is a raised
    [Error] whose [message] is [msg]. *)
Inductive Outcome (A : Type) : Type :=
| Returns (a : A)
| Throws (msg : string).
Arguments Returns {A} a.
Arguments Throws {A} msg.

#[global] Instance outcome_ret : MRet Outcome := λ A a, Returns a.

#[global] Instance outcome_bind : MBind Outcome := λ A B k o,
  match o with
  | Returns a => k a
  | Throws msg => Throws msg
  end.

(** [try { body } catch (error) { handler(error.message) }] *)
Definition try_catch {A} (body : Outcome A) (handler : string → Outcome A) : Outcome A :=
  match body with
  | Returns a => Returns a
  | Throws msg => handler msg
  end.

(** ** Strings *)

Module Str.

(** The white space and line terminators of ASCII, as removed by
    [String.prototype.trim]. *)
Definition is_space (c : ascii) : bool :=
  let n := nat_of_ascii c in
  ((9 <=? n)%nat && (n <=? 13)%nat) || (n =? 32)%nat.

(** [s.trimStart()], [s.trimEnd()] and [s.trim()] *)
Fixpoint trim_start (s : string) : string :=
  match s with
  | EmptyString => EmptyString
  | String c s' => if is_space c then trim_start s' else s
  end.

Fixpoint trim_end (s : string) : string :=
  match s with
  | EmptyString => EmptyString
  | String c s' =>
      match trim_end s' with
      | EmptyString => if is_space c then EmptyString else String c EmptyString
      | t => String c t
      end
  end.

Definition trim (s : string) : string := trim_end (trim_start s).

(** Truthiness of a JavaScript string. *)
Definition truthy (s : string) : bool :=
  match s with EmptyString => false | _ => true end.

(** [s.split(sep)] for the one-character separator [sep]: never empty. *)
Fixpoint split (sep : ascii) (s : string) : list string :=
  match s with
  | EmptyString => [EmptyString]
  | String c s' =>
      if Ascii.eqb c sep then EmptyString :: split sep s'
      else match split sep s' with
           | [] => [String c EmptyString]
           | piece :: pieces => String c piece :: pieces
           end
  end.

(** The strings of [xs] one after the other. *)
Definition concat (xs : list string) : string := fold_right String.append "" xs.

(** A number inside a template literal: its decimal digits. *)
Definition of_nat (n : nat) : string := NilZero.string_of_uint (Nat.to_uint n).
Definition of_Z (z : Z) : string := NilZero.string_of_int (Z.to_int z).

(** The line feed. *)
Definition newline : ascii := ascii_of_nat 10.
Definition nl : string := String newline EmptyString.

End Str.

(** ** Tool gateway: [src/websearch.ts], [src/python_executor.ts], [src/tools.ts] *)

(** A result of [searchWeb]. *)
Inductive SearchSource := Bing | Wikipedia.

Record SearchResult := {
  title : string;
  link : string;
  snippet : string;
  source : SearchSource;
}.

(** The [source] field as it is printed. *)
Definition source_name (s : SearchSource) : string :=
  match s with Bing => "Bing" | Wikipedia => "Wikipedia" end.

(** [formatResultsAsContext]: the [forEach] carries the index [i]. *)
Fixpoint format_entries (i : nat) (results : list SearchResult) (context : string) : string :=
  match results with
  | [] => context
  | r :: rest =>
      let context := context +:+ Str.nl +:+ "[" +:+ Str.of_nat (i + 1) +:+ "] " +:+ title r in
      let context := context +:+ Str.nl +:+ "Source: " +:+ source_name (source r)
                             +:+ " (" +:+ link r +:+ ")" in
      let context := context +:+ Str.nl +:+ "Snippet: " +:+ snippet r +:+ Str.nl in
      format_entries (S i) rest context
  end.

Definition formatResultsAsContext (results : list SearchResult) : string :=
  match results with
  | [] => ""
  | _ =>
      let context := Str.nl +:+ Str.nl
                     +:+ "--- Web Search Results (Real-time from Internet) ---" +:+ Str.nl in
      let context := format_entries 0 results context in
      context +:+ Str.nl +:+ "--- End of Search Results ---" +:+ Str.nl
  end.

(** What the sandbox does during one [executePythonCode] call. *)
Inductive PythonRun :=
| PySetupThrows (msg : string)
    (* [Bun.write] or [spawn] throws *)
| PyTimedOut
    (* the 10 s timer wins the race and rejects *)
| PyFinished (stdout stderr : string) (cleanup : option string).
    (* the process ends first; [cleanup] is the exception of the last
       [fs.unlink], if it throws *)

(** What the outside world does during one [executeTool] call. *)
Record ToolEnv := {
  searchWeb : option string → Outcome (list SearchResult);
  python : PythonRun;
  type_error : string;
    (* the message of the runtime's TypeError for a property read on
       [undefined] *)
}.

(** [tool.function.arguments] is of type [any]. *)
Inductive Args :=
| ArgsUndefined
| ArgsObject (query code : option string).

(** [args.query] and [args.code]: a property read on [undefined] throws. *)
Definition args_query (env : ToolEnv) (args : Args) : Outcome (option string) :=
  match args with
  | ArgsUndefined => Throws (type_error env)
  | ArgsObject q _ => Returns q
  end.

Definition args_code (env : ToolEnv) (args : Args) : Outcome (option string) :=
  match args with
  | ArgsUndefined => Throws (type_error env)
  | ArgsObject _ c => Returns c
  end.

(** The message of the rejection by the timer. *)
Definition timeout_message : string := "⏱️ Execution timed out (max 10s)".

(** [executePythonCode]: the first log line reads [code.length] outside
    the [try], everything else is inside it. *)
Definition executePythonCode (env : ToolEnv) (code : option string) : Outcome string :=
  match code with
  | None => Throws (type_error env)
  | Some _ =>
      try_catch
        (match python env with
         | PySetupThrows msg => Throws msg
         | PyTimedOut => Throws timeout_message
         | PyFinished stdout stderr cleanup =>
             let result :=
               if Str.truthy (Str.trim stderr)
               then "❌ Error:" +:+ Str.nl +:+ Str.trim stderr
               else if Str.truthy (Str.trim stdout) then Str.trim stdout
                    else "✅ Code executed successfully (no output)" in
             match cleanup with
             | Some msg => Throws msg
             | None => Returns result
             end
         end)
        (fun msg => Returns ("❌ System Error: " +:+ msg))
  end.

(** [executeTool]: the dispatch by name inside one [try]. *)
Definition executeTool (env : ToolEnv) (toolName : string) (args : Args) : Outcome string :=
  try_catch
    (if String.eqb toolName "web_search" then
       query ← args_query env args ;
       results ← searchWeb env query ;
       Returns (formatResultsAsContext results)
     else if String.eqb toolName "execute_python" then
       code ← args_code env args ;
       executePythonCode env code
     else Returns ("Error: Unknown tool '" +:+ toolName +:+ "'"))
    (fun msg => Returns ("Error executing " +:+ toolName +:+ ": " +:+ msg)).

(** ** Task manager: data ([src/taskmanager.ts]) *)

(** The [status] of a task. *)
Inductive Status := Running | Completed | Error.

#[global] Instance Status_eq_dec : EqDecision Status.
Proof. solve_decision. Defined.

(** [TaskChunk]: a fragment and its index. *)
Record TaskChunk := {
  content : string;
  index : Z;
}.

(** A JavaScript number as [parseInt] returns it: an integer or NaN.
    The integers are kept exact: a double rounds above 2^53, which
    changes no comparison with a chunk index. *)
Inductive JSNum := Num (z : Z) | NaN.

(** [a >= b] for a chunk index [a]: every comparison with NaN is false. *)
Definition js_ge (a : Z) (b : JSNum) : bool :=
  match b with
  | Num z => z <=? a
  | NaN => false
  end.

(** The payload of a server-sent event, before [JSON.stringify]. *)
Inductive SseData :=
| DataChunk (content : string) (index : Z)
| DataDone
| DataError (error : option string).

(** What a controller is given to enqueue: a [data:] record or the
    [: keep-alive] comment. *)
Inductive SseFrame :=
| Data (d : SseData)
| KeepAlive.

(** A [ReadableStreamDefaultController] with the frames enqueued so far.
    [Closed]: the broker called [close]; [Cancelled]: the consumer went
    away. *)
Inductive CtrlState := Readable | Closed | Cancelled.

#[global] Instance CtrlState_eq_dec : EqDecision CtrlState.
Proof. solve_decision. Defined.

(** The frames enqueued on a stream and the state of the stream. *)
Record Controller := {
  queue : list SseFrame;
  cstate : CtrlState;
}.

(** [controller.enqueue(msg)]: [None] is the TypeError that [enqueue] and
    [close] throw once the stream is no longer readable. *)
Definition enqueue (msg : SseFrame) (c : Controller) : option Controller :=
  match cstate c with
  | Readable => Some {| queue := queue c ++ [msg]; cstate := Readable |}
  | _ => None
  end.

(** [controller.close()] *)
Definition close (c : Controller) : option Controller :=
  match cstate c with
  | Readable => Some {| queue := queue c; cstate := Closed |}
  | _ => None
  end.

(** Controllers are objects: the heap is a list and a reference is a
    position in it. *)
Abbreviation CtrlRef := nat (only parsing).

(** [GenerationTask]; [taskId] is its field [id]. *)
Record GenerationTask := {
  taskId : string;
  conversationId : string;
  status : Status;
  chunks : list TaskChunk;
  fullResponse : string;
  error : option string;
  createdAt : Z;
  completedAt : option Z;
  subscribers : list CtrlRef;  (* a Set: insertion order, no duplicates *)
}.

(** An entry of [message.tool_calls]: [function.name] and
    [function.arguments]. *)
Record ToolCall := {
  funcName : string;
  funcArgs : Args;
}.

(** The entries of the [messages] array sent to the engine. *)
Inductive Message :=
| Plain (role content : string)
| AssistantToolCalls (content : string) (tool_calls : list ToolCall)
| ToolMessage (result : string).  (* role tool, content JSON.stringify(result) *)

(** Calls that leave the process, in the order they are issued. *)
Inductive Call :=
| EngineCall (messages : list Message) (stream : bool) (tools : option (list string))
| ToolInvoke (tool : ToolCall).

(** Where [processTask] is suspended. *)
Inductive PC :=
| AwaitFetch (iteration : nat) (shouldStream : bool)
| AwaitJson (iteration : nat)
| AwaitRead (iteration : nat) (fullText : string) (chunkIndex : Z) (buffer : string)
| AwaitTool (iteration : nat) (tool : ToolCall) (rest : list ToolCall)
| Settled.

(** The task, the heap of controllers, the variables of its
    [processTask] call and what the process has done to the outside. *)
(** How [db.addMessage] fails, when it does: its INSERT throws, or the
    INSERT succeeds and the SELECT that reads the row back throws. *)
Inductive DbFault :=
| InsertThrows (msg : string)
| SelectThrows (msg : string).

Record World := {
  task : GenerationTask;
  registered : bool;            (* activeTasks.has(task.id) *)
  controllers : list Controller;
  messages : list Message;
  useSearch : bool;
  useCode : bool;
  pc : PC;
  keepAlive : bool;             (* the heartbeat interval is set *)
  clock : Z;                    (* Date.now() *)
  timers : list Z;              (* due times of the pending removal timers *)
  db_fault : option DbFault;    (* how db.addMessage fails, if it does *)
  db_writes : list (string * string * string);
  calls : list Call;
  status_log : list Status;     (* every value assigned to task.status *)
}.

(** *** Field updates *)

Definition task_with_status (s : Status) (t : GenerationTask) : GenerationTask :=
  {| taskId := taskId t; conversationId := conversationId t; status := s;
     chunks := chunks t; fullResponse := fullResponse t; error := error t;
     createdAt := createdAt t; completedAt := completedAt t;
     subscribers := subscribers t |}.

Definition task_with_chunks (cs : list TaskChunk) (t : GenerationTask) : GenerationTask :=
  {| taskId := taskId t; conversationId := conversationId t; status := status t;
     chunks := cs; fullResponse := fullResponse t; error := error t;
     createdAt := createdAt t; completedAt := completedAt t;
     subscribers := subscribers t |}.

Definition task_with_fullResponse (s : string) (t : GenerationTask) : GenerationTask :=
  {| taskId := taskId t; conversationId := conversationId t; status := status t;
     chunks := chunks t; fullResponse := s; error := error t;
     createdAt := createdAt t; completedAt := completedAt t;
     subscribers := subscribers t |}.

Definition task_with_error (e : option string) (t : GenerationTask) : GenerationTask :=
  {| taskId := taskId t; conversationId := conversationId t; status := status t;
     chunks := chunks t; fullResponse := fullResponse t; error := e;
     createdAt := createdAt t; completedAt := completedAt t;
     subscribers := subscribers t |}.

Definition task_with_completedAt (z : option Z) (t : GenerationTask) : GenerationTask :=
  {| taskId := taskId t; conversationId := conversationId t; status := status t;
     chunks := chunks t; fullResponse := fullResponse t; error := error t;
     createdAt := createdAt t; completedAt := z;
     subscribers := subscribers t |}.

Definition task_with_subscribers (subs : list CtrlRef) (t : GenerationTask) : GenerationTask :=
  {| taskId := taskId t; conversationId := conversationId t; status := status t;
     chunks := chunks t; fullResponse := fullResponse t; error := error t;
     createdAt := createdAt t; completedAt := completedAt t;
     subscribers := subs |}.

Definition with_task (t : GenerationTask) (w : World) : World :=
  {| task := t; registered := registered w; controllers := controllers w;
     messages := messages w; useSearch := useSearch w; useCode := useCode w;
     pc := pc w; keepAlive := keepAlive w; clock := clock w; timers := timers w;
     db_fault := db_fault w; db_writes := db_writes w; calls := calls w;
     status_log := status_log w |}.

Definition with_registered (b : bool) (w : World) : World :=
  {| task := task w; registered := b; controllers := controllers w;
     messages := messages w; useSearch := useSearch w; useCode := useCode w;
     pc := pc w; keepAlive := keepAlive w; clock := clock w; timers := timers w;
     db_fault := db_fault w; db_writes := db_writes w; calls := calls w;
     status_log := status_log w |}.

Definition with_controllers (cs : list Controller) (w : World) : World :=
  {| task := task w; registered := registered w; controllers := cs;
     messages := messages w; useSearch := useSearch w; useCode := useCode w;
     pc := pc w; keepAlive := keepAlive w; clock := clock w; timers := timers w;
     db_fault := db_fault w; db_writes := db_writes w; calls := calls w;
     status_log := status_log w |}.

Definition with_messages (ms : list Message) (w : World) : World :=
  {| task := task w; registered := registered w; controllers := controllers w;
     messages := ms; useSearch := useSearch w; useCode := useCode w;
     pc := pc w; keepAlive := keepAlive w; clock := clock w; timers := timers w;
     db_fault := db_fault w; db_writes := db_writes w; calls := calls w;
     status_log := status_log w |}.

Definition with_pc (p : PC) (w : World) : World :=
  {| task := task w; registered := registered w; controllers := controllers w;
     messages := messages w; useSearch := useSearch w; useCode := useCode w;
     pc := p; keepAlive := keepAlive w; clock := clock w; timers := timers w;
     db_fault := db_fault w; db_writes := db_writes w; calls := calls w;
     status_log := status_log w |}.

Definition with_keepAlive (b : bool) (w : World) : World :=
  {| task := task w; registered := registered w; controllers := controllers w;
     messages := messages w; useSearch := useSearch w; useCode := useCode w;
     pc := pc w; keepAlive := b; clock := clock w; timers := timers w;
     db_fault := db_fault w; db_writes := db_writes w; calls := calls w;
     status_log := status_log w |}.

Definition with_clock (z : Z) (w : World) : World :=
  {| task := task w; registered := registered w; controllers := controllers w;
     messages := messages w; useSearch := useSearch w; useCode := useCode w;
     pc := pc w; keepAlive := keepAlive w; clock := z; timers := timers w;
     db_fault := db_fault w; db_writes := db_writes w; calls := calls w;
     status_log := status_log w |}.

Definition with_timers (ts : list Z) (w : World) : World :=
  {| task := task w; registered := registered w; controllers := controllers w;
     messages := messages w; useSearch := useSearch w; useCode := useCode w;
     pc := pc w; keepAlive := keepAlive w; clock := clock w; timers := ts;
     db_fault := db_fault w; db_writes := db_writes w; calls := calls w;
     status_log := status_log w |}.

Definition with_db_writes (rows : list (string * string * string)) (w : World) : World :=
  {| task := task w; registered := registered w; controllers := controllers w;
     messages := messages w; useSearch := useSearch w; useCode := useCode w;
     pc := pc w; keepAlive := keepAlive w; clock := clock w; timers := timers w;
     db_fault := db_fault w; db_writes := rows; calls := calls w;
     status_log := status_log w |}.

Definition with_calls (cs : list Call) (w : World) : World :=
  {| task := task w; registered := registered w; controllers := controllers w;
     messages := messages w; useSearch := useSearch w; useCode := useCode w;
     pc := pc w; keepAlive := keepAlive w; clock := clock w; timers := timers w;
     db_fault := db_fault w; db_writes := db_writes w; calls := cs;
     status_log := status_log w |}.

Definition with_status_log (l : list Status) (w : World) : World :=
  {| task := task w; registered := registered w; controllers := controllers w;
     messages := messages w; useSearch := useSearch w; useCode := useCode w;
     pc := pc w; keepAlive := keepAlive w; clock := clock w; timers := timers w;
     db_fault := db_fault w; db_writes := db_writes w; calls := calls w;
     status_log := l |}.

(** ** Stream broker: the subscriber set and its controllers *)

(** [Set.prototype.add] and [Set.prototype.delete]; the argument of
    [delete] may be [undefined] ([None]), which no controller equals. *)
Definition set_add (c : CtrlRef) (s : list CtrlRef) : list CtrlRef :=
  if decide (c ∈ s) then s else s ++ [c].

Definition set_delete (x : option CtrlRef) (s : list CtrlRef) : list CtrlRef :=
  match x with
  | Some c => filter (λ c', c' ≠ c) s
  | None => s
  end.

(** The loop of [notifySubscribers]: a failed [enqueue] deletes the
    controller from the set, the others are not disturbed. *)
Fixpoint notify_each (msg : SseFrame) (todo : list CtrlRef)
    (ctrls : list Controller) (subs : list CtrlRef) : list Controller * list CtrlRef :=
  match todo with
  | [] => (ctrls, subs)
  | c :: todo =>
      match ctrls !! c ≫= enqueue msg with
      | Some ctl => notify_each msg todo (<[c:=ctl]> ctrls) subs
      | None => notify_each msg todo ctrls (set_delete (Some c) subs)
      end
  end.

Definition notifySubscribers (data : SseData) (w : World) : World :=
  let subs := subscribers (task w) in
  let result := notify_each (Data data) subs (controllers w) subs in
  with_controllers result.1 (with_task (task_with_subscribers result.2 (task w)) w).

(** The loop of [closeSubscribers]: a failed [close] is swallowed. *)
Fixpoint close_each (todo : list CtrlRef) (ctrls : list Controller) : list Controller :=
  match todo with
  | [] => ctrls
  | c :: todo =>
      match ctrls !! c ≫= close with
      | Some ctl => close_each todo (<[c:=ctl]> ctrls)
      | None => close_each todo ctrls
      end
  end.

Definition closeSubscribers (w : World) : World :=
  let ctrls := close_each (subscribers (task w)) (controllers w) in
  with_controllers ctrls (with_task (task_with_subscribers [] (task w)) w).

(** The body of the heartbeat interval: a failed [enqueue] is left to
    the next notification. *)
Fixpoint beat_each (todo : list CtrlRef) (ctrls : list Controller) : list Controller :=
  match todo with
  | [] => ctrls
  | c :: todo =>
      match ctrls !! c ≫= enqueue KeepAlive with
      | Some ctl => beat_each todo (<[c:=ctl]> ctrls)
      | None => beat_each todo ctrls
      end
  end.

Definition heartbeat (w : World) : World :=
  if keepAlive w
  then with_controllers (beat_each (subscribers (task w)) (controllers w)) w
  else w.

Definition chunk_frame (ch : TaskChunk) : SseFrame :=
  Data (DataChunk (content ch) (index ch)).

(** [subscribe]: [None] is [null]; otherwise the new controller and the
    world after the [start] callback, which runs inside the constructor
    of the stream. *)
Definition subscribe (tid : string) (fromChunkIndex : JSNum) (w : World)
    : option (CtrlRef * World) :=
  if registered w && String.eqb tid (taskId (task w)) then
    let c := length (controllers w) in
    let missedChunks :=
      List.filter (λ ch, js_ge (index ch) fromChunkIndex) (chunks (task w)) in
    let replay := map chunk_frame missedChunks in
    match status (task w) with
    | Completed =>
        let ctl := {| queue := replay ++ [Data DataDone]; cstate := Closed |} in
        Some (c, with_controllers (controllers w ++ [ctl]) w)
    | Error =>
        let ctl := {| queue := replay ++ [Data (DataError (error (task w)))];
                      cstate := Closed |} in
        Some (c, with_controllers (controllers w ++ [ctl]) w)
    | Running =>
        let ctl := {| queue := replay; cstate := Readable |} in
        let w := with_controllers (controllers w ++ [ctl]) w in
        Some (c, with_task
                   (task_with_subscribers (set_add c (subscribers (task w))) (task w)) w)
    end
  else None.

(** The consumer of stream [c] goes away: the stream stops being
    readable and its [cancel] callback runs, which calls
    [task.subscribers.delete(undefined as any)]. *)
Definition cancel (c : CtrlRef) (w : World) : World :=
  match controllers w !! c with
  | Some ctl =>
      match cstate ctl with
      | Readable =>
          let gone := {| queue := queue ctl; cstate := Cancelled |} in
          let w := with_controllers (<[c:=gone]> (controllers w)) w in
          with_task
            (task_with_subscribers (set_delete None (subscribers (task w))) (task w)) w
      | _ => w
      end
  | None => w
  end.

(** ** HTTP layer ([src/server.ts]) *)

Definition digit_value (radix : Z) (c : ascii) : option Z :=
  let n := Z.of_nat (nat_of_ascii c) in
  let d := if (48 <=? n) && (n <=? 57) then Some (n - 48)
           else if (97 <=? n) && (n <=? 122) then Some (n - 87)
           else if (65 <=? n) && (n <=? 90) then Some (n - 55)
           else None in
  match d with
  | Some v => if v <? radix then Some v else None
  | None => None
  end.

(** The longest prefix of digits; [None] when there is no digit. *)
Fixpoint parse_digits (radix : Z) (s : string) (acc : option Z) : option Z :=
  match s with
  | EmptyString => acc
  | String c s' =>
      match digit_value radix c with
      | Some d => parse_digits radix s' (Some (radix * default 0 acc + d))
      | None => acc
      end
  end.

(** [parseInt(s)] without a radix, on ASCII input. *)
Definition parseInt (s : string) : JSNum :=
  let s := Str.trim_start s in
  let '(sign, s) :=
    match s with
    | String "-" s' => (-1, s')
    | String "+" s' => (1, s')
    | _ => (1, s)
    end in
  let '(radix, s) :=
    match s with
    | String "0" (String "x" s') => (16, s')
    | String "0" (String "X" s') => (16, s')
    | _ => (10, s)
    end in
  match parse_digits radix s None with
  | Some n => Num (sign * n)
  | None => NaN
  end.

(** [url.searchParams.get(key) || fallback]: [None] is [null]. *)
Definition or_default (param : option string) (fallback : string) : string :=
  match param with
  | Some s => if Str.truthy s then s else fallback
  | None => fallback
  end.

(** [handleTaskStream]: [from] is the query parameter; the result [None]
    is the 404 answer. *)
Definition handleTaskStream (tid : string) (from : option string) (w : World)
    : option (CtrlRef * World) :=
  let fromChunk := parseInt (or_default from "0") in
  subscribe tid fromChunk w.

(** [getTaskStatus]: the task, whose subscribers the caller does not
    see; [None] is [null]. *)
Definition getTaskStatus (tid : string) (w : World) : option GenerationTask :=
  if registered w && String.eqb tid (taskId (task w))
  then Some (task_with_subscribers [] (task w))
  else None.

(** The JSON answer of [handleTaskStatus]. *)
Record StatusReply := {
  reply_id : string;
  reply_conversationId : string;
  reply_status : Status;
  reply_chunkCount : nat;
  reply_fullResponse : option string;
  reply_error : option string;
}.

(** [handleTaskStatus]: [fullResponse] is shown for a completed task
    only; the result [None] is the 404 answer. *)
Definition handleTaskStatus (tid : string) (w : World) : option StatusReply :=
  match getTaskStatus tid w with
  | Some t =>
      Some {| reply_id := taskId t;
              reply_conversationId := conversationId t;
              reply_status := status t;
              reply_chunkCount := length (chunks t);
              reply_fullResponse :=
                match status t with
                | Completed => Some (fullResponse t)
                | _ => None
                end;
              reply_error := error t |}
  | None => None
  end.

(** ** Task runner: [startTask], [processTask], [streamFromOllama] *)

(** The ceiling of the [while] loop. *)
Definition MAX_ITERATIONS : nat := 5.

(** The tools of [src/tools.ts], by name. *)
Definition availableTools : list string := ["web_search"; "execute_python"].

(** The filter of the tools by the two toggles, at the head of every
    iteration. *)
Definition activeTools (useSearch useCode : bool) : list string :=
  (if useSearch
   then match find (String.eqb "web_search") availableTools with
        | Some t => [t]
        | None => []
        end
   else [])
  ++
  (if useCode
   then match find (String.eqb "execute_python") availableTools with
        | Some t => [t]
        | None => []
        end
   else []).

(** [task.status = s]; the assignment is also entered in [status_log]. *)
Definition set_status (s : Status) (w : World) : World :=
  with_status_log (status_log w ++ [s]) (with_task (task_with_status s (task w)) w).

(** [task.chunks.push(ch)] *)
Definition push_chunk (ch : TaskChunk) (w : World) : World :=
  with_task (task_with_chunks (chunks (task w) ++ [ch]) (task w)) w.

(** [task.fullResponse += s] *)
Definition append_fullResponse (s : string) (w : World) : World :=
  with_task (task_with_fullResponse (fullResponse (task w) +:+ s) (task w)) w.

(** The [.catch] handler that [startTask] attaches to [processTask]. *)
Definition on_rejected (msg : string) (w : World) : World :=
  let w := set_status Error w in
  let w := with_task (task_with_error (Some msg) (task w)) w in
  let w := notifySubscribers (DataError (Some msg)) w in
  let w := closeSubscribers w in
  with_pc Settled w.

(** An exception inside the [try] of [processTask]: the [finally] block
    clears the heartbeat, then the promise rejects. *)
Definition throw (msg : string) (w : World) : World :=
  on_rejected msg (with_keepAlive false w).

(** [db.addMessage]: the INSERT of the row, then the SELECT of the
    messages of the conversation, whose last row is returned.  Either
    statement may throw; when the second one does, the row is written. *)
Definition db_addMessage (conv role text : string) (w : World) : World * Outcome unit :=
  match db_fault w with
  | Some (InsertThrows msg) => (w, Throws msg)
  | Some (SelectThrows msg) =>
      (with_db_writes (db_writes w ++ [(conv, role, text)]) w, Throws msg)
  | None => (with_db_writes (db_writes w ++ [(conv, role, text)]) w, Returns tt)
  end.

(** The delay of the removal timer. *)
Definition retention_ms : Z := 5 * 60 * 1000.

(** The code after the [while] loop. *)
Definition after_loop (w : World) : World :=
  let w := set_status Completed w in
  let w := with_task (task_with_completedAt (Some (clock w)) (task w)) w in
  let saved :=
    if Str.truthy (fullResponse (task w))
    then db_addMessage (conversationId (task w)) "assistant" (fullResponse (task w)) w
    else (w, Returns tt) in
  let w := saved.1 in
  match saved.2 with
  | Throws msg => throw msg w
  | Returns _ =>
      let w := notifySubscribers DataDone w in
      let w := closeSubscribers w in
      let w := with_timers (timers w ++ [clock w + retention_ms]) w in
      with_pc Settled (with_keepAlive false w)
  end.

(** The head of the [while] loop up to the [fetch]. *)
Definition loop (iteration : nat) (w : World) : World :=
  if (iteration <? MAX_ITERATIONS)%nat then
    let iteration := S iteration in
    let tools := activeTools (useSearch w) (useCode w) in
    let hasTools := (0 <? length tools)%nat in
    let shouldStream := negb hasTools || (1 <? iteration)%nat in
    let offered := if hasTools && (iteration =? 1)%nat then Some tools else None in
    let w := with_calls (calls w ++ [EngineCall (messages w) shouldStream offered]) w in
    with_pc (AwaitFetch iteration shouldStream) w
  else after_loop w.

(** The text of the notice that precedes a tool call. *)
Definition tool_notice (funcName : string) : string :=
  Str.nl +:+ Str.nl +:+ "*> 🛠️ Executing " +:+ funcName +:+ "...*" +:+ Str.nl +:+ Str.nl.

(** One turn of the [for] loop over [message.tool_calls] up to the
    [await executeTool]. *)
Definition begin_tool (iteration : nat) (tool : ToolCall) (rest : list ToolCall)
    (w : World) : World :=
  let w := notifySubscribers (DataChunk (tool_notice (funcName tool)) (-1)) w in
  let w := with_calls (calls w ++ [ToolInvoke tool]) w in
  with_pc (AwaitTool iteration tool rest) w.

(** What the awaited operations resolve to. *)
Inductive FetchResult :=
| FetchRejects (msg : string)
| NotOk (status : Z) (errText : Outcome string)
| Ok.

Inductive ReadResult :=
| ReadValue (value : string)
| ReadDone
| ReadThrows (msg : string).

Inductive JsonResult :=
| JsonThrows (msg : string)
| JsonMessage (content : string) (tool_calls : list ToolCall).

Section Runner.

(** [JSON.parse(line).message?.content]: [None] when the parse or the
    property read throws, or when there is no content. *)
Variable message_content : string → option string.

(** The body shared by the loop over the complete lines and by the
    treatment of the remaining buffer. *)
Definition process_line (st : World * string * Z) (line : string) : World * string * Z :=
  let '(w, fullText, chunkIndex) := st in
  if Str.truthy (Str.trim line) then
    match message_content line with
    | Some token =>
        if Str.truthy token then
          let fullText := fullText +:+ token in
          let chunk := {| content := token; index := chunkIndex |} in
          let w := push_chunk chunk w in
          let w := notifySubscribers (DataChunk token (index chunk)) w in
          (w, fullText, chunkIndex + 1)
        else st
    | None => st
    end
  else st.

Definition on_fetch (r : FetchResult) (w : World) : World :=
  match pc w with
  | AwaitFetch iteration shouldStream =>
      match r with
      | FetchRejects msg => throw msg w
      | NotOk status (Returns errText) =>
          throw ("Ollama error (" +:+ Str.of_Z status +:+ "): " +:+ errText) w
      | NotOk status (Throws msg) => throw msg w
      | Ok =>
          if shouldStream
          then with_pc (AwaitRead iteration "" (Z.of_nat (length (chunks (task w)))) "") w
          else with_pc (AwaitJson iteration) w
      end
  | _ => w
  end.

Definition on_read (r : ReadResult) (w : World) : World :=
  match pc w with
  | AwaitRead iteration fullText chunkIndex buffer =>
      match r with
      | ReadValue value =>
          let buffer := buffer +:+ value in
          let lines := Str.split Str.newline buffer in
          let buffer := default "" (last lines) in
          let lines := removelast lines in
          let '(w, fullText, chunkIndex) :=
            fold_left process_line lines (w, fullText, chunkIndex) in
          with_pc (AwaitRead iteration fullText chunkIndex buffer) w
      | ReadDone =>
          let '(w, fullText, _) := process_line (w, fullText, chunkIndex) buffer in
          let w := append_fullResponse fullText w in
          after_loop w
      | ReadThrows msg => throw msg w
      end
  | _ => w
  end.

Definition on_json (r : JsonResult) (w : World) : World :=
  match pc w with
  | AwaitJson iteration =>
      match r with
      | JsonThrows msg => throw msg w
      | JsonMessage content (tool :: rest) =>
          let w := with_messages
                     (messages w ++ [AssistantToolCalls content (tool :: rest)]) w in
          begin_tool iteration tool rest w
      | JsonMessage content [] =>
          let w := append_fullResponse content w in
          let chunk := {| content := content;
                          index := Z.of_nat (length (chunks (task w))) |} in
          let w := push_chunk chunk w in
          let w := notifySubscribers (DataChunk content (index chunk)) w in
          after_loop w
      end
  | _ => w
  end.

Definition on_tool (env : ToolEnv) (w : World) : World :=
  match pc w with
  | AwaitTool iteration tool rest =>
      match executeTool env (funcName tool) (funcArgs tool) with
      | Returns result =>
          let w := with_messages (messages w ++ [ToolMessage result]) w in
          match rest with
          | next :: rest => begin_tool iteration next rest w
          | [] => loop iteration w
          end
      | Throws msg => throw msg w
      end
  | _ => w
  end.

(** The removal timer: [activeTasks.delete(task.id)] once it is due. *)
Definition fire_timers (w : World) : World :=
  match List.filter (λ due, due <=? clock w) (timers w) with
  | [] => w
  | _ :: _ =>
      with_registered false
        (with_timers (List.filter (λ due, negb (due <=? clock w)) (timers w)) w)
  end.

(** One turn of the event loop. *)
Inductive Action :=
| AFetch (r : FetchResult)
| ARead (r : ReadResult)
| AJson (r : JsonResult)
| ATool (env : ToolEnv)
| ASubscribe (tid : string) (fromChunkIndex : JSNum)
| AStream (tid : string) (from : option string)
| ACancel (c : CtrlRef)
| AHeartbeat
| ATick (ms : N)
| ATimers.

Definition step (w : World) (a : Action) : World :=
  match a with
  | AFetch r => on_fetch r w
  | ARead r => on_read r w
  | AJson r => on_json r w
  | ATool env => on_tool env w
  | ASubscribe tid k => from_option snd w (subscribe tid k w)
  | AStream tid from => from_option snd w (handleTaskStream tid from w)
  | ACancel c => cancel c w
  | AHeartbeat => heartbeat w
  | ATick ms => with_clock (clock w + Z.of_N ms) w
  | ATimers => fire_timers w
  end.

Definition run (w : World) (acts : list Action) : World := fold_left step acts w.

(** The parameters of one [startTask] call, with what the environment
    contributes to it. *)
Record Start := {
  start_id : string;                     (* crypto.randomUUID() *)
  start_conversation : string;
  start_history : list (string * string);  (* role and content *)
  start_search : bool;
  start_code : bool;
  start_now : Z;
  start_db_fault : option DbFault;
}.

(** [startTask]: the task is created and registered, then
    [processTask] runs up to its first [await]. *)
Definition startTask (s : Start) : World :=
  let task := {| taskId := start_id s; conversationId := start_conversation s;
                 status := Running; chunks := []; fullResponse := "";
                 error := None; createdAt := start_now s; completedAt := None;
                 subscribers := [] |} in
  loop 0
    {| task := task; registered := true; controllers := [];
       messages := map (λ m, Plain m.1 m.2) (start_history s);
       useSearch := start_search s; useCode := start_code s;
       pc := Settled; keepAlive := true; clock := start_now s; timers := [];
       db_fault := start_db_fault s; db_writes := []; calls := [];
       status_log := [Running] |}.

End Runner.

(** ** A reader for the NDJSON lines of the examples *)

Module Sample.

Definition dq : string := String (ascii_of_nat 34) EmptyString.

(** The line [{"message":{"content":"<token>"}}] of the engine's stream. *)
Definition opening : string :=
  "{" +:+ dq +:+ "message" +:+ dq +:+ ":{" +:+ dq +:+ "content" +:+ dq +:+ ":" +:+ dq.

Definition line (token : string) : string := opening +:+ token +:+ dq +:+ "}}".

Fixpoint strip_prefix (p s : string) : option string :=
  match p, s with
  | EmptyString, _ => Some s
  | String a p', String b s' => if Ascii.eqb a b then strip_prefix p' s' else None
  | String _ _, EmptyString => None
  end.

(** The characters up to the closing quote; an escape or a control
    character is not read. *)
Fixpoint until_quote (s : string) : option (string * string) :=
  match s with
  | EmptyString => None
  | String c s' =>
      let n := nat_of_ascii c in
      if (n =? 34)%nat then Some (EmptyString, s')
      else if (n =? 92)%nat || (n <? 32)%nat then None
      else match until_quote s' with
           | Some (tok, rest) => Some (String c tok, rest)
           | None => None
           end
  end.

(** [JSON.parse(l).message?.content] on the lines built by [line];
    any other line is taken as malformed. *)
Definition message_content (l : string) : option string :=
  body ← strip_prefix opening l;
  '(tok, rest) ← until_quote body;
  if String.eqb rest "}}" then Some tok else None.

End Sample.

(** * The vocabulary of the statements *)

(** ** Controllers and the subscriber set *)

(** What a notification does to one subscribed controller, and what
    [closeSubscribers] does to it. *)
Definition deliver (msg : SseFrame) (ctl : Controller) : Controller :=
  default ctl (enqueue msg ctl).

Definition shut (ctl : Controller) : Controller := default ctl (close ctl).

Definition is_readable (ctrls : list Controller) (c : CtrlRef) : Prop :=
  ∃ ctl, ctrls !! c = Some ctl ∧ cstate ctl = Readable.

#[global] Instance is_readable_dec ctrls c : Decision (is_readable ctrls c).
Proof.
  unfold is_readable. destruct (ctrls !! c) as [ctl|] eqn:E.
  - destruct (decide (cstate ctl = Readable)) as [H|H].
    + left. eauto.
    + right. intros (ctl' & [= <-] & ?). done.
  - right. intros (ctl' & [=] & ?).
Defined.

(** The subscriber set holds every controller that can still be
    written to, once each. *)
Definition attached (w : World) : Prop :=
  NoDup (subscribers (task w))
  ∧ ∀ c, is_readable (controllers w) c → c ∈ subscribers (task w).

(** The [done] and [error] events. *)
Definition terminal (f : SseFrame) : bool :=
  match f with
  | Data DataDone | Data (DataError _) => true
  | _ => false
  end.

Definition terminal_count (q : list SseFrame) : nat :=
  length (List.filter terminal q).

(** A controller of a running task, and a controller of a settled one. *)
Definition live (ctl : Controller) : Prop :=
  cstate ctl ≠ Closed ∧ terminal_count (queue ctl) = 0%nat.

Definition finished (ctl : Controller) : Prop :=
  (cstate ctl = Closed ∧ terminal_count (queue ctl) = 1%nat)
  ∨ (cstate ctl = Cancelled ∧ terminal_count (queue ctl) = 0%nat).

(** The subscriber set and the controllers. *)
Record SubsInv (w : World) : Prop := {
  subs_attached : attached w;
  subs_running : pc w ≠ Settled → Forall live (controllers w);
  subs_settled :
    pc w = Settled → subscribers (task w) = [] ∧ Forall finished (controllers w);
}.

(** [SubsInv] while the runner has not settled. *)
Definition quiet (w : World) : Prop := attached w ∧ Forall live (controllers w).

(** The fields [SubsInv] reads, the program counter apart. *)
Definition broker_fields (w : World) := (controllers w, subscribers (task w)).

(** ** Frames: what an operation leaves alone *)

(** Everything but the chunks, the controllers and the subscriber set. *)
Definition outside_stream (w : World) :=
  (pc w, registered w, messages w, useSearch w, useCode w, keepAlive w, clock w,
   timers w, db_fault w, db_writes w, calls w, status_log w,
   (taskId (task w), conversationId (task w), status (task w), fullResponse (task w),
    error (task w), createdAt (task w), completedAt (task w))).

(** Everything but the controllers and the subscriber set. *)
Definition outside_broker (w : World) := (outside_stream w, chunks (task w)).

(** ** Life cycle *)

(** What holds of a task whose runner has not settled. *)
Definition fresh (w : World) : Prop :=
  status (task w) = Running ∧ status_log w = [Running] ∧ db_writes w = []
  ∧ timers w = [] ∧ registered w = true ∧ error (task w) = None.

(** The rows that [after_loop] writes for a task. *)
Definition saved_rows (w : World) : list (string * string * string) :=
  if Str.truthy (fullResponse (task w))
  then [(conversationId (task w), "assistant", fullResponse (task w))]
  else [].

(** How a task ends: completed, with its removal timer pending or fired,
    or in error, where no timer was set and nothing was written, unless
    the error is that of the SELECT that follows the INSERT of the row. *)
Definition ended_completed (w : World) : Prop :=
  status (task w) = Completed ∧ status_log w = [Running; Completed]
  ∧ error (task w) = None ∧ db_writes w = saved_rows w
  ∧ ∃ t0, completedAt (task w) = Some t0
      ∧ ((registered w = true ∧ timers w = [t0 + retention_ms])
         ∨ (registered w = false ∧ timers w = [] ∧ t0 + retention_ms ≤ clock w)).

Definition ended_error (w : World) : Prop :=
  status (task w) = Error ∧ is_Some (error (task w))
  ∧ timers w = [] ∧ registered w = true
  ∧ ((status_log w = [Running; Error] ∧ db_writes w = [])
     ∨ (status_log w = [Running; Completed; Error]
        ∧ Str.truthy (fullResponse (task w)) = true
        ∧ ((∃ msg, db_fault w = Some (InsertThrows msg)
                   ∧ error (task w) = Some msg ∧ db_writes w = [])
           ∨ (∃ msg, db_fault w = Some (SelectThrows msg)
                     ∧ error (task w) = Some msg ∧ db_writes w = saved_rows w)))).

(** The life cycle of a task. *)
Record Life (w : World) : Prop := {
  life_running : pc w ≠ Settled → fresh w;
  life_settled : pc w = Settled → ended_completed w ∨ ended_error w;
}.

(** ** Fragments and [fullResponse] *)

(** The index-ordered concatenation of the fragments. *)
Definition chunk_text (w : World) : string :=
  Str.concat (map content (chunks (task w))).

(** The local [fullText] of a [streamFromOllama] call in progress. *)
Definition streamed (p : PC) : string :=
  match p with
  | AwaitRead _ fullText _ _ => fullText
  | _ => ""
  end.

(** The fragment at position [i] carries the index [i]. *)
Definition indexed (cs : list TaskChunk) : Prop :=
  ∀ i ch, cs !! i = Some ch → index ch = Z.of_nat i.

(** The fragments against [fullResponse]. *)
Record TextInv (w : World) : Prop := {
  text_index : indexed (chunks (task w));
  text_cursor : ∀ it ft ci buf,
    pc w = AwaitRead it ft ci buf → ci = Z.of_nat (length (chunks (task w)));
  text_running :
    pc w ≠ Settled → chunk_text w = fullResponse (task w) +:+ streamed (pc w);
  text_completed :
    status (task w) = Completed → chunk_text w = fullResponse (task w);
  text_prefix : ∃ rest, chunk_text w = fullResponse (task w) +:+ rest;
}.

(** The fragments and [fullResponse] agree. *)
Definition aligned (w : World) : Prop :=
  indexed (chunks (task w)) ∧ chunk_text w = fullResponse (task w).

(** The fields [TextInv] reads. *)
Definition text_fields (w : World) :=
  (pc w, status (task w), fullResponse (task w), chunks (task w)).

(** The invariant of the loop of [streamFromOllama]. *)
Definition streaming (st : World * string * Z) : Prop :=
  indexed (chunks (task st.1.1))
  ∧ st.2 = Z.of_nat (length (chunks (task st.1.1)))
  ∧ chunk_text st.1.1 = fullResponse (task st.1.1) +:+ st.1.2.

(** The terminal event that [subscribe] sends after the replay. *)
Definition terminal_frames (t : GenerationTask) : list SseFrame :=
  match status t with
  | Running => []
  | Completed => [Data DataDone]
  | Error => [Data (DataError (error t))]
  end.

(** ** The protocol with the engine and the tools *)

(** A call without the history it carries. *)
Inductive CallKind :=
| KEngine (stream : bool) (tools : option (list string))
| KTool (tool : ToolCall).

Definition kind (c : Call) : CallKind :=
  match c with
  | EngineCall _ stream tools => KEngine stream tools
  | ToolInvoke tool => KTool tool
  end.

Definition kinds (w : World) : list CallKind := map kind (calls w).

(** The tool-call message of the engine, once it is in the history. *)
Fixpoint requested (ms : list Message) : option (string * list ToolCall) :=
  match ms with
  | [] => None
  | AssistantToolCalls content tool_calls :: _ => Some (content, tool_calls)
  | _ :: ms => requested ms
  end.

(** The tools that the toggles of the task enable. *)
Definition offered (w : World) : list string := activeTools (useSearch w) (useCode w).

Definition has_tools (w : World) : bool := (0 <? length (offered w))%nat.

(** The calls of a task without a tool request, and those of a task
    whose first answer requests [tcs]. *)
Definition plain_plan (w : World) : list CallKind :=
  [KEngine (negb (has_tools w)) (if has_tools w then Some (offered w) else None)].

Definition tool_plan (w : World) (tcs : list ToolCall) : list CallKind :=
  KEngine false (Some (offered w)) :: map KTool tcs ++ [KEngine true None].

(** Where the runner stands in its plan. *)
Definition ProtoInv (w : World) : Prop :=
  match requested (messages w) with
  | None =>
      kinds w = plain_plan w
      ∧ match pc w with
        | AwaitFetch it s => it = 1%nat ∧ s = negb (has_tools w)
        | AwaitJson it => it = 1%nat ∧ has_tools w = true
        | AwaitRead it _ _ _ => it = 1%nat ∧ has_tools w = false
        | AwaitTool _ _ _ => False
        | Settled => True
        end
  | Some (_, tcs) =>
      has_tools w = true ∧ tcs ≠ []
      ∧ match pc w with
        | AwaitTool it t rest =>
            it = 1%nat
            ∧ ∃ served : list ToolCall, tcs = (served ++ t :: rest)%list
                ∧ kinds w = KEngine false (Some (offered w))
                              :: map KTool (served ++ [t])%list
        | AwaitFetch it s => it = 2%nat ∧ s = true ∧ kinds w = tool_plan w tcs
        | AwaitRead it _ _ _ => it = 2%nat ∧ kinds w = tool_plan w tcs
        | AwaitJson _ => False
        | Settled =>
            kinds w `prefix_of` tool_plan w tcs
            ∧ (status (task w) = Completed → kinds w = tool_plan w tcs)
        end
  end.

(** The fields [ProtoInv] reads. *)
Definition proto_fields (w : World) :=
  (messages w, pc w, calls w, useSearch w, useCode w, status (task w)).

(** The runner has settled with the calls and the history of [w]. *)
Definition settles (w w' : World) : Prop :=
  pc w' = Settled ∧ messages w' = messages w ∧ calls w' = calls w
  ∧ useSearch w' = useSearch w ∧ useCode w' = useCode w.

(** ** Reachable worlds *)

(** What holds in every world that a task can reach. *)
Record Inv (w : World) : Prop := {
  inv_life : Life w;
  inv_text : TextInv w;
  inv_subs : SubsInv w;
  inv_proto : ProtoInv w;
}.

(** ** Example runs *)

(** A chat request with both tools switched off. *)
Definition demo : Start :=
  {| start_id := "task-1"; start_conversation := "conv-1";
     start_history := [("system", "You are Akara AI"); ("user", "hi")];
     start_search := false; start_code := false; start_now := 1000;
     start_db_fault := None |}.

(** A request with code execution switched on. *)
Definition demo_tools : Start :=
  {| start_id := "task-2"; start_conversation := "conv-2";
     start_history := [("user", "2+2?")];
     start_search := false; start_code := true; start_now := 1000;
     start_db_fault := None |}.

(** A sandbox run that prints 4. *)
Definition py4 : ToolEnv :=
  {| searchWeb := λ _, Returns []; python := PyFinished "4" "" None;
     type_error := "undefined is not an object" |}.

(** Tools disabled, one subscriber from the start, the engine has
    streamed the token Hel and the stream is still open. *)
Definition hello_mid_acts : list Action :=
  [ASubscribe "task-1" (Num 0); AFetch Ok;
   ARead (ReadValue (Sample.line "Hel" +:+ Str.nl))].

Definition hello_mid : World :=
  run Sample.message_content (startTask demo) hello_mid_acts.

(** The same task after the token lo and the end of the stream. *)
Definition hello_done_acts : list Action :=
  hello_mid_acts ++ [ARead (ReadValue (Sample.line "lo" +:+ Str.nl)); ARead ReadDone].

Definition hello_done : World :=
  run Sample.message_content (startTask demo) hello_done_acts.

(** The first engine call answers with HTTP 500. *)
Definition failed_acts : list Action :=
  [ASubscribe "task-1" (Num 0); AFetch (NotOk 500 (Returns "model not found"))].

(** The task of [demo] after an HTTP 500 on its first engine call. *)
Definition failed : World := run Sample.message_content (startTask demo) failed_acts.

(** A running task with one subscriber. *)
Definition joined : World :=
  run Sample.message_content (startTask demo) [ASubscribe "task-1" (Num 0)].

(** A chat request while the database refuses writes. *)
Definition demo_db_fault : Start :=
  {| start_id := "task-3"; start_conversation := "conv-3";
     start_history := [("user", "hi")];
     start_search := false; start_code := false; start_now := 1000;
     start_db_fault := Some (InsertThrows "database is locked") |}.

(** The engine streams one token and ends; [db.addMessage] throws. *)
Definition unsaved : World :=
  run Sample.message_content (startTask demo_db_fault)
    [ASubscribe "task-3" (Num 0); AFetch Ok;
     ARead (ReadValue (Sample.line "Hel" +:+ Str.nl)); ARead ReadDone].

(** A chat request while the database accepts the row and then fails
    to read it back. *)
Definition demo_db_select : Start :=
  {| start_id := "task-4"; start_conversation := "conv-4";
     start_history := [("user", "hi")];
     start_search := false; start_code := false; start_now := 1000;
     start_db_fault := Some (SelectThrows "disk I/O error") |}.

Definition half_saved_acts : list Action :=
  [AFetch Ok; ARead (ReadValue (Sample.line "Hel" +:+ Str.nl)); ARead ReadDone].

(** The engine streams one token and ends; the INSERT of
    [db.addMessage] succeeds and its SELECT throws. *)
Definition half_saved : World :=
  run Sample.message_content (startTask demo_db_select) half_saved_acts.

(** The tool call of the calculator scenario. *)
Definition calc_call : ToolCall :=
  {| funcName := "execute_python";
     funcArgs := ArgsObject None (Some "print(2 + 2)") |}.

Definition calc_notice_acts : list Action :=
  [ASubscribe "task-2" (Num 0); AFetch Ok; AJson (JsonMessage "" [calc_call])].

(** Code execution enabled: the first answer requests [execute_python],
    the notice has been pushed and the tool is running. *)
Definition calc_notice : World :=
  run Sample.message_content (startTask demo_tools) calc_notice_acts.

Definition calc_done_acts : list Action :=
  calc_notice_acts
  ++ [ATool py4; AFetch Ok;
      ARead (ReadValue (Sample.line "The answer is " +:+ Str.nl
                        +:+ Sample.line "4" +:+ Str.nl));
      ARead ReadDone].

(** The tool has answered 4 and the second engine call has streamed the
    final answer. *)
Definition calc_done : World :=
  run Sample.message_content (startTask demo_tools) calc_done_acts.

(** A call of a tool that the gateway does not know. *)
Definition weather_call : ToolCall :=
  {| funcName := "get_weather"; funcArgs := ArgsObject (Some "Jakarta") None |}.

(** The engine asks for a tool that does not exist; the answer of the
    gateway goes back to it and the final answer is streamed. *)
Definition weather_done : World :=
  run Sample.message_content (startTask demo_tools)
    [AFetch Ok; AJson (JsonMessage "" [weather_call]); ATool py4; AFetch Ok;
     ARead (ReadValue (Sample.line "Sorry" +:+ Str.nl)); ARead ReadDone].

(** ** Further vocabulary *)

(** The iteration counter of a suspended runner; 0 once it has settled. *)
Definition iteration_of (p : PC) : nat :=
  match p with
  | AwaitFetch it _ | AwaitJson it | AwaitRead it _ _ _ | AwaitTool it _ _ => it
  | Settled => 0
  end.

(** The engine calls among the calls that have left the process. *)
Definition is_engine_call (k : CallKind) : bool :=
  match k with
  | KEngine _ _ => true
  | KTool _ => false
  end.

Definition engine_calls (w : World) : nat :=
  length (List.filter is_engine_call (kinds w)).

(** What a task never changes after [startTask]. *)
Definition constants (w : World) :=
  (taskId (task w), conversationId (task w), createdAt (task w),
   useSearch w, useCode w, db_fault w).

(** ** What a stream has carried *)

(** The fragment that a frame carries. The notices of the runner are
    chunk events with the index -1: they carry no fragment. *)
Definition frame_fragment (f : SseFrame) : option TaskChunk :=
  match f with
  | Data (DataChunk content index) =>
      if 0 <=? index then Some {| content := content; index := index |} else None
  | _ => None
  end.

Definition fragments (q : list SseFrame) : list TaskChunk := omap frame_fragment q.

(** The position in [task.chunks] at which a subscription with the
    argument [fromChunkIndex] starts, [n] fragments being stored. *)
Definition resume_point (fromChunkIndex : JSNum) (n : nat) : nat :=
  match fromChunkIndex with
  | Num z => Z.to_nat z `min` n
  | NaN => n
  end.

(** A stream that was not cancelled is in step with the task from the
    fragment [k] on: it has carried the fragments from [k] on, each once
    and in order, and when it is closed its last frame is the terminal
    event of the task. *)
Definition sync (k : nat) (t : GenerationTask) (ctl : Controller) : Prop :=
  cstate ctl ≠ Cancelled →
  (k ≤ length (chunks t))%nat
  ∧ fragments (queue ctl) = drop k (chunks t)
  ∧ (cstate ctl = Closed → ∃ q, queue ctl = q ++ terminal_frames t).

(** What a property [P] of a stream, stated against the task, needs in
    order to be kept by the broker: it survives the delivery of a
    fragment that is appended to [task.chunks], the delivery of any
    frame that is no fragment, a change of the task that leaves its
    fragments and its terminal state alone, the terminal event followed
    by [close], and the cancellation by the client. *)
Record StreamProperty (P : GenerationTask → Controller → Prop) : Prop := {
  kept_chunk : ∀ t t' ctl token i,
    cstate ctl ≠ Closed → 0 ≤ i →
    chunks t' = chunks t ++ [{| content := token; index := i |}] →
    P t ctl → P t' (deliver (Data (DataChunk token i)) ctl);
  kept_quiet : ∀ t ctl msg,
    frame_fragment msg = None → P t ctl → P t (deliver msg ctl);
  kept_task : ∀ t t' ctl,
    chunks t' = chunks t → status t' = status t → error t' = error t →
    P t ctl → P t' ctl;
  kept_settle : ∀ t t' ctl d,
    cstate ctl ≠ Closed → frame_fragment (Data d) = None →
    chunks t' = chunks t → terminal_frames t' = [Data d] →
    P t ctl → P t' (shut (deliver (Data d) ctl));
  kept_cancel : ∀ t ctl,
    cstate ctl = Readable →
    P t ctl → P t {| queue := queue ctl; cstate := Cancelled |};
}.

(** A turn that opens no stream and keeps [P] on every stream. *)
Definition carried (P : GenerationTask → Controller → Prop) (w w' : World) : Prop :=
  length (controllers w') = length (controllers w)
  ∧ ∀ c ctl ctl',
      controllers w !! c = Some ctl → controllers w' !! c = Some ctl' →
      P (task w) ctl → P (task w') ctl'.

(** ** The record of a task *)

(** What a task has put on record by [w] is still on record in [w']:
    its fragments, its answer, the history, the calls that left the
    process, the rows and the changes of its status. *)
Definition extends (w w' : World) : Prop :=
  chunks (task w) `prefix_of` chunks (task w')
  ∧ (∃ rest, fullResponse (task w') = fullResponse (task w) +:+ rest)
  ∧ messages w `prefix_of` messages w'
  ∧ calls w `prefix_of` calls w'
  ∧ db_writes w `prefix_of` db_writes w'
  ∧ status_log w `prefix_of` status_log w'.

(** The stream [ctl] continues the stream [ctl0]: nothing that was
    sent is taken back, and a stream that is closed or cancelled is not
    written to again. *)
Definition continues (ctl0 : Controller) (t : GenerationTask) (ctl : Controller) : Prop :=
  queue ctl0 `prefix_of` queue ctl ∧ (cstate ctl0 ≠ Readable → ctl = ctl0).

(** ** Further example runs *)

(** The stream of the subscriber of [hello_done]. *)
Definition hello_stream : Controller :=
  {| queue := [Data (DataChunk "Hel" 0); Data (DataChunk "lo" 1); Data DataDone];
     cstate := Closed |}.

(** The task of [demo] after its first token, before anyone subscribes. *)
Definition unwatched_acts : list Action :=
  [AFetch Ok; ARead (ReadValue (Sample.line "Hel" +:+ Str.nl))].

Definition unwatched : World := run Sample.message_content (startTask demo) unwatched_acts.

(** The rest of the stream of [demo]. *)
Definition rest_acts : list Action :=
  [ARead (ReadValue (Sample.line "lo" +:+ Str.nl)); ARead ReadDone].

(** The task of [demo_tools] when its tool has answered and the second
    engine call is on its way. *)
Definition second_call_acts : list Action :=
  [AFetch Ok; AJson (JsonMessage "" [calc_call]); ATool py4].

(** ** Web search: what [searchWeb] does with the answers of its providers *)

Module WebSearch.

(** An element of the result of [Promise.allSettled]. *)
Inductive Settlement :=
| Fulfilled (value : list SearchResult)
| Rejected (reason : string).

(** [finalResults.push(...value)] for a fulfilled promise. *)
Definition push_settled (finalResults : list SearchResult) (p : Settlement)
    : list SearchResult :=
  match p with
  | Fulfilled value => finalResults ++ value
  | Rejected _ => finalResults
  end.

(** The [filter] with the set [seenLinks]. *)
Fixpoint unique (seenLinks : list string) (results : list SearchResult)
    : list SearchResult :=
  match results with
  | [] => []
  | r :: results =>
      if decide (link r ∈ seenLinks) then unique seenLinks results
      else r :: unique (link r :: seenLinks) results
  end.

Definition MAX_RESULTS : nat := 5.

(** [searchWeb], after the two providers have settled. *)
Definition searchWeb (bingResults wikiResults : Settlement) : list SearchResult :=
  let finalResults := push_settled [] bingResults in
  let finalResults := push_settled finalResults wikiResults in
  let uniqueResults := unique [] finalResults in
  match uniqueResults with
  | [] => []
  | _ => take MAX_RESULTS uniqueResults
  end.

End WebSearch.

(** One entry of the context text, [i] counting from 0. *)
Definition format_entry (i : nat) (r : SearchResult) : string :=
  Str.nl +:+ "[" +:+ Str.of_nat (i + 1) +:+ "] " +:+ title r
  +:+ Str.nl +:+ "Source: " +:+ source_name (source r) +:+ " (" +:+ link r +:+ ")"
  +:+ Str.nl +:+ "Snippet: " +:+ snippet r +:+ Str.nl.

(** An answer of Bing that holds one link twice. *)
Definition bing_hits : list SearchResult :=
  [{| title := "Rocq"; link := "https://rocq-prover.org"; snippet := "A prover";
      source := Bing |};
   {| title := "Rocq mirror"; link := "https://rocq-prover.org"; snippet := "Again";
      source := Bing |}].

(** ** The heartbeat interval *)

(** The interval of [processTask] is set exactly while the runner has
    not settled. *)
Definition KeepInv (w : World) : Prop := keepAlive w = true ↔ pc w ≠ Settled.

(** ** The history sent to the engine *)

(** The [messages] arrays of the engine calls, in the order of the calls. *)
Definition payloads (w : World) : list (list Message) :=
  omap (λ c, match c with
             | EngineCall ms _ _ => Some ms
             | ToolInvoke _ => None
             end) (calls w).

(** [result] is an answer of the gateway to the call [tc]. *)
Definition answered (tc : ToolCall) (result : string) : Prop :=
  ∃ env, executeTool env (funcName tc) (funcArgs tc) = Returns result.

(** The history of a task whose request carried [base]: either nothing
    was added to it, or the tool-call message of the engine and then one
    tool message for every call that was served. *)
Definition HistInv (base : list Message) (w : World) : Prop :=
  (messages w = base ∧ payloads w = [base]
   ∧ match pc w with AwaitTool _ _ _ => False | _ => True end)
  ∨ ∃ content tcs results,
      messages w = base ++ AssistantToolCalls content tcs :: map ToolMessage results
      ∧ Forall2 answered (take (length results) tcs) results
      ∧ ((payloads w = [base]
          ∧ match pc w with
            | AwaitTool _ t rest => drop (length results) tcs = t :: rest
            | Settled => True
            | _ => False
            end)
         ∨ (payloads w = [base; messages w] ∧ length results = length tcs
            ∧ match pc w with
              | AwaitFetch _ _ | AwaitRead _ _ _ _ | Settled => True
              | _ => False
              end)).

(** ** Failures of the engine *)

(** The message of the exception that the answer [a] raises in a runner
    suspended at [p], when it raises one: a rejected [fetch], a response
    that is not ok, a read of the body that throws. *)
Definition failure_of (a : Action) (p : PC) : option string :=
  match a, p with
  | AFetch (FetchRejects msg), AwaitFetch _ _ => Some msg
  | AFetch (NotOk code (Returns errText)), AwaitFetch _ _ =>
      Some ("Ollama error (" +:+ Str.of_Z code +:+ "): " +:+ errText)
  | AFetch (NotOk _ (Throws msg)), AwaitFetch _ _ => Some msg
  | ARead (ReadThrows msg), AwaitRead _ _ _ _ => Some msg
  | AJson (JsonThrows msg), AwaitJson _ => Some msg
  | _, _ => None
  end.

(** * Properties *)

(** ** Strings *)

Lemma append_cons c s t : String c s +:+ t = String c (s +:+ t).
Proof. reflexivity. Qed.

Lemma append_nil_r s : s +:+ "" = s.
Proof. induction s as [|c s IH]; [done|]. by rewrite append_cons, IH. Qed.

Lemma append_assoc s t u : (s +:+ t) +:+ u = s +:+ t +:+ u.
Proof. induction s as [|c s IH]; [done|]. by rewrite !append_cons, IH. Qed.

Lemma concat_snoc l x : Str.concat (l ++ [x]) = Str.concat l +:+ x.
Proof.
  induction l as [|y l IH]; simpl.
  - by rewrite append_nil_r.
  - by rewrite IH, append_assoc.
Qed.

(** ** The string functions on small inputs *)

Example split_two_lines :
  Str.split Str.newline ("a" +:+ Str.nl +:+ "b") = ["a"; "b"].
Proof. reflexivity. Qed.

Example split_trailing_newline :
  Str.split Str.newline ("a" +:+ Str.nl) = ["a"; ""].
Proof. reflexivity. Qed.

Example split_empty : Str.split Str.newline "" = [""].
Proof. reflexivity. Qed.

Example trim_both_ends : Str.trim ("  a b " +:+ Str.nl) = "a b".
Proof. reflexivity. Qed.

Example of_Z_status : Str.of_Z 500 = "500" ∧ Str.of_Z (-1) = "-1" ∧ Str.of_nat 0 = "0".
Proof. by repeat split. Qed.

Example parseInt_digits :
  parseInt "12" = Num 12 ∧ parseInt " -7" = Num (-7) ∧ parseInt "3abc" = Num 3
  ∧ parseInt "0x1f" = Num 31 ∧ parseInt "+0" = Num 0.
Proof. by repeat split. Qed.

Example parseInt_NaN :
  parseInt "abc" = NaN ∧ parseInt "" = NaN ∧ parseInt "-" = NaN
  ∧ parseInt "0x" = NaN ∧ parseInt ".5" = NaN.
Proof. by repeat split. Qed.

Example or_default_from :
  or_default None "0" = "0" ∧ or_default (Some "") "0" = "0"
  ∧ or_default (Some "abc") "0" = "abc".
Proof. by repeat split. Qed.

Example sample_line_read :
  Sample.message_content (Sample.line "Hel") = Some "Hel"
  ∧ Sample.message_content "{not json" = None.
Proof. by repeat split. Qed.

Example python_stdout :
  executePythonCode py4 (Some "print(2 + 2)") = Returns "4".
Proof. reflexivity. Qed.

Example format_no_result : formatResultsAsContext [] = "".
Proof. reflexivity. Qed.

(** ** The gateway never throws *)

Lemma executePythonCode_some env code :
  ∃ text, executePythonCode env (Some code) = Returns text.
Proof.
  unfold executePythonCode, try_catch.
  destruct (python env) as [msg| |out err [msg|]]; eauto.
Qed.

Lemma executeTool_returns env toolName args :
  ∃ text, executeTool env toolName args = Returns text.
Proof.
  unfold executeTool, try_catch.
  destruct (if String.eqb toolName "web_search" then _ else _); eauto.
Qed.

Lemma executeTool_unknown env toolName args :
  toolName ≠ "web_search" → toolName ≠ "execute_python" →
  executeTool env toolName args = Returns ("Error: Unknown tool '" +:+ toolName +:+ "'").
Proof.
  intros H1%String.eqb_neq H2%String.eqb_neq.
  unfold executeTool. by rewrite H1, H2.
Qed.

(** ** The loops over the subscriber set *)

Lemma cstate_deliver msg ctl : cstate (deliver msg ctl) = cstate ctl.
Proof. unfold deliver, enqueue. by destruct (cstate ctl) eqn:E. Qed.

Lemma deliver_readable msg ctl :
  cstate ctl = Readable →
  deliver msg ctl = {| queue := queue ctl ++ [msg]; cstate := Readable |}.
Proof. intros H. unfold deliver, enqueue. by rewrite H. Qed.

Lemma deliver_not_readable msg ctl : cstate ctl ≠ Readable → deliver msg ctl = ctl.
Proof. intros H. unfold deliver, enqueue. by destruct (cstate ctl). Qed.

Lemma enqueue_lookup msg (ctrls : list Controller) c :
  match ctrls !! c ≫= enqueue msg with
  | Some ctl' => ∃ ctl, ctrls !! c = Some ctl ∧ cstate ctl = Readable
                        ∧ ctl' = deliver msg ctl
  | None => ¬ is_readable ctrls c
  end.
Proof.
  unfold is_readable. destruct (ctrls !! c) as [ctl|] eqn:E; simpl.
  - destruct (enqueue msg ctl) as [ctl'|] eqn:Q.
    + exists ctl. unfold enqueue in Q. destruct (cstate ctl) eqn:S; try done.
      injection Q as <-. unfold deliver, enqueue. by rewrite S.
    + intros (ctl' & [= <-] & R). unfold enqueue in Q. by rewrite R in Q.
  - intros (ctl' & [=] & _).
Qed.

Lemma is_readable_insert (ctrls : list Controller) c ctl ctl' c' :
  ctrls !! c = Some ctl → cstate ctl' = cstate ctl →
  is_readable (<[c:=ctl']> ctrls) c' ↔ is_readable ctrls c'.
Proof.
  intros Hc Hs. unfold is_readable.
  destruct (decide (c = c')) as [<-|Hne].
  - rewrite list_lookup_insert_eq by (by eapply lookup_lt_Some). split.
    + intros (x & Hx & R). simplify_eq. exists ctl. split; [done|]. by rewrite <- Hs.
    + intros (x & Hx & R). simplify_eq. exists ctl'. split; [done|]. by rewrite Hs.
  - by rewrite list_lookup_insert_ne.
Qed.

Lemma notify_each_lookup msg todo : ∀ (ctrls : list Controller) subs c,
  NoDup todo →
  (notify_each msg todo ctrls subs).1 !! c
  = (if decide (c ∈ todo) then deliver msg else id) <$> ctrls !! c.
Proof.
  induction todo as [|c0 todo IH]; intros ctrls subs c Hnd; simpl.
  - by destruct (ctrls !! c).
  - apply NoDup_cons in Hnd as [Hnotin Hnd].
    pose proof (enqueue_lookup msg ctrls c0) as He.
    destruct (ctrls !! c0 ≫= enqueue msg) as [ctl'|].
    + destruct He as (ctl & Hc0 & Hr & ->). rewrite IH by done.
      destruct (decide (c = c0)) as [->|Hne].
      * rewrite list_lookup_insert_eq by (by eapply lookup_lt_Some).
        rewrite Hc0. rewrite decide_False by done.
        rewrite decide_True by set_solver. done.
      * rewrite list_lookup_insert_ne by done.
        destruct (decide (c ∈ todo)).
        -- by rewrite decide_True by set_solver.
        -- by rewrite decide_False by set_solver.
    + rewrite IH by done.
      destruct (decide (c = c0)) as [->|Hne].
      * rewrite decide_False by done. rewrite decide_True by set_solver.
        destruct (ctrls !! c0) as [ctl|] eqn:E; [|done]. simpl.
        rewrite deliver_not_readable; [done|].
        intros R. apply He. by exists ctl.
      * destruct (decide (c ∈ todo)).
        -- by rewrite decide_True by set_solver.
        -- by rewrite decide_False by set_solver.
Qed.

Lemma filter_always {A} (P : A → Prop) `{!∀ x, Decision (P x)} (l : list A) :
  (∀ x, P x) → filter P l = l.
Proof.
  intros HP. induction l as [|x l IH]; [done|].
  by rewrite filter_cons_True, IH.
Qed.

Lemma notify_each_subs msg todo : ∀ (ctrls : list Controller) subs,
  (notify_each msg todo ctrls subs).2
  = filter (λ c, c ∉ todo ∨ is_readable ctrls c) subs.
Proof.
  induction todo as [|c0 todo IH]; intros ctrls subs; simpl.
  - symmetry. apply filter_always. intros c. left. set_solver.
  - pose proof (enqueue_lookup msg ctrls c0) as He.
    destruct (ctrls !! c0 ≫= enqueue msg) as [ctl'|].
    + destruct He as (ctl & Hc0 & Hr & ->). rewrite IH.
      apply list_filter_iff. intros c.
      rewrite is_readable_insert by (done || apply cstate_deliver).
      destruct (decide (c = c0)) as [->|Hne]; [|set_solver].
      split; [|set_solver]. intros _. right. by exists ctl.
    + rewrite IH. unfold set_delete. rewrite list_filter_filter.
      apply list_filter_iff. intros c.
      destruct (decide (c = c0)) as [->|Hne]; [|set_solver].
      split; [set_solver|]. intros [H|H]; [set_solver|done].
Qed.

Lemma close_each_lookup todo : ∀ (ctrls : list Controller) c,
  NoDup todo →
  close_each todo ctrls !! c = (if decide (c ∈ todo) then shut else id) <$> ctrls !! c.
Proof.
  induction todo as [|c0 todo IH]; intros ctrls c Hnd; simpl.
  - by destruct (ctrls !! c).
  - apply NoDup_cons in Hnd as [Hnotin Hnd].
    destruct (ctrls !! c0) as [ctl|] eqn:E; simpl.
    + destruct (close ctl) as [ctl'|] eqn:Q; rewrite IH by done.
      * destruct (decide (c = c0)) as [->|Hne].
        -- rewrite list_lookup_insert_eq by (by eapply lookup_lt_Some).
           rewrite E, decide_False by done. rewrite decide_True by set_solver.
           simpl. unfold shut. by rewrite Q.
        -- rewrite list_lookup_insert_ne by done.
           destruct (decide (c ∈ todo)).
           ++ by rewrite decide_True by set_solver.
           ++ by rewrite decide_False by set_solver.
      * destruct (decide (c = c0)) as [->|Hne].
        -- rewrite E, decide_False by done. rewrite decide_True by set_solver.
           simpl. unfold shut. by rewrite Q.
        -- destruct (decide (c ∈ todo)).
           ++ by rewrite decide_True by set_solver.
           ++ by rewrite decide_False by set_solver.
    + rewrite IH by done.
      destruct (decide (c = c0)) as [->|Hne].
      * by rewrite E.
      * destruct (decide (c ∈ todo)).
        -- by rewrite decide_True by set_solver.
        -- by rewrite decide_False by set_solver.
Qed.

Lemma beat_each_lookup todo : ∀ (ctrls : list Controller) c,
  NoDup todo →
  beat_each todo ctrls !! c
  = (if decide (c ∈ todo) then deliver KeepAlive else id) <$> ctrls !! c.
Proof.
  induction todo as [|c0 todo IH]; intros ctrls c Hnd; simpl.
  - by destruct (ctrls !! c).
  - apply NoDup_cons in Hnd as [Hnotin Hnd].
    pose proof (enqueue_lookup KeepAlive ctrls c0) as He.
    destruct (ctrls !! c0 ≫= enqueue KeepAlive) as [ctl'|]; rewrite IH by done.
    + destruct He as (ctl & Hc0 & Hr & ->).
      destruct (decide (c = c0)) as [->|Hne].
      * rewrite list_lookup_insert_eq by (by eapply lookup_lt_Some).
        rewrite Hc0, decide_False by done. by rewrite decide_True by set_solver.
      * rewrite list_lookup_insert_ne by done.
        destruct (decide (c ∈ todo)).
        -- by rewrite decide_True by set_solver.
        -- by rewrite decide_False by set_solver.
    + destruct (decide (c = c0)) as [->|Hne].
      * rewrite decide_False by done. rewrite decide_True by set_solver.
        destruct (ctrls !! c0) as [ctl|] eqn:E; [|done]. simpl.
        rewrite deliver_not_readable; [done|].
        intros R. apply He. by exists ctl.
      * destruct (decide (c ∈ todo)).
        -- by rewrite decide_True by set_solver.
        -- by rewrite decide_False by set_solver.
Qed.

Lemma filter_agree {A} (P Q : A → Prop) `{!∀ x, Decision (P x), !∀ x, Decision (Q x)}
    (l : list A) :
  (∀ x, x ∈ l → P x ↔ Q x) → filter P l = filter Q l.
Proof.
  induction l as [|x l IH]; intros Hpq; [done|].
  rewrite !filter_cons, IH by (intros y Hy; apply Hpq; set_solver).
  apply decide_ext, Hpq. set_solver.
Qed.

Lemma notify_controllers d w :
  attached w → controllers (notifySubscribers d w) = deliver (Data d) <$> controllers w.
Proof.
  intros [Hnd Hin]. apply list_eq. intros c. simpl.
  rewrite notify_each_lookup, list_lookup_fmap by done.
  destruct (controllers w !! c) as [ctl|] eqn:E; [|done]. simpl.
  case_decide as Hc; [done|]. f_equal. symmetry. apply deliver_not_readable.
  intros R. apply Hc, Hin. by exists ctl.
Qed.

Lemma notify_subscribers d w :
  subscribers (task (notifySubscribers d w))
  = filter (is_readable (controllers w)) (subscribers (task w)).
Proof.
  simpl. rewrite notify_each_subs. apply filter_agree. intros c Hc. naive_solver.
Qed.

Lemma is_readable_fmap f (ctrls : list Controller) c :
  (∀ ctl, cstate (f ctl) = cstate ctl) →
  is_readable (f <$> ctrls) c ↔ is_readable ctrls c.
Proof.
  intros Hf. unfold is_readable. rewrite list_lookup_fmap. split.
  - intros (ctl' & H & R). destruct (ctrls !! c) as [ctl|]; simplify_eq/=.
    exists ctl. by rewrite <- Hf.
  - intros (ctl & -> & R). exists (f ctl). by rewrite Hf.
Qed.

Lemma notify_attached d w : attached w → attached (notifySubscribers d w).
Proof.
  intros Ha. pose proof Ha as [Hnd Hin]. split.
  - rewrite notify_subscribers. by apply NoDup_filter.
  - intros c. rewrite notify_controllers, notify_subscribers by done.
    rewrite is_readable_fmap by apply cstate_deliver.
    intros R. apply list_elem_of_filter. auto.
Qed.

Lemma close_controllers w :
  attached w → controllers (closeSubscribers w) = shut <$> controllers w.
Proof.
  intros [Hnd Hin]. apply list_eq. intros c. simpl.
  rewrite close_each_lookup, list_lookup_fmap by done.
  destruct (controllers w !! c) as [ctl|] eqn:E; [|done]. simpl.
  case_decide as Hc; [done|]. f_equal. unfold shut, close.
  destruct (cstate ctl) eqn:S; try done.
  exfalso. apply Hc, Hin. by exists ctl.
Qed.

Lemma beat_controllers w :
  attached w →
  beat_each (subscribers (task w)) (controllers w) = deliver KeepAlive <$> controllers w.
Proof.
  intros [Hnd Hin]. apply list_eq. intros c.
  rewrite beat_each_lookup, list_lookup_fmap by done.
  destruct (controllers w !! c) as [ctl|] eqn:E; [|done]. simpl.
  case_decide as Hc; [done|]. f_equal. symmetry. apply deliver_not_readable.
  intros R. apply Hc, Hin. by exists ctl.
Qed.

Lemma notify_outside d w : outside_broker (notifySubscribers d w) = outside_broker w.
Proof. reflexivity. Qed.

Lemma close_outside w : outside_broker (closeSubscribers w) = outside_broker w.
Proof. reflexivity. Qed.

(** ** Life cycle *)

Lemma settled_or_not (p : PC) : p = Settled ∨ p ≠ Settled.
Proof. destruct p; auto. Qed.

Lemma fresh_outside w w' : outside_stream w' = outside_stream w → fresh w → fresh w'.
Proof. unfold outside_stream, fresh. intros [=]. intros. by simplify_eq/=; congruence. Qed.

Lemma Life_fresh p w : p ≠ Settled → fresh w → Life (with_pc p w).
Proof. intros Hp Hf. split; [done|]. simpl. done. Qed.

Lemma Life_throw msg w : fresh w → Life (throw msg w).
Proof.
  intros (Hs & Hl & Hd & Ht & Hr & He). split; [done|]. intros _. right.
  unfold ended_error. simpl. rewrite Hl, Hd, Ht, Hr.
  split_and!; [done|by eexists|done|done|by left].
Qed.

Lemma Life_after_loop w : fresh w → Life (after_loop w).
Proof.
  intros (Hs & Hl & Hd & Ht & Hr & He). unfold after_loop, db_addMessage. simpl.
  destruct (Str.truthy (fullResponse (task w))) eqn:Hfull;
    [destruct (db_fault w) as [[msg|msg]|] eqn:Hfault|].
  - split; [done|]. intros _. right. unfold ended_error. simpl.
    rewrite Hl, Hd, Ht, Hr, Hfault, Hfull.
    split_and!; [done|by eexists|done|done|]. right. split_and!; [done..|].
    left. by exists msg.
  - split; [done|]. intros _. right. unfold ended_error, saved_rows. simpl.
    rewrite Hl, Hd, Ht, Hr, Hfault, Hfull.
    split_and!; [done|by eexists|done|done|]. right. split_and!; [done..|].
    right. by exists msg.
  - split; [done|]. intros _. left. unfold ended_completed, saved_rows. simpl.
    rewrite Hl, Hd, Ht, Hr, He, Hfull. eauto 10.
  - split; [done|]. intros _. left. unfold ended_completed, saved_rows. simpl.
    rewrite Hl, Hd, Ht, Hr, He, Hfull. eauto 10.
Qed.

Lemma Life_loop iteration w : fresh w → Life (loop iteration w).
Proof.
  intros Hf. unfold loop. case_match.
  - by apply Life_fresh.
  - by apply Life_after_loop.
Qed.

Lemma Life_begin_tool iteration tool rest w :
  fresh w → Life (begin_tool iteration tool rest w).
Proof. intros Hf. by apply Life_fresh. Qed.

Lemma Life_outside w w' : outside_stream w' = outside_stream w → Life w → Life w'.
Proof.
  unfold outside_stream. intros Ho [Hrun Hset]. simplify_eq.
  split; unfold fresh, ended_completed, ended_error, saved_rows in *;
    repeat match goal with
           | H : _ = _ |- _ => try rewrite H; clear H
           end; assumption.
Qed.

Lemma subscribe_outside tid k w c w' :
  subscribe tid k w = Some (c, w') → outside_broker w' = outside_broker w.
Proof.
  unfold subscribe. case_match; [|done].
  destruct (status (task w)); intros [= <- <-]; reflexivity.
Qed.

Lemma cancel_outside c w : outside_broker (cancel c w) = outside_broker w.
Proof. unfold cancel. repeat case_match; reflexivity. Qed.

Lemma heartbeat_outside w : outside_broker (heartbeat w) = outside_broker w.
Proof. unfold heartbeat. case_match; reflexivity. Qed.

Lemma outside_broker_stream w w' :
  outside_broker w' = outside_broker w → outside_stream w' = outside_stream w.
Proof. intros H. exact (f_equal fst H). Qed.

Section Invariants.

Variable mc : string → option string.

Lemma process_line_outside st line :
  outside_stream (process_line mc st line).1.1 = outside_stream st.1.1.
Proof.
  destruct st as [[w ft] ci]. unfold process_line.
  repeat case_match; reflexivity.
Qed.

Lemma fold_process_outside lines : ∀ st,
  outside_stream (fold_left (process_line mc) lines st).1.1 = outside_stream st.1.1.
Proof.
  induction lines as [|line lines IH]; intros st; simpl; [done|].
  by rewrite IH, process_line_outside.
Qed.

Lemma Life_step w a : Life w → Life (step mc w a).
Proof.
  intros HL. destruct a as [r|r|r|env|tid k|tid from|c| |ms| ]; simpl.
  - unfold on_fetch. destruct (pc w) eqn:Hpc; try done.
    assert (fresh w) as Hf by (apply HL; congruence).
    destruct r as [msg|st [t|msg]|]; try by apply Life_throw.
    case_match; by apply Life_fresh.
  - unfold on_read. destruct (pc w) eqn:Hpc; try done.
    assert (fresh w) as Hf by (apply HL; congruence).
    destruct r as [value| |msg].
    + destruct (fold_left _ _ _) as [[wf ft] ci] eqn:E.
      apply Life_fresh; [done|].
      pose proof (fold_process_outside
                    (removelast (Str.split Str.newline (buffer +:+ value)))
                    (w, fullText, chunkIndex)) as Ho.
      rewrite E in Ho. exact (fresh_outside w wf Ho Hf).
    + destruct (process_line _ _ _) as [[wl ft] ci] eqn:E.
      apply Life_after_loop.
      pose proof (process_line_outside (w, fullText, chunkIndex) buffer) as Ho.
      rewrite E in Ho. exact (fresh_outside w wl Ho Hf).
    + by apply Life_throw.
  - unfold on_json. destruct (pc w) eqn:Hpc; try done.
    assert (fresh w) as Hf by (apply HL; congruence).
    destruct r as [msg|content [|tool rest]].
    + by apply Life_throw.
    + by apply Life_after_loop.
    + by apply Life_begin_tool.
  - unfold on_tool. destruct (pc w) eqn:Hpc; try done.
    assert (fresh w) as Hf by (apply HL; congruence).
    destruct (executeTool _ _ _) as [result|msg]; [|by apply Life_throw].
    destruct rest as [|next rest].
    + by apply Life_loop.
    + by apply Life_begin_tool.
  - destruct (subscribe tid k w) as [[c w']|] eqn:E; [|done]. simpl.
    eapply Life_outside; [|exact HL].
    eapply outside_broker_stream, subscribe_outside, E.
  - destruct (handleTaskStream tid from w) as [[c w']|] eqn:E; [|done]. simpl.
    eapply Life_outside; [|exact HL].
    eapply outside_broker_stream, subscribe_outside, E.
  - eapply Life_outside; [|exact HL]. apply outside_broker_stream, cancel_outside.
  - eapply Life_outside; [|exact HL]. apply outside_broker_stream, heartbeat_outside.
  - destruct HL as [Hrun Hset]. split; [exact Hrun|].
    intros Hp. destruct (Hset Hp) as [Hc|He]; [left|by right].
    destruct Hc as (? & ? & ? & ? & t0 & ? & Hreg). split_and!; try done.
    exists t0. split; [done|]. simpl. destruct Hreg as [?|(? & ? & ?)]; [by left|right].
    split_and!; try done. lia.
  - destruct HL as [Hrun Hset]. unfold fire_timers.
    destruct (List.filter _ _) as [|due dues] eqn:E; [by split|].
    split.
    + intros Hp. destruct (Hrun Hp) as (_ & _ & _ & Ht & _). by rewrite Ht in E.
    + intros Hp. destruct (Hset Hp) as [Hc|He].
      * left. destruct Hc as (? & ? & ? & ? & t0 & ? & Hreg).
        split_and!; try done. exists t0. split; [done|]. simpl.
        destruct Hreg as [[Hr Ht]|(? & Ht & ?)]; [|by rewrite Ht in E].
        right. rewrite Ht in E |- *. simpl in *.
        destruct (t0 + retention_ms <=? clock w) eqn:Hdue; [|done].
        split_and!; [done..|]. lia.
      * destruct He as (_ & _ & Ht & _). by rewrite Ht in E.
Qed.

End Invariants.

(** ** Fragments and [fullResponse] *)

Lemma indexed_snoc cs ch :
  indexed cs → index ch = Z.of_nat (length cs) → indexed (cs ++ [ch]).
Proof.
  intros Hcs Hch i ch' [[_ Hi]|[-> <-]]%lookup_snoc_Some; [|done].
  by apply Hcs.
Qed.

Lemma concat_content_snoc cs ch :
  Str.concat (map content (cs ++ [ch])) = Str.concat (map content cs) +:+ content ch.
Proof. rewrite map_app. apply concat_snoc. Qed.

Lemma aligned_outside w w' :
  outside_broker w' = outside_broker w → aligned w → aligned w'.
Proof.
  unfold outside_broker, outside_stream, aligned, chunk_text.
  intros Ho. simplify_eq. congruence.
Qed.

Lemma TextInv_fields w w' : text_fields w' = text_fields w → TextInv w → TextInv w'.
Proof.
  unfold text_fields. intros Ho [T1 T2 T3 T4 T5]. simplify_eq.
  split; unfold chunk_text in *;
    repeat match goal with
           | H : _ = _ |- _ => try rewrite H; clear H
           end; assumption.
Qed.

Lemma outside_broker_text w w' :
  outside_broker w' = outside_broker w → text_fields w' = text_fields w.
Proof.
  unfold outside_broker, outside_stream, text_fields. intros Ho.
  simplify_eq. congruence.
Qed.

Lemma TextInv_throw msg w :
  indexed (chunks (task w)) →
  (∃ rest, chunk_text w = fullResponse (task w) +:+ rest) →
  TextInv (throw msg w).
Proof. intros Hi Hp. by split. Qed.

Lemma TextInv_after_loop w : aligned w → TextInv (after_loop w).
Proof.
  intros [Hi Ht]. unfold after_loop, db_addMessage. simpl.
  assert (∃ rest, chunk_text w = fullResponse (task w) +:+ rest)
    by (exists ""; by rewrite append_nil_r).
  destruct (Str.truthy (fullResponse (task w)));
    [destruct (db_fault w) as [[?|?]|]|]; by split.
Qed.

Lemma TextInv_calm p w :
  aligned w → status (task w) = Running → p ≠ Settled → streamed p = "" →
  (∀ it ft ci buf, p ≠ AwaitRead it ft ci buf) →
  TextInv (with_pc p w).
Proof.
  intros [Hi Ht] Hs Hp Hstr Hr. split; simpl; try done.
  - intros it ft ci buf E. by destruct (Hr it ft ci buf).
  - intros _. by rewrite Hstr, append_nil_r.
  - exists "". by rewrite append_nil_r.
Qed.

Lemma TextInv_loop iteration w :
  aligned w → status (task w) = Running → TextInv (loop iteration w).
Proof.
  intros Ha Hs. unfold loop. case_match; [|by apply TextInv_after_loop].
  by apply TextInv_calm.
Qed.

Lemma TextInv_begin_tool iteration tool rest w :
  aligned w → status (task w) = Running → TextInv (begin_tool iteration tool rest w).
Proof. intros Ha Hs. by apply TextInv_calm. Qed.

Section Text.

Variable mc : string → option string.

Lemma process_line_streaming st line :
  streaming st → streaming (process_line mc st line).
Proof.
  destruct st as [[w ft] ci]. intros (Hi & Hc & Ht). unfold process_line.
  repeat case_match; try done. unfold streaming in *. simpl in *. split_and!.
  - apply indexed_snoc; [done|]. by simpl.
  - rewrite length_app. simpl. lia.
  - unfold chunk_text in *. simpl.
    by rewrite concat_content_snoc, Ht, append_assoc.
Qed.

Lemma fold_process_streaming lines : ∀ st,
  streaming st → streaming (fold_left (process_line mc) lines st).
Proof.
  induction lines as [|line lines IH]; intros st Hst; simpl; [done|].
  by apply IH, process_line_streaming.
Qed.

Lemma TextInv_step w a : Life w → TextInv w → TextInv (step mc w a).
Proof.
  intros HL HT.
  assert (pc w ≠ Settled → status (task w) = Running) as Hrun
    by (intros Hp; by apply HL).
  assert (streamed (pc w) = "" → pc w ≠ Settled → aligned w) as Hal.
  { intros Hstr Hp. split; [apply HT|].
    rewrite (text_running _ HT Hp), Hstr. apply append_nil_r. }
  assert (∀ w', text_fields w' = text_fields w → TextInv w') as Hfields
    by (intros w' Ho; by apply (TextInv_fields w)).
  assert (∀ w', outside_broker w' = outside_broker w → TextInv w') as Hframe
    by (intros w' Ho; by apply Hfields, outside_broker_text).
  destruct a as [r|r|r|env|tid k|tid from|c| |ms| ]; simpl.
  - unfold on_fetch. destruct (pc w) eqn:Hpc; try done.
    specialize (Hal eq_refl ltac:(done)). specialize (Hrun ltac:(done)).
    destruct r as [msg|st [t|msg]|];
      try (apply TextInv_throw; [apply HT|apply HT]).
    case_match; [|by apply TextInv_calm].
    destruct Hal as [Hi Ht]. split; simpl; try done.
    + by intros ???? [= <- <- <- <-].
    + intros _. by rewrite append_nil_r.
    + exists "". by rewrite append_nil_r.
  - unfold on_read. destruct (pc w) eqn:Hpc; try done.
    specialize (Hrun ltac:(done)).
    assert (streaming (w, fullText, chunkIndex)) as Hst.
    { split_and!; simpl; [apply HT|by eapply HT|].
      by rewrite (text_running _ HT) by congruence; rewrite Hpc. }
    destruct r as [value| |msg].
    + pose proof (fold_process_streaming
                    (removelast (Str.split Str.newline (buffer +:+ value)))
                    _ Hst) as Hst'.
      pose proof (fold_process_outside mc
                    (removelast (Str.split Str.newline (buffer +:+ value)))
                    (w, fullText, chunkIndex)) as Ho.
      destruct (fold_left _ _ _) as [[wf ft] ci] eqn:E.
      destruct Hst' as (Hi & Hc & Ht). simpl in *.
      unfold outside_stream in Ho. simplify_eq.
      split; simpl; try done.
      * by intros ???? [= <- <- <- <-].
      * unfold chunk_text in *. congruence.
      * eauto.
    + pose proof (process_line_streaming _ buffer Hst) as Hst'.
      destruct (process_line _ _ _) as [[wl ft] ci] eqn:E.
      destruct Hst' as (Hi & Hc & Ht). simpl in *.
      apply TextInv_after_loop. split; [done|]. exact Ht.
    + apply TextInv_throw; apply HT.
  - unfold on_json. destruct (pc w) eqn:Hpc; try done.
    specialize (Hal eq_refl ltac:(done)). specialize (Hrun ltac:(done)).
    destruct r as [msg|content [|tool rest]].
    + apply TextInv_throw; apply HT.
    + apply TextInv_after_loop. destruct Hal as [Hi Ht]. split; simpl.
      * by apply indexed_snoc.
      * unfold chunk_text in *. simpl. by rewrite concat_content_snoc, Ht.
    + by apply TextInv_begin_tool.
  - unfold on_tool. destruct (pc w) eqn:Hpc; try done.
    specialize (Hal eq_refl ltac:(done)). specialize (Hrun ltac:(done)).
    destruct (executeTool _ _ _) as [result|msg];
      [|apply TextInv_throw; apply HT].
    destruct rest as [|next rest].
    + by apply TextInv_loop.
    + by apply TextInv_begin_tool.
  - destruct (subscribe tid k w) as [[c w']|] eqn:E; [|done].
    eapply Hframe, subscribe_outside, E.
  - destruct (handleTaskStream tid from w) as [[c w']|] eqn:E; [|done].
    eapply Hframe, subscribe_outside, E.
  - apply Hframe, cancel_outside.
  - apply Hframe, heartbeat_outside.
  - by apply Hfields.
  - apply Hfields. unfold fire_timers. by case_match.
Qed.

End Text.

(** ** Subscribers and terminal signals *)

Lemma terminal_count_app q1 q2 :
  terminal_count (q1 ++ q2) = (terminal_count q1 + terminal_count q2)%nat.
Proof. unfold terminal_count. by rewrite List.filter_app, length_app. Qed.

Lemma terminal_count_replay cs : terminal_count (map chunk_frame cs) = 0%nat.
Proof. induction cs as [|ch cs IH]; [done|]. exact IH. Qed.

Lemma quiet_fields w w' : broker_fields w' = broker_fields w → quiet w → quiet w'.
Proof.
  unfold broker_fields, quiet, attached. intros [= Hc Hs]. by rewrite Hc, Hs.
Qed.

Lemma SubsInv_running w : pc w ≠ Settled → quiet w → SubsInv w.
Proof. intros Hp [Ha Hl]. by split. Qed.

Lemma live_deliver msg ctl : terminal msg = false → live ctl → live (deliver msg ctl).
Proof.
  intros Hm [Hc Ht]. split; [by rewrite cstate_deliver|].
  unfold deliver, enqueue. destruct (cstate ctl); simpl; try done.
  rewrite terminal_count_app, Ht. unfold terminal_count. simpl. by rewrite Hm.
Qed.

Lemma finished_deliver msg ctl : finished ctl → deliver msg ctl = ctl.
Proof.
  intros [[Hc _]|[Hc _]]; apply deliver_not_readable; by rewrite Hc.
Qed.

Lemma quiet_notify d w :
  terminal (Data d) = false → quiet w → quiet (notifySubscribers d w).
Proof.
  intros Hd [Ha Hl]. split; [by apply notify_attached|].
  rewrite notify_controllers by done. apply Forall_fmap.
  eapply Forall_impl; [exact Hl|]. intros ctl. by apply live_deliver.
Qed.

Lemma finished_settle msg ctl :
  terminal msg = true → live ctl →
  finished (shut (deliver msg ctl)) ∧ cstate (shut (deliver msg ctl)) ≠ Readable.
Proof.
  intros Hm [Hc Ht]. unfold shut, close, deliver, enqueue.
  destruct (cstate ctl) eqn:S; simpl; try done.
  - split; [|done]. left. split; [done|]. simpl.
    rewrite terminal_count_app, Ht. unfold terminal_count. simpl. by rewrite Hm.
  - rewrite S. simpl. split; [|by rewrite S]. right. by rewrite S.
Qed.

(** The terminal notification followed by [closeSubscribers]. *)
Lemma SubsInv_settle d w w' :
  terminal (Data d) = true → quiet w → pc w' = Settled →
  broker_fields w' = broker_fields (closeSubscribers (notifySubscribers d w)) →
  SubsInv w'.
Proof.
  intros Hd [Ha Hl] Hp Hb. unfold broker_fields in Hb.
  apply pair_equal_spec in Hb as [Hc Hs]. simpl in Hs.
  rewrite close_controllers, notify_controllers in Hc
    by (done || by apply notify_attached).
  assert (Forall (λ ctl, finished ctl ∧ cstate ctl ≠ Readable) (controllers w')) as Hfin.
  { rewrite Hc, <- list_fmap_compose. apply Forall_fmap.
    eapply Forall_impl; [exact Hl|]. intros ctl. by apply finished_settle. }
  split.
  - split; [rewrite Hs; constructor|].
    intros c (ctl & Hlook & R). exfalso.
    eapply Forall_lookup_1 in Hfin as [_ Hn]; [|exact Hlook]. done.
  - by rewrite Hp.
  - intros _. split; [done|]. eapply Forall_impl; [exact Hfin|]. by intros ctl [? _].
Qed.

Lemma SubsInv_throw msg w : quiet w → SubsInv (throw msg w).
Proof. intros Hq. by eapply (SubsInv_settle (DataError (Some msg)) w). Qed.

Lemma SubsInv_after_loop w : quiet w → SubsInv (after_loop w).
Proof.
  intros Hq. unfold after_loop, db_addMessage. simpl.
  destruct (Str.truthy (fullResponse (task w))); [destruct (db_fault w) as [[msg|msg]|]|].
  - by eapply (SubsInv_settle (DataError (Some msg)) w).
  - by eapply (SubsInv_settle (DataError (Some msg)) w).
  - by eapply (SubsInv_settle DataDone w).
  - by eapply (SubsInv_settle DataDone w).
Qed.

Lemma SubsInv_loop iteration w : quiet w → SubsInv (loop iteration w).
Proof.
  intros Hq. unfold loop. case_match; [|by apply SubsInv_after_loop].
  by apply SubsInv_running.
Qed.

Lemma SubsInv_begin_tool iteration tool rest w :
  quiet w → SubsInv (begin_tool iteration tool rest w).
Proof.
  intros Hq. apply SubsInv_running; [done|].
  by eapply (quiet_fields (notifySubscribers _ w)), quiet_notify.
Qed.

Lemma is_readable_snoc (ctrls : list Controller) ctl c :
  is_readable (ctrls ++ [ctl]) c
  ↔ is_readable ctrls c ∨ (c = length ctrls ∧ cstate ctl = Readable).
Proof.
  unfold is_readable. split.
  - intros (x & [[_ Hx]|[-> <-]]%lookup_snoc_Some & R); eauto.
  - intros [(x & Hx & R)|[-> R]].
    + exists x. split; [|done]. by apply lookup_app_l_Some.
    + exists ctl. split; [|done]. by rewrite lookup_app_r, Nat.sub_diag.
Qed.

Lemma NoDup_set_add c s : NoDup s → NoDup (set_add c s).
Proof.
  intros Hs. unfold set_add. case_decide; [done|].
  apply NoDup_app. split_and!; [done| |apply NoDup_singleton].
  intros x Hx ->%list_elem_of_singleton. done.
Qed.

Lemma elem_of_set_add c c' s : c' ∈ set_add c s ↔ c' = c ∨ c' ∈ s.
Proof.
  unfold set_add. case_decide; [set_solver|].
  rewrite elem_of_app, list_elem_of_singleton. tauto.
Qed.

Lemma SubsInv_subscribe tid k w c w' :
  Life w → SubsInv w → subscribe tid k w = Some (c, w') → SubsInv w'.
Proof.
  intros HL [[Hnd Hin] Hrun Hset]. unfold subscribe. case_match; [|done].
  destruct (status (task w)) eqn:Hst; intros [= <- <-].
  - assert (pc w ≠ Settled) as Hp.
    { intros Hp. destruct (life_settled _ HL Hp) as [[? _]|[? _]]; congruence. }
    apply SubsInv_running; [done|]. split; [split|]; simpl.
    + by apply NoDup_set_add.
    + intros c [R|[-> _]]%is_readable_snoc; apply elem_of_set_add; auto.
    + apply Forall_app. split; [auto|]. apply Forall_singleton.
      split; [done|]. apply terminal_count_replay.
  - assert (pc w = Settled) as Hp.
    { destruct (settled_or_not (pc w)) as [|Hn]; [done|].
      destruct (life_running _ HL Hn) as [? _]. congruence. }
    destruct (Hset Hp) as [Hnil Hfin]. split; [split| |]; simpl; try done.
    + intros c [R|[_ ?]]%is_readable_snoc; [auto|done].
    + intros _. split; [done|]. apply Forall_app. split; [done|].
      apply Forall_singleton. left. split; [done|]. simpl.
      by rewrite terminal_count_app, terminal_count_replay.
  - assert (pc w = Settled) as Hp.
    { destruct (settled_or_not (pc w)) as [|Hn]; [done|].
      destruct (life_running _ HL Hn) as [? _]. congruence. }
    destruct (Hset Hp) as [Hnil Hfin]. split; [split| |]; simpl; try done.
    + intros c [R|[_ ?]]%is_readable_snoc; [auto|done].
    + intros _. split; [done|]. apply Forall_app. split; [done|].
      apply Forall_singleton. left. split; [done|]. simpl.
      by rewrite terminal_count_app, terminal_count_replay.
Qed.

Lemma SubsInv_cancel c w : SubsInv w → SubsInv (cancel c w).
Proof.
  intros HS. pose proof HS as [[Hnd Hin] Hrun Hset]. unfold cancel.
  destruct (controllers w !! c) as [ctl|] eqn:E; [|done].
  destruct (cstate ctl) eqn:S; try done.
  assert (pc w ≠ Settled) as Hp.
  { intros Hp. destruct (Hset Hp) as [_ Hfin].
    eapply Forall_lookup_1 in Hfin as [[? _]|[? _]]; [| |exact E]; congruence. }
  apply SubsInv_running; [done|]. split; [split|]; simpl; [done| |].
  - intros c' (x & Hx & R). apply Hin.
    destruct (decide (c = c')) as [<-|Hne].
    + rewrite list_lookup_insert_eq in Hx by (by eapply lookup_lt_Some).
      by simplify_eq.
    + rewrite list_lookup_insert_ne in Hx by done. by exists x.
  - apply Forall_insert; [auto|].
    eapply Forall_lookup_1 in Hrun as [_ Ht]; [|done|exact E]. by split.
Qed.

Lemma SubsInv_heartbeat w : SubsInv w → SubsInv (heartbeat w).
Proof.
  intros HS. pose proof HS as [Ha Hrun Hset]. unfold heartbeat.
  case_match; [|done].
  assert (controllers (with_controllers
            (beat_each (subscribers (task w)) (controllers w)) w)
          = deliver KeepAlive <$> controllers w) as Hc
    by (simpl; by apply beat_controllers).
  split.
  - destruct Ha as [Hnd Hin]. split; [done|]. intros c. rewrite Hc.
    rewrite is_readable_fmap by apply cstate_deliver. apply Hin.
  - intros Hp. rewrite Hc. apply Forall_fmap.
    eapply Forall_impl; [by apply Hrun|]. intros ctl. by apply live_deliver.
  - intros Hp. destruct (Hset Hp) as [Hnil Hfin]. split; [done|].
    rewrite Hc. apply Forall_fmap.
    eapply Forall_impl; [exact Hfin|]. intros ctl Hf. simpl.
    by rewrite finished_deliver.
Qed.

Lemma SubsInv_fields w w' :
  broker_fields w' = broker_fields w → pc w' = pc w → SubsInv w → SubsInv w'.
Proof.
  unfold broker_fields, attached. intros [= Hc Hs] Hp [Ha Hrun Hset].
  split; unfold attached; rewrite ?Hc, ?Hs, ?Hp; done.
Qed.

Section Subscribers.

Variable mc : string → option string.

Lemma process_line_quiet st line : quiet st.1.1 → quiet (process_line mc st line).1.1.
Proof.
  destruct st as [[w ft] ci]. unfold process_line. simpl. intros Hq.
  repeat case_match; try done. simpl.
  apply quiet_notify; [done|]. by eapply quiet_fields.
Qed.

Lemma fold_process_quiet lines : ∀ st,
  quiet st.1.1 → quiet (fold_left (process_line mc) lines st).1.1.
Proof.
  induction lines as [|line lines IH]; intros st Hq; simpl; [done|].
  by apply IH, process_line_quiet.
Qed.

Lemma SubsInv_step w a : Life w → SubsInv w → SubsInv (step mc w a).
Proof.
  intros HL HS.
  assert (pc w ≠ Settled → quiet w) as Hq.
  { intros Hp. split; [apply HS|by apply HS]. }
  destruct a as [r|r|r|env|tid k|tid from|c| |ms| ]; simpl.
  - unfold on_fetch. destruct (pc w) eqn:Hpc; try done.
    specialize (Hq ltac:(done)).
    destruct r as [msg|st [t|msg]|]; try by apply SubsInv_throw.
    case_match; by apply SubsInv_running.
  - unfold on_read. destruct (pc w) eqn:Hpc; try done.
    specialize (Hq ltac:(done)).
    destruct r as [value| |msg].
    + pose proof (fold_process_quiet
                    (removelast (Str.split Str.newline (buffer +:+ value)))
                    (w, fullText, chunkIndex) Hq) as Hq'.
      destruct (fold_left _ _ _) as [[wf ft] ci] eqn:E.
      by apply SubsInv_running.
    + pose proof (process_line_quiet (w, fullText, chunkIndex) buffer Hq) as Hq'.
      destruct (process_line _ _ _) as [[wl ft] ci] eqn:E.
      apply SubsInv_after_loop. by eapply quiet_fields.
    + by apply SubsInv_throw.
  - unfold on_json. destruct (pc w) eqn:Hpc; try done.
    specialize (Hq ltac:(done)).
    destruct r as [msg|content [|tool rest]].
    + by apply SubsInv_throw.
    + apply SubsInv_after_loop. apply quiet_notify; [done|]. by eapply quiet_fields.
    + apply SubsInv_begin_tool. by eapply quiet_fields.
  - unfold on_tool. destruct (pc w) eqn:Hpc; try done.
    specialize (Hq ltac:(done)).
    destruct (executeTool _ _ _) as [result|msg]; [|by apply SubsInv_throw].
    destruct rest as [|next rest].
    + apply SubsInv_loop. by eapply quiet_fields.
    + apply SubsInv_begin_tool. by eapply quiet_fields.
  - destruct (subscribe tid k w) as [[c w']|] eqn:E; [|done].
    by eapply SubsInv_subscribe.
  - destruct (handleTaskStream tid from w) as [[c w']|] eqn:E; [|done].
    by eapply SubsInv_subscribe.
  - by apply SubsInv_cancel.
  - by apply SubsInv_heartbeat.
  - by apply (SubsInv_fields w).
  - unfold fire_timers. case_match; [done|]. by apply (SubsInv_fields w).
Qed.

End Subscribers.

(** ** The protocol with the engine and the tools *)

Lemma ProtoInv_fields w w' : proto_fields w' = proto_fields w → ProtoInv w → ProtoInv w'.
Proof.
  unfold proto_fields, ProtoInv, kinds, plain_plan, tool_plan, has_tools, offered.
  intros [= Hm Hp Hc Hs Hd Hst]. by rewrite Hm, Hp, Hc, Hs, Hd, Hst.
Qed.

Lemma outside_broker_proto w w' :
  outside_broker w' = outside_broker w → proto_fields w' = proto_fields w.
Proof.
  unfold outside_broker, outside_stream, proto_fields. intros Ho.
  simplify_eq. congruence.
Qed.

Lemma outside_stream_proto w w' :
  outside_stream w' = outside_stream w → proto_fields w' = proto_fields w.
Proof.
  unfold outside_stream, proto_fields. intros Ho. simplify_eq. congruence.
Qed.

Lemma requested_tool_message ms result :
  requested (ms ++ [ToolMessage result]) = requested ms.
Proof. induction ms as [|[] ms IH]; simpl; auto. Qed.

Lemma requested_first ms content tcs :
  requested ms = None →
  requested (ms ++ [AssistantToolCalls content tcs]) = Some (content, tcs).
Proof. induction ms as [|[] ms IH]; simpl; auto. done. Qed.

Lemma requested_plain (h : list (string * string)) :
  requested (map (λ m, Plain m.1 m.2) h) = None.
Proof. induction h as [|m h IH]; simpl; auto. Qed.

Lemma settles_throw msg w : settles w (throw msg w) ∧ status (task (throw msg w)) = Error.
Proof. by repeat split. Qed.

Lemma settles_after_loop w : settles w (after_loop w).
Proof.
  unfold after_loop, db_addMessage. simpl.
  destruct (Str.truthy (fullResponse (task w))); [destruct (db_fault w) as [[?|?]|]|];
    by repeat split.
Qed.

Lemma ProtoInv_settles_plain w w' :
  settles w w' → requested (messages w) = None → kinds w = plain_plan w → ProtoInv w'.
Proof.
  intros (Hp & Hm & Hc & Hs & Hd) Hreq Hk.
  unfold ProtoInv, kinds, plain_plan, has_tools, offered in *.
  by rewrite Hm, Hreq, Hp, Hc, Hs, Hd.
Qed.

Lemma ProtoInv_settles_tools w w' content tcs :
  settles w w' → requested (messages w) = Some (content, tcs) →
  has_tools w = true → tcs ≠ [] →
  kinds w `prefix_of` tool_plan w tcs →
  (status (task w') = Completed → kinds w = tool_plan w tcs) →
  ProtoInv w'.
Proof.
  intros (Hp & Hm & Hc & Hs & Hd) Hreq Hh Hne Hpre Hfull.
  unfold ProtoInv, kinds, tool_plan, has_tools, offered in *.
  by rewrite Hm, Hreq, Hp, Hc, Hs, Hd.
Qed.

Lemma tool_plan_serving w served t rest :
  KEngine false (Some (offered w)) :: map KTool (served ++ [t])
  `prefix_of` tool_plan w (served ++ t :: rest).
Proof.
  exists (map KTool rest ++ [KEngine true None]). unfold tool_plan.
  rewrite !map_app. simpl. by rewrite <- !app_assoc.
Qed.

Lemma ProtoInv_begin_tool w content tcs served tool rest :
  requested (messages w) = Some (content, tcs) →
  has_tools w = true → tcs ≠ [] →
  tcs = served ++ tool :: rest →
  kinds w = KEngine false (Some (offered w)) :: map KTool served →
  ProtoInv (begin_tool 1 tool rest w).
Proof.
  intros Hreq Hh Hne Htcs Hk. unfold ProtoInv. simpl. rewrite Hreq.
  split_and!; try done. exists served. split; [done|].
  unfold kinds in *. simpl. rewrite map_app, Hk, map_app. done.
Qed.

Section Protocol.

Variable mc : string → option string.

Lemma ProtoInv_step w a : ProtoInv w → ProtoInv (step mc w a).
Proof.
  intros HP.
  assert (∀ w', proto_fields w' = proto_fields w → ProtoInv w') as Hframe
    by (intros w' Ho; by apply (ProtoInv_fields w)).
  destruct a as [r|r|r|env|tid k|tid from|c| |ms| ]; simpl.
  - unfold on_fetch. destruct (pc w) eqn:Hpc; try done.
    unfold ProtoInv in HP. rewrite Hpc in HP.
    destruct (requested (messages w)) as [[content tcs]|] eqn:Hreq.
    + destruct HP as (Hh & Hne & -> & -> & Hk).
      destruct r as [msg|st [t|msg]|];
        try (eapply ProtoInv_settles_tools;
             [apply settles_throw|done|done|done|by rewrite Hk|done]).
      unfold ProtoInv. simpl. by rewrite Hreq.
    + destruct HP as (Hk & -> & ->).
      destruct r as [msg|st [t|msg]|];
        try (eapply ProtoInv_settles_plain; [apply settles_throw|done|done]).
      destruct (has_tools w) eqn:Hh; unfold ProtoInv; simpl; by rewrite Hreq.
  - unfold on_read. destruct (pc w) eqn:Hpc; try done.
    destruct r as [value| |msg].
    + pose proof (fold_process_outside mc
                    (removelast (Str.split Str.newline (buffer +:+ value)))
                    (w, fullText, chunkIndex)) as Ho.
      destruct (fold_left _ _ _) as [[wf ft] ci] eqn:E. simpl in Ho.
      apply outside_stream_proto in Ho.
      apply (ProtoInv_fields (with_pc (AwaitRead iteration ft ci
               (default "" (last (Str.split Str.newline (buffer +:+ value))))) w)).
      * unfold proto_fields in *. simpl. simplify_eq. congruence.
      * unfold ProtoInv in *. simpl. rewrite Hpc in HP.
        by destruct (requested (messages w)) as [[content tcs]|].
    + pose proof (process_line_outside mc (w, fullText, chunkIndex) buffer) as Ho.
      destruct (process_line _ _ _) as [[wl ft] ci] eqn:E. simpl in Ho.
      apply outside_stream_proto in Ho.
      assert (settles w (after_loop (append_fullResponse ft wl))) as Hs.
      { destruct (settles_after_loop (append_fullResponse ft wl))
          as (? & ? & ? & ? & ?).
        unfold proto_fields in Ho. simplify_eq. unfold settles. simpl in *.
        split_and!; congruence. }
      unfold ProtoInv in HP. rewrite Hpc in HP.
      destruct (requested (messages w)) as [[content tcs]|] eqn:Hreq.
      * destruct HP as (Hh & Hne & -> & Hk).
        eapply ProtoInv_settles_tools; [exact Hs|done|done|done|by rewrite Hk|done].
      * destruct HP as (Hk & -> & Hh).
        eapply ProtoInv_settles_plain; [exact Hs|done|done].
    + unfold ProtoInv in HP. rewrite Hpc in HP.
      destruct (requested (messages w)) as [[content tcs]|] eqn:Hreq.
      * destruct HP as (Hh & Hne & -> & Hk).
        eapply ProtoInv_settles_tools;
          [apply settles_throw|done|done|done|by rewrite Hk|done].
      * destruct HP as (Hk & -> & Hh).
        eapply ProtoInv_settles_plain; [apply settles_throw|done|done].
  - unfold on_json. destruct (pc w) eqn:Hpc; try done.
    unfold ProtoInv in HP. rewrite Hpc in HP.
    destruct (requested (messages w)) as [[content' tcs]|] eqn:Hreq;
      [by destruct HP as (_ & _ & [])|].
    destruct HP as (Hk & -> & Hh).
    destruct r as [msg|content [|tool rest]].
    + eapply ProtoInv_settles_plain; [apply settles_throw|done|done].
    + eapply ProtoInv_settles_plain; [|done|done].
      match goal with
      | |- settles _ (after_loop ?w1) =>
          destruct (settles_after_loop w1) as (? & ? & ? & ? & ?)
      end.
      by repeat split.
    + eapply (ProtoInv_begin_tool _ content (tool :: rest) []); try done.
      * simpl. by apply requested_first.
      * unfold kinds, plain_plan in *. simpl. by rewrite Hk, Hh.
  - unfold on_tool. destruct (pc w) eqn:Hpc; try done.
    unfold ProtoInv in HP. rewrite Hpc in HP.
    destruct (requested (messages w)) as [[content tcs]|] eqn:Hreq;
      [|by destruct HP as (_ & [])].
    destruct HP as (Hh & Hne & -> & served & -> & Hk).
    destruct (executeTool _ _ _) as [result|msg].
    + destruct rest as [|next rest].
      * unfold ProtoInv, loop. simpl.
        rewrite requested_tool_message, Hreq.
        unfold has_tools, offered in *. simpl. rewrite Hh. simpl.
        split_and!; try done.
        unfold kinds, tool_plan in *. simpl. rewrite map_app, Hk. done.
      * eapply (ProtoInv_begin_tool _ content _ (served ++ [tool])); try done.
        -- simpl. by rewrite requested_tool_message.
        -- by rewrite <- app_assoc.
    + eapply ProtoInv_settles_tools; [apply settles_throw|done|done|done| |done].
      rewrite Hk. apply tool_plan_serving.
  - destruct (subscribe tid k w) as [[c w']|] eqn:E; [|done].
    eapply Hframe, outside_broker_proto, subscribe_outside, E.
  - destruct (handleTaskStream tid from w) as [[c w']|] eqn:E; [|done].
    eapply Hframe, outside_broker_proto, subscribe_outside, E.
  - apply Hframe, outside_broker_proto, cancel_outside.
  - apply Hframe, outside_broker_proto, heartbeat_outside.
  - by apply Hframe.
  - apply Hframe. unfold fire_timers. by case_match.
Qed.

End Protocol.

(** ** Reachable worlds *)

Lemma Inv_start s : Inv (startTask s).
Proof.
  split.
  - split; [|done]. intros _. by repeat split.
  - split; simpl; try done. by exists "".
  - apply SubsInv_running; [done|]. split; [|constructor].
    split; [constructor|]. intros c (ctl & Hc & _). simpl in Hc.
    by rewrite lookup_nil in Hc.
  - unfold ProtoInv. simpl. rewrite requested_plain.
    unfold kinds, plain_plan, has_tools, offered. simpl.
    by destruct (start_search s), (start_code s).
Qed.

Section Reachable.

Variable mc : string → option string.

Lemma Inv_step w a : Inv w → Inv (step mc w a).
Proof.
  intros [HL HT HS HP]. split.
  - by apply Life_step.
  - by apply TextInv_step.
  - by apply SubsInv_step.
  - by apply ProtoInv_step.
Qed.

Lemma Inv_run acts : ∀ w, Inv w → Inv (run mc w acts).
Proof.
  induction acts as [|a acts IH]; intros w Hw; simpl; [done|].
  by apply IH, Inv_step.
Qed.

Lemma Inv_reachable s acts : Inv (run mc (startTask s) acts).
Proof. apply Inv_run, Inv_start. Qed.

(** Once the runner has settled, no turn touches the task again. *)
Lemma settled_step w a : pc w = Settled → text_fields (step mc w a) = text_fields w.
Proof.
  intros Hp. destruct a as [r|r|r|env|tid k|tid from|c| |ms| ]; simpl.
  - unfold on_fetch. by rewrite Hp.
  - unfold on_read. by rewrite Hp.
  - unfold on_json. by rewrite Hp.
  - unfold on_tool. by rewrite Hp.
  - destruct (subscribe tid k w) as [[c w']|] eqn:E; [|done].
    eapply outside_broker_text, subscribe_outside, E.
  - destruct (handleTaskStream tid from w) as [[c w']|] eqn:E; [|done].
    eapply outside_broker_text, subscribe_outside, E.
  - apply outside_broker_text, cancel_outside.
  - apply outside_broker_text, heartbeat_outside.
  - done.
  - unfold fire_timers. by case_match.
Qed.

Lemma settled_run acts : ∀ w,
  pc w = Settled → text_fields (run mc w acts) = text_fields w.
Proof.
  induction acts as [|a acts IH]; intros w Hp; simpl; [done|].
  pose proof (settled_step w a Hp) as Hs. rewrite IH; [done|].
  unfold text_fields in Hs. simplify_eq. congruence.
Qed.

Lemma running_not_settled w : Life w → status (task w) = Running ↔ pc w ≠ Settled.
Proof.
  intros HL. split.
  - intros Hs Hp. destruct (life_settled _ HL Hp) as [[? _]|[? _]]; congruence.
  - intros Hp. by destruct (life_running _ HL Hp).
Qed.

End Reachable.

(** ** Replay *)

Lemma filter_from_offset k : ∀ cs off,
  (∀ i ch, cs !! i = Some ch → index ch = Z.of_nat (off + i)) →
  List.filter (λ ch, js_ge (index ch) (Num (Z.of_nat k))) cs = drop (k - off) cs.
Proof.
  induction cs as [|ch cs IH]; intros off Hidx; [by rewrite drop_nil|].
  pose proof (Hidx 0%nat ch eq_refl) as Hch. rewrite Nat.add_0_r in Hch.
  assert (List.filter (λ ch, js_ge (index ch) (Num (Z.of_nat k))) cs
          = drop (k - S off) cs) as Hrest.
  { apply IH. intros i ch' Hi. rewrite (Hidx (S i) ch' Hi). f_equal. lia. }
  cbn [List.filter]. rewrite Hrest. unfold js_ge. rewrite Hch.
  destruct (Z.of_nat k <=? Z.of_nat off) eqn:Hle.
  - apply Z.leb_le in Hle.
    replace (k - off)%nat with 0%nat by lia.
    replace (k - S off)%nat with 0%nat by lia. done.
  - apply Z.leb_gt in Hle.
    replace (k - off)%nat with (S (k - S off)) by lia. done.
Qed.

Lemma filter_from k cs :
  indexed cs →
  List.filter (λ ch, js_ge (index ch) (Num (Z.of_nat k))) cs = drop k cs.
Proof.
  intros Hi. rewrite (filter_from_offset k cs 0) by (intros; by apply Hi).
  by rewrite Nat.sub_0_r.
Qed.

Lemma filter_NaN cs : List.filter (λ ch, js_ge (index ch) NaN) cs = [].
Proof. by induction cs. Qed.

Lemma indexed_drop k cs :
  indexed cs →
  map index (drop k cs) = map Z.of_nat (seq k (length cs - k)).
Proof.
  intros Hi. apply list_eq. intros i.
  rewrite !list_lookup_fmap, lookup_drop.
  destruct (cs !! (k + i)%nat) as [ch|] eqn:E; simpl.
  - pose proof (lookup_lt_Some _ _ _ E) as Hlt.
    rewrite lookup_seq_lt by lia. simpl. by rewrite (Hi _ _ E).
  - apply lookup_ge_None in E. rewrite lookup_seq_ge by lia. done.
Qed.

(** What [subscribe] answers on a registered task. *)
Lemma subscribe_registered k w :
  registered w = true →
  let missed := List.filter (λ ch, js_ge (index ch) k) (chunks (task w)) in
  ∃ w', subscribe (taskId (task w)) k w = Some (length (controllers w), w')
    ∧ controllers w'
      = controllers w
          ++ [{| queue := map chunk_frame missed ++ terminal_frames (task w);
                 cstate := match status (task w) with
                           | Running => Readable
                           | _ => Closed
                           end |}]
    ∧ (status (task w) = Running →
       length (controllers w) ∈ subscribers (task w')).
Proof.
  intros Hr. unfold subscribe, terminal_frames. rewrite Hr, String.eqb_refl. simpl.
  destruct (status (task w)); eexists; split_and!; try done; simpl.
  - by rewrite app_nil_r.
  - intros _. apply elem_of_set_add. by left.
Qed.

(** ** Status queries *)

(** What a status query shows as [fullResponse] is the concatenation of
    the fragments: the field is hidden until the task is completed. *)
Lemma status_reply_text mc s acts tid reply text :
  let w := run mc (startTask s) acts in
  handleTaskStatus tid w = Some reply →
  reply_fullResponse reply = Some text →
  text = chunk_text w ∧ reply_chunkCount reply = length (chunks (task w)).
Proof.
  intros w Hr Ht. unfold handleTaskStatus, getTaskStatus in Hr.
  destruct (registered w && _); [|done]. injection Hr as <-. simpl in *.
  destruct (status (task w)) eqn:Hs; try done. injection Ht as <-.
  split; [|done]. symmetry.
  by apply (text_completed _ (inv_text _ (Inv_reachable mc s acts))).
Qed.

(** * The claims *)

(** C1, as stated, fails between two reads of a stream: the task of
    [hello_mid] is running, holds the fragment Hel with index 0, and its
    [fullResponse] is still empty. *)
Lemma fullResponse_lags_mid_stream :
  status (task hello_mid) = Running
  ∧ chunks (task hello_mid) = [{| content := "Hel"; index := 0 |}]
  ∧ fullResponse (task hello_mid) = ""
  ∧ chunk_text hello_mid ≠ fullResponse (task hello_mid).
Proof. vm_compute. by repeat split. Qed.

(** C1 (amended): at every turn of every task the fragments carry the
    indices 0, 1, 2, ... in order and [fullResponse] is a prefix of their
    concatenation; while the task runs, what is missing is exactly the
    text that the [streamFromOllama] call in progress has produced so far
    (nothing outside a stream), and once the task is completed the two
    are equal. *)
Theorem fullResponse_prefix_of_fragments mc s acts :
  let w := run mc (startTask s) acts in
  indexed (chunks (task w))
  ∧ (status (task w) = Running →
     chunk_text w = fullResponse (task w) +:+ streamed (pc w))
  ∧ (status (task w) = Completed → chunk_text w = fullResponse (task w))
  ∧ ∃ rest, chunk_text w = fullResponse (task w) +:+ rest.
Proof.
  intros w. destruct (Inv_reachable mc s acts) as [HL HT _ _]. fold w in HL, HT.
  split_and!; try apply HT.
  intros Hs. apply HT. by apply running_not_settled.
Qed.

Lemma fullResponse_prefix_of_fragments_witness :
  status (task hello_mid) = Running
  ∧ chunk_text hello_mid = fullResponse (task hello_mid) +:+ streamed (pc hello_mid).
Proof.
  split; [by vm_compute|].
  destruct (fullResponse_prefix_of_fragments Sample.message_content demo
              hello_mid_acts) as (_ & H & _).
  apply H. by vm_compute.
Defined.

(** C2: a subscriber that asks for the fragments from index [k] of a
    registered task is sent, inside the [subscribe] call and on a new
    stream of its own, one chunk event for every stored fragment from
    position [k] on, with the text and the index of that fragment, in
    the order of the indices k, k+1, ..., n-1, each once; then the
    terminal event when the task has ended, and nothing else. *)
Theorem subscribe_replays_from_index mc s acts (k : nat) :
  let w := run mc (startTask s) acts in
  let n := length (chunks (task w)) in
  registered w = true →
  ∃ w' ctl,
    subscribe (taskId (task w)) (Num (Z.of_nat k)) w
    = Some (length (controllers w), w')
    ∧ controllers w' = controllers w ++ [ctl]
    ∧ controllers w' !! length (controllers w) = Some ctl
    ∧ queue ctl
      = map (λ ch, Data (DataChunk (content ch) (index ch))) (drop k (chunks (task w)))
        ++ match status (task w) with
           | Running => []
           | Completed => [Data DataDone]
           | Error => [Data (DataError (error (task w)))]
           end
    ∧ map index (drop k (chunks (task w))) = map Z.of_nat (seq k (n - k))
    ∧ (∀ i, (i < n - k)%nat →
         ∃ text,
           chunks (task w) !! (k + i)%nat
           = Some {| content := text; index := Z.of_nat (k + i) |}
           ∧ queue ctl !! i = Some (Data (DataChunk text (Z.of_nat (k + i)))))
    ∧ length (queue ctl)
      = ((n - k) + match status (task w) with Running => 0 | _ => 1 end)%nat.
Proof.
  intros w n Hr. destruct (Inv_reachable mc s acts) as [_ HT _ _]. fold w in HT.
  destruct (subscribe_registered (Num (Z.of_nat k)) w Hr) as (w' & Hsub & Hc & _).
  rewrite (filter_from k _ (text_index _ HT)) in Hc.
  unfold terminal_frames in Hc.
  change (map chunk_frame (drop k (chunks (task w))))
    with (map (λ ch, Data (DataChunk (content ch) (index ch)))
            (drop k (chunks (task w)))) in Hc.
  set (replay := map (λ ch, Data (DataChunk (content ch) (index ch)))
                   (drop k (chunks (task w)))) in *.
  assert (length replay = (n - k)%nat) as Hlen
    by (unfold replay; by rewrite length_map, length_drop).
  eexists w', _. split_and!; [exact Hsub|exact Hc| | | | |].
  - rewrite Hc. by rewrite lookup_app_r, Nat.sub_diag.
  - reflexivity.
  - apply indexed_drop, HT.
  - intros i Hi. cbn [queue].
    destruct (lookup_lt_is_Some_2 (chunks (task w)) (k + i)) as [ch Hch];
      [unfold n in Hi; lia|].
    pose proof (text_index _ HT _ _ Hch) as Hidx.
    exists (content ch). split.
    + rewrite Hch. f_equal. destruct ch. simpl in *. by rewrite Hidx.
    + rewrite lookup_app_l by lia.
      unfold replay. rewrite list_lookup_fmap, lookup_drop, Hch. simpl.
      by rewrite Hidx.
  - cbn [queue]. rewrite length_app, Hlen. f_equal.
    by destruct (status (task w)).
Qed.

Lemma subscribe_replays_from_index_witness :
  registered hello_done = true
  ∧ chunks (task hello_done)
    = [{| content := "Hel"; index := 0 |}; {| content := "lo"; index := 1 |}]
  ∧ ∃ w' ctl,
      subscribe "task-1" (Num 1) hello_done = Some (1%nat, w')
      ∧ controllers w' !! 1%nat = Some ctl
      ∧ queue ctl = [Data (DataChunk "lo" 1); Data DataDone].
Proof.
  split; [by vm_compute|]. split; [by vm_compute|].
  destruct (subscribe_replays_from_index Sample.message_content demo hello_done_acts 1)
    as (w' & ctl & Hs & _ & Hc & Hq & _); [by vm_compute|].
  exists w', ctl. split_and!; [exact Hs|exact Hc|].
  rewrite Hq. by vm_compute.
Defined.



(** ** Failure of the engine *)

Lemma settle_controllers d w :
  attached w →
  controllers (closeSubscribers (notifySubscribers d w))
  = (λ ctl, shut (deliver (Data d) ctl)) <$> controllers w.
Proof.
  intros Ha.
  rewrite close_controllers, notify_controllers by (done || by apply notify_attached).
  by rewrite <- list_fmap_compose.
Qed.

Lemma throw_controllers msg w :
  attached w →
  controllers (throw msg w)
  = (λ ctl, shut (deliver (Data (DataError (Some msg))) ctl)) <$> controllers w.
Proof. intros Ha. by rewrite <- settle_controllers. Qed.

Lemma settled_rows_step mc w a :
  pc w = Settled → db_writes (step mc w a) = db_writes w.
Proof.
  intros Hp.
  assert (∀ w', outside_broker w' = outside_broker w → db_writes w' = db_writes w)
    as Hframe.
  { intros w' Ho. unfold outside_broker, outside_stream in Ho. by simplify_eq. }
  destruct a as [r|r|r|env|tid k|tid from|c| |ms| ]; simpl.
  - unfold on_fetch. by rewrite Hp.
  - unfold on_read. by rewrite Hp.
  - unfold on_json. by rewrite Hp.
  - unfold on_tool. by rewrite Hp.
  - destruct (subscribe tid k w) as [[c w']|] eqn:E; [|done].
    eapply Hframe, subscribe_outside, E.
  - destruct (handleTaskStream tid from w) as [[c w']|] eqn:E; [|done].
    eapply Hframe, subscribe_outside, E.
  - apply Hframe, cancel_outside.
  - apply Hframe, heartbeat_outside.
  - done.
  - unfold fire_timers. by case_match.
Qed.

Lemma settled_rows_run mc acts : ∀ w,
  pc w = Settled → db_writes (run mc w acts) = db_writes w.
Proof.
  induction acts as [|a acts IH]; intros w Hp; simpl; [done|].
  rewrite IH; [by apply settled_rows_step|].
  pose proof (settled_step mc w a Hp) as Hs. unfold text_fields in Hs.
  simplify_eq. congruence.
Qed.

Lemma error_is_final mc w acts :
  Inv w → status (task w) = Error →
  status (task (run mc w acts)) = Error
  ∧ db_writes (run mc w acts) = db_writes w
  ∧ timers (run mc w acts) = [] ∧ registered (run mc w acts) = true.
Proof.
  intros Hw Hs.
  assert (pc w = Settled) as Hp.
  { destruct (settled_or_not (pc w)) as [|Hn]; [done|].
    apply (running_not_settled w (inv_life _ Hw)) in Hn. congruence. }
  pose proof (settled_run mc acts w Hp) as Hf.
  pose proof (inv_life _ (Inv_run mc acts w Hw)) as HL.
  unfold text_fields in Hf. injection Hf as Hpc Hst _ _.
  rewrite Hs in Hst. rewrite Hp in Hpc.
  split_and!; [done|by apply settled_rows_run|..];
    by destruct (life_settled _ HL Hpc) as [[? _]|(_ & _ & ? & ? & _)]; [congruence|].
Qed.

(** C6: when the first engine call of a task answers with a non-success
    status [code] and the body [errText], the task ends in the state
    [Error] with the message [Ollama error (code): errText]; every
    subscriber that can still be written to is sent that one error event
    and is closed, the subscriber set is emptied, and no row is ever
    written for the task. *)
Theorem http_failure_on_first_call mc s acts code errText stream :
  let w := run mc (startTask s) acts in
  let msg := "Ollama error (" +:+ Str.of_Z code +:+ "): " +:+ errText in
  let w' := step mc w (AFetch (NotOk code (Returns errText))) in
  pc w = AwaitFetch 1 stream →
  status (task w') = Error
  ∧ error (task w') = Some msg
  ∧ subscribers (task w') = []
  ∧ (∀ c ctl, controllers w !! c = Some ctl →
       controllers w' !! c
       = Some (if decide (cstate ctl = Readable)
               then {| queue := queue ctl ++ [Data (DataError (Some msg))];
                       cstate := Closed |}
               else ctl))
  ∧ (∀ ctl, ctl ∈ controllers w → terminal_count (queue ctl) = 0%nat)
  ∧ ∀ acts', db_writes (run mc w' acts') = [].
Proof.
  intros w msg w' Hpc. pose proof (Inv_reachable mc s acts) as Hw. fold w in Hw.
  assert (w' = throw msg w) as Hw'.
  { unfold w'. simpl. unfold on_fetch. by rewrite Hpc. }
  assert (pc w ≠ Settled) as Hn by congruence.
  split_and!; try by rewrite Hw'.
  - intros c ctl Hc. rewrite Hw', throw_controllers by apply Hw.
    rewrite list_lookup_fmap, Hc. simpl. f_equal.
    unfold shut, close, deliver, enqueue.
    case_decide as Hr; [by rewrite Hr|].
    destruct (cstate ctl) eqn:E; simpl; rewrite ?E; done.
  - intros ctl Hin. pose proof (subs_running _ (inv_subs _ Hw) Hn) as Hl.
    rewrite Forall_forall in Hl. by apply Hl.
  - intros acts'.
    destruct (error_is_final mc w' acts') as (_ & -> & _);
      [unfold w'; by apply Inv_step|by rewrite Hw'|].
    rewrite Hw'. by destruct (life_running _ (inv_life _ Hw) Hn) as (_ & _ & ? & _).
Qed.

Lemma http_failure_on_first_call_witness :
  let w := run Sample.message_content (startTask demo) [ASubscribe "task-1" (Num 0)] in
  let msg := "Ollama error (" +:+ Str.of_Z 500 +:+ "): " +:+ "model not found" in
  let w' := step Sample.message_content w
              (AFetch (NotOk 500 (Returns "model not found"))) in
  pc w = AwaitFetch 1 true
  ∧ status (task w') = Error
  ∧ error (task w') = Some msg
  ∧ controllers w'
    = [{| queue := [Data (DataError (Some "Ollama error (500): model not found"))];
          cstate := Closed |}]
  ∧ ∀ acts', db_writes (run Sample.message_content w' acts') = [].
Proof.
  intros w msg w'.
  destruct (http_failure_on_first_call Sample.message_content demo
              [ASubscribe "task-1" (Num 0)] 500 "model not found" true)
    as (H1 & H2 & _ & _ & _ & H6); [by vm_compute|].
  split_and!; [by vm_compute|exact H1|exact H2|by vm_compute|exact H6].
Defined.

(** ** Retention *)

(** A task that has ended in [Error] has no removal timer and stays in
    the registry in every later turn. *)
Lemma error_task_is_kept mc s acts :
  let w := run mc (startTask s) acts in
  status (task w) = Error →
  ∀ acts', timers (run mc w acts') = [] ∧ registered (run mc w acts') = true.
Proof.
  intros w Hs acts'.
  destruct (error_is_final mc w acts' (Inv_reachable mc s acts) Hs) as (_ & _ & ? & ?).
  done.
Qed.

(** A completed task holds one removal timer, due [retention_ms] after
    [completedAt], until the timer has fired; it leaves the registry no
    earlier than that. *)
Lemma completed_task_is_removed_later mc s acts :
  let w := run mc (startTask s) acts in
  status (task w) = Completed →
  ∃ t0, completedAt (task w) = Some t0
    ∧ ((registered w = true ∧ timers w = [t0 + retention_ms])
       ∨ (registered w = false ∧ timers w = [] ∧ t0 + retention_ms ≤ clock w)).
Proof.
  intros w Hs. pose proof (inv_life _ (Inv_reachable mc s acts)) as HL. fold w in HL.
  destruct (settled_or_not (pc w)) as [Hp|Hn].
  - destruct (life_settled _ HL Hp) as [(_ & _ & _ & _ & Ht)|[? _]];
      [done|congruence].
  - destruct (life_running _ HL Hn) as [? _]. congruence.
Qed.

(** C9 on the failing input: the task of [failed] has ended in [Error];
    no removal was scheduled, and ten minutes and a run of the timers
    later it is still registered, whereas the completed task of
    [hello_done] is gone after the same wait. *)
Theorem error_path_schedules_no_removal :
  status (task failed) = Error
  ∧ timers failed = []
  ∧ registered (run Sample.message_content failed [ATick 600000; ATimers]) = true
  ∧ timers hello_done = [1000 + retention_ms]
  ∧ registered (run Sample.message_content hello_done [ATick 600000; ATimers]) = false.
Proof. vm_compute. by repeat split. Qed.

(** ** Disconnecting *)

(** The [cancel] callback leaves the task and the subscriber set as they
    are: only the state of the stream changes. *)
Lemma cancel_changes_no_field c w :
  outside_broker (cancel c w) = outside_broker w
  ∧ subscribers (task (cancel c w)) = subscribers (task w).
Proof.
  split; [apply cancel_outside|]. unfold cancel. by repeat case_match.
Qed.

(** A cancelled subscriber of a running task is still in the set. *)
Lemma cancelled_sink_stays mc s acts c ctl :
  let w := run mc (startTask s) acts in
  controllers w !! c = Some ctl → cstate ctl = Readable →
  c ∈ subscribers (task (step mc w (ACancel c)))
  ∧ controllers (step mc w (ACancel c)) !! c
    = Some {| queue := queue ctl; cstate := Cancelled |}.
Proof.
  intros w Hc Hr. simpl.
  destruct (cancel_changes_no_field c w) as [_ ->]. split.
  - apply (inv_subs _ (Inv_reachable mc s acts)). by exists ctl.
  - unfold cancel. rewrite Hc, Hr. simpl.
    by rewrite list_lookup_insert_eq by (by eapply lookup_lt_Some).
Qed.

(** C8 on the failing input: the only subscriber of the running task of
    [joined] disconnects; its stream is cancelled, the task is untouched,
    and the controller is still a member of the subscriber set. *)
Theorem cancel_leaves_sink_in_set :
  subscribers (task joined) = [0%nat]
  ∧ controllers (step Sample.message_content joined (ACancel 0))
    = [{| queue := []; cstate := Cancelled |}]
  ∧ subscribers (task (step Sample.message_content joined (ACancel 0))) = [0%nat]
  ∧ outside_broker (step Sample.message_content joined (ACancel 0))
    = outside_broker joined.
Proof. vm_compute. by repeat split. Qed.

(** ** Terminal transitions *)

(** C5, as stated, fails when the persistence write throws: the status
    of [unsaved] was set to [Completed] and then to [Error]. *)
Lemma completed_overwritten_by_error :
  status_log unsaved = [Running; Completed; Error]
  ∧ status (task unsaved) = Error
  ∧ completedAt (task unsaved) = Some 1000
  ∧ error (task unsaved) = Some "database is locked".
Proof. vm_compute. by repeat split. Qed.

(** C5 (amended): a task whose persistence write does not throw leaves
    [Running] exactly once, for [Completed] or for [Error]; in every run,
    once the status is terminal neither it nor the fragments change in a
    later turn, no subscriber is ever sent a second terminal signal, and
    when the task has ended every subscriber that did not disconnect has
    been sent exactly one and is closed. *)
Theorem terminal_transition_once mc s acts :
  let w := run mc (startTask s) acts in
  (db_fault w = None →
   (status (task w) = Running ∧ status_log w = [Running])
   ∨ (status (task w) = Completed ∧ status_log w = [Running; Completed])
   ∨ (status (task w) = Error ∧ status_log w = [Running; Error]))
  ∧ (status (task w) ≠ Running →
     ∀ acts', status (task (run mc w acts')) = status (task w)
              ∧ chunks (task (run mc w acts')) = chunks (task w))
  ∧ (∀ ctl, ctl ∈ controllers w → (terminal_count (queue ctl) ≤ 1)%nat)
  ∧ (status (task w) ≠ Running →
     ∀ ctl, ctl ∈ controllers w → cstate ctl ≠ Cancelled →
       terminal_count (queue ctl) = 1%nat ∧ cstate ctl = Closed).
Proof.
  intros w. destruct (Inv_reachable mc s acts) as [HL _ HS _]. fold w in HL, HS.
  assert (status (task w) ≠ Running → pc w = Settled) as Hset.
  { intros Hs. destruct (settled_or_not (pc w)) as [|Hn]; [done|].
    by apply (running_not_settled w HL) in Hn. }
  split_and!.
  - intros Hdb. destruct (settled_or_not (pc w)) as [Hp|Hn].
    + destruct (life_settled _ HL Hp) as [(? & ? & _)|(? & _ & _ & _ & Hlog)];
        [by auto|].
      destruct Hlog as [[? _]|(_ & _ & [(msg & Hm & _)|(msg & Hm & _)])];
        [by auto|congruence..].
    + destruct (life_running _ HL Hn) as (? & ? & _). by auto.
  - intros Hs acts'. pose proof (settled_run mc acts' w (Hset Hs)) as Hf.
    unfold text_fields in Hf. by simplify_eq.
  - intros ctl Hin. destruct (settled_or_not (pc w)) as [Hp|Hn].
    + destruct (subs_settled _ HS Hp) as [_ Hfin]. rewrite Forall_forall in Hfin.
      destruct (Hfin ctl Hin) as [[_ ->]|[_ ->]]; lia.
    + pose proof (subs_running _ HS Hn) as Hl. rewrite Forall_forall in Hl.
      destruct (Hl ctl Hin) as [_ ->]. lia.
  - intros Hs ctl Hin Hc. destruct (subs_settled _ HS (Hset Hs)) as [_ Hfin].
    rewrite Forall_forall in Hfin. by destruct (Hfin ctl Hin) as [[? ?]|[? _]].
Qed.

Lemma terminal_transition_once_witness :
  db_fault hello_done = None
  ∧ ((status (task hello_done) = Running ∧ status_log hello_done = [Running])
     ∨ (status (task hello_done) = Completed
        ∧ status_log hello_done = [Running; Completed])
     ∨ (status (task hello_done) = Error ∧ status_log hello_done = [Running; Error])).
Proof.
  split; [by vm_compute|].
  destruct (terminal_transition_once Sample.message_content demo hello_done_acts)
    as (H & _).
  apply H. by vm_compute.
Defined.

(** ** Tool calls *)

Lemma begin_tool_broadcast iteration tool rest w :
  attached w →
  chunks (task (begin_tool iteration tool rest w)) = chunks (task w)
  ∧ controllers (begin_tool iteration tool rest w)
    = deliver (Data (DataChunk (tool_notice (funcName tool)) (-1))) <$> controllers w.
Proof.
  intros Ha. split; [done|].
  by rewrite <- (notify_controllers (DataChunk (tool_notice (funcName tool)) (-1)) w).
Qed.

(** C4, as stated, fails: in [calc_notice] the notice has reached the
    subscriber with index -1, the fragment sequence is still empty, and a
    subscriber that arrives now and asks for everything is replayed
    nothing. *)
Lemma tool_notice_is_not_stored :
  controllers calc_notice
  = [{| queue := [Data (DataChunk (tool_notice "execute_python") (-1))];
        cstate := Readable |}]
  ∧ chunks (task calc_notice) = []
  ∧ (from_option snd calc_notice (subscribe "task-2" (Num 0) calc_notice)).(controllers)
      !! 1%nat
    = Some {| queue := []; cstate := Readable |}.
Proof. vm_compute. by repeat split. Qed.

(** C4 (amended): for every tool invocation requested by the engine the
    notice is sent, as a chunk event with index -1, to every subscriber
    that can still be written to; it is not stored in the fragment
    sequence and takes no fragment index, so a later subscriber is not
    replayed it.  In the scenario of [calc_done] the subscriber attached
    from the start has observed exactly one notice, before the two
    streamed fragments with indices 0 and 1. *)
Theorem tool_notice_is_transient mc s acts :
  let w := run mc (startTask s) acts in
  let notice tool := Data (DataChunk (tool_notice (funcName tool)) (-1)) in
  (∀ it content tool rest,
     pc w = AwaitJson it →
     let w' := step mc w (AJson (JsonMessage content (tool :: rest))) in
     chunks (task w') = chunks (task w)
     ∧ controllers w' = deliver (notice tool) <$> controllers w)
  ∧ (∀ it tool next rest env,
       pc w = AwaitTool it tool (next :: rest) →
       let w' := step mc w (ATool env) in
       chunks (task w') = chunks (task w)
       ∧ controllers w' = deliver (notice next) <$> controllers w)
  ∧ controllers calc_done
    = [{| queue := [notice calc_call; Data (DataChunk "The answer is " 0);
                    Data (DataChunk "4" 1); Data DataDone];
          cstate := Closed |}]
  ∧ chunks (task calc_done)
    = [{| content := "The answer is "; index := 0 |}; {| content := "4"; index := 1 |}].
Proof.
  intros w notice. pose proof (inv_subs _ (Inv_reachable mc s acts)) as HS.
  fold w in HS. destruct HS as [Ha _ _]. split_and!.
  - intros it content tool rest Hpc w'. unfold w'. simpl. unfold on_json.
    rewrite Hpc.
    exact (begin_tool_broadcast it tool rest (with_messages _ w) Ha).
  - intros it tool next rest env Hpc w'. unfold w'. simpl. unfold on_tool.
    rewrite Hpc. destruct (executeTool_returns env (funcName tool) (funcArgs tool))
      as [text ->].
    exact (begin_tool_broadcast it next rest (with_messages _ w) Ha).
  - by vm_compute.
  - by vm_compute.
Qed.

Lemma tool_notice_is_transient_witness :
  let w := run Sample.message_content (startTask demo_tools)
             [ASubscribe "task-2" (Num 0); AFetch Ok] in
  let w' := step Sample.message_content w (AJson (JsonMessage "" [calc_call])) in
  pc w = AwaitJson 1
  ∧ chunks (task w') = chunks (task w)
  ∧ controllers w'
    = deliver (Data (DataChunk (tool_notice (funcName calc_call)) (-1)))
        <$> controllers w.
Proof.
  intros w w'. split; [by vm_compute|].
  destruct (tool_notice_is_transient Sample.message_content demo_tools
              [ASubscribe "task-2" (Num 0); AFetch Ok]) as (H & _).
  apply (H 1%nat "" calc_call []). by vm_compute.
Defined.

Lemma loop_streams it w :
  (1 ≤ it)%nat → (it < MAX_ITERATIONS)%nat →
  pc (loop it w) = AwaitFetch (S it) true
  ∧ calls (loop it w) = calls w ++ [EngineCall (messages w) true None]
  ∧ outside_broker (with_pc (pc w) (with_calls (calls w) (loop it w)))
    = outside_broker w.
Proof.
  intros H1 H5. unfold loop. apply Nat.ltb_lt in H5. rewrite H5.
  assert ((1 <? S it)%nat = true) as -> by (apply Nat.ltb_lt; lia).
  assert ((S it =? 1)%nat = false) as -> by (apply Nat.eqb_neq; lia).
  rewrite orb_true_r, andb_false_r. by destruct w.
Qed.

Lemma on_tool_next mc it tool next rest env w :
  pc w = AwaitTool it tool (next :: rest) →
  pc (step mc w (ATool env)) = AwaitTool it next rest
  ∧ calls (step mc w (ATool env)) = calls w ++ [ToolInvoke next]
  ∧ db_fault (step mc w (ATool env)) = db_fault w.
Proof.
  intros Hpc. simpl. unfold on_tool. rewrite Hpc.
  by destruct (executeTool_returns env (funcName tool) (funcArgs tool)) as [text ->].
Qed.

Lemma on_tool_last mc it tool env w :
  (1 ≤ it)%nat → (it < MAX_ITERATIONS)%nat →
  pc w = AwaitTool it tool [] →
  pc (step mc w (ATool env)) = AwaitFetch (S it) true
  ∧ calls (step mc w (ATool env))
    = calls w ++ [EngineCall (messages (step mc w (ATool env))) true None]
  ∧ db_fault (step mc w (ATool env)) = db_fault w.
Proof.
  intros H1 H5 Hpc. simpl. unfold on_tool. rewrite Hpc.
  destruct (executeTool_returns env (funcName tool) (funcArgs tool)) as [text ->].
  destruct (loop_streams it (with_messages (messages w ++ [ToolMessage text]) w) H1 H5)
    as (Hp & Hc & Ho).
  split_and!; [done| |].
  - rewrite Hc. simpl. do 3 f_equal. unfold loop.
    apply Nat.ltb_lt in H5. by rewrite H5.
  - unfold loop. apply Nat.ltb_lt in H5. by rewrite H5.
Qed.

(** The tools that are pending are served one after the other, then the
    streaming call is made. *)
Lemma run_tools mc it : ∀ rest envs w tool,
  (1 ≤ it)%nat → (it < MAX_ITERATIONS)%nat →
  pc w = AwaitTool it tool rest → length envs = S (length rest) →
  pc (run mc w (map ATool envs)) = AwaitFetch (S it) true
  ∧ kinds (run mc w (map ATool envs))
    = kinds w ++ map KTool rest ++ [KEngine true None]
  ∧ db_fault (run mc w (map ATool envs)) = db_fault w.
Proof.
  induction rest as [|next rest IH]; intros envs w tool H1 H5 Hpc Hlen.
  - destruct envs as [|env [|? ?]]; try done. simpl.
    destruct (on_tool_last mc it tool env w H1 H5 Hpc) as (Hp & Hc & Hd).
    simpl in Hp, Hc, Hd. split_and!; [done| |done].
    unfold kinds. rewrite Hc, map_app. done.
  - destruct envs as [|env envs]; [done|]. injection Hlen as Hlen.
    destruct (on_tool_next mc it tool next rest env w Hpc) as (Hp & Hc & Hd).
    cbn [map run fold_left].
    destruct (IH envs (step mc w (ATool env)) next H1 H5 Hp Hlen) as (Hp' & Hk & Hd').
    unfold run in *. split_and!; [done| |congruence].
    rewrite Hk. unfold kinds. rewrite Hc, map_app.
    simpl. by rewrite <- app_assoc.
Qed.

(** A read of a stream keeps the runner reading and makes no call. *)
Lemma on_read_value mc v w it ft ci buf :
  pc w = AwaitRead it ft ci buf →
  (∃ ft' ci' buf', pc (step mc w (ARead (ReadValue v))) = AwaitRead it ft' ci' buf')
  ∧ calls (step mc w (ARead (ReadValue v))) = calls w
  ∧ db_fault (step mc w (ARead (ReadValue v))) = db_fault w.
Proof.
  intros Hpc. simpl. unfold on_read. rewrite Hpc.
  pose proof (fold_process_outside mc
                (removelast (Str.split Str.newline (buf +:+ v))) (w, ft, ci)) as Ho.
  destruct (fold_left _ _ _) as [[wf ft'] ci']. simpl in Ho.
  unfold outside_stream in Ho. simpl.
  split_and!; [by eauto|by simplify_eq|by simplify_eq].
Qed.

Lemma run_reads mc values : ∀ w it ft ci buf,
  pc w = AwaitRead it ft ci buf →
  (∃ ft' ci' buf',
     pc (run mc w (map (λ v, ARead (ReadValue v)) values)) = AwaitRead it ft' ci' buf')
  ∧ calls (run mc w (map (λ v, ARead (ReadValue v)) values)) = calls w
  ∧ db_fault (run mc w (map (λ v, ARead (ReadValue v)) values)) = db_fault w.
Proof.
  induction values as [|v values IH]; intros w it ft ci buf Hpc; [by eauto 10|].
  destruct (on_read_value mc v w it ft ci buf Hpc)
    as ((ft' & ci' & buf' & Hp) & Hc & Hd).
  destruct (IH _ _ _ _ _ Hp) as (Hp' & Hc' & Hd').
  unfold run in *. cbn [map fold_left].
  split_and!; [done|congruence|congruence].
Qed.

(** The end of the stream settles the runner without a call; the task
    is completed unless the database fails. *)
Lemma on_read_done mc it ft ci buf w :
  pc w = AwaitRead it ft ci buf →
  pc (step mc w (ARead ReadDone)) = Settled
  ∧ calls (step mc w (ARead ReadDone)) = calls w
  ∧ (db_fault w = None → status (task (step mc w (ARead ReadDone))) = Completed).
Proof.
  intros Hpc. simpl. unfold on_read. rewrite Hpc.
  pose proof (process_line_outside mc (w, ft, ci) buf) as Ho.
  destruct (process_line _ _ _) as [[wl ft'] ci']. simpl in Ho.
  destruct (settles_after_loop (append_fullResponse ft' wl)) as (Hp & _ & Hc & _).
  unfold outside_stream in Ho. split_and!; [done|rewrite Hc; simpl; by simplify_eq|].
  intros Hdb. assert (db_fault wl = None) as Hdb' by (simplify_eq; congruence).
  unfold after_loop, db_addMessage. simpl. rewrite Hdb'.
  by destruct (Str.truthy (fullResponse (task wl) +:+ ft')).
Qed.

(** C3: a task with tools enabled makes its first engine call without
    streaming and offers the enabled tools; an answer to it that holds
    tool calls goes into the history and the first tool is invoked.
    Every answer of the gateway is followed by the invocation of the
    next requested tool, and the answer to the last one by one
    streaming engine call without tools; the end of that stream settles
    the task without a further call.  So the calls that leave the
    process are, at every turn, a prefix of: the first engine call, one
    gateway call per requested tool in the order requested, one
    streaming engine call; a completed task has made exactly these
    calls, and a task whose awaited operations all answer makes them
    all and ends. *)
Theorem tool_round_trip mc s acts content tcs :
  let w := run mc (startTask s) acts in
  (∀ it, pc w = AwaitJson it → tcs ≠ [] →
     it = 1%nat
     ∧ kinds w = [KEngine false (Some (offered w))]
     ∧ requested (messages (step mc w (AJson (JsonMessage content tcs))))
       = Some (content, tcs))
  ∧ (requested (messages w) = Some (content, tcs) →
     has_tools w = true
     ∧ tcs ≠ []
     ∧ kinds w `prefix_of` tool_plan w tcs
     ∧ (status (task w) = Completed → kinds w = tool_plan w tcs)
     ∧ (∀ it ft ci buf,
          pc w = AwaitRead it ft ci buf →
          let w' := step mc w (ARead ReadDone) in
          pc w' = Settled ∧ kinds w' = tool_plan w tcs))
  ∧ (∀ it tool rest, pc w = AwaitJson it → tcs = tool :: rest →
       let w' := step mc w (AJson (JsonMessage content tcs)) in
       pc w' = AwaitTool 1 tool rest
       ∧ calls w' = calls w ++ [ToolInvoke tool])
  ∧ (∀ it tool next rest env, pc w = AwaitTool it tool (next :: rest) →
       let w' := step mc w (ATool env) in
       pc w' = AwaitTool 1 next rest
       ∧ calls w' = calls w ++ [ToolInvoke next])
  ∧ (∀ it tool env, pc w = AwaitTool it tool [] →
       let w' := step mc w (ATool env) in
       pc w' = AwaitFetch 2 true
       ∧ calls w' = calls w ++ [EngineCall (messages w') true None])
  ∧ (∀ stream, pc w = AwaitFetch 2 stream →
       let w' := step mc w (AFetch Ok) in
       calls w' = calls w ∧ ∃ ci, pc w' = AwaitRead 2 "" ci "")
  ∧ (∀ it envs values, pc w = AwaitJson it → tcs ≠ [] →
       length envs = length tcs →
       let w' := run mc w
                   (AJson (JsonMessage content tcs)
                    :: map ATool envs
                    ++ AFetch Ok
                    :: map (λ v, ARead (ReadValue v)) values
                    ++ [ARead ReadDone]) in
       pc w' = Settled
       ∧ kinds w'
         = KEngine false (Some (activeTools (useSearch w) (useCode w)))
             :: map KTool tcs ++ [KEngine true None]
       ∧ (db_fault w = None → status (task w') = Completed)).
Proof.
  intros w. pose proof (inv_proto _ (Inv_reachable mc s acts)) as HP.
  fold w in HP. unfold ProtoInv in HP.
  assert (∀ it, pc w = AwaitJson it →
            it = 1%nat ∧ kinds w = [KEngine false (Some (offered w))]
            ∧ requested (messages w) = None) as Hjson.
  { intros it Hpc. rewrite Hpc in HP.
    destruct (requested (messages w)) as [[c' t']|] eqn:Hreq;
      [by destruct HP as (_ & _ & [])|].
    destruct HP as (Hk & -> & Hh). split_and!; [done| |done].
    rewrite Hk. unfold plain_plan. by rewrite Hh. }
  assert (∀ it tool rest, pc w = AwaitTool it tool rest → it = 1%nat) as Htool.
  { intros it tool rest Hpc. rewrite Hpc in HP.
    destruct (requested (messages w)) as [[c' t']|]; [|by destruct HP as [_ []]].
    by destruct HP as (_ & _ & -> & _). }
  assert (∀ it tool rest, pc w = AwaitJson it → tcs = tool :: rest →
            pc (step mc w (AJson (JsonMessage content tcs))) = AwaitTool 1 tool rest
            ∧ calls (step mc w (AJson (JsonMessage content tcs)))
              = calls w ++ [ToolInvoke tool]
            ∧ db_fault (step mc w (AJson (JsonMessage content tcs))) = db_fault w
            ∧ useSearch (step mc w (AJson (JsonMessage content tcs))) = useSearch w
            ∧ useCode (step mc w (AJson (JsonMessage content tcs))) = useCode w)
    as Hfirst.
  { intros it tool rest Hpc ->. destruct (Hjson it Hpc) as (-> & _).
    simpl. unfold on_json. by rewrite Hpc. }
  split_and!.
  - intros it Hpc Hne. destruct (Hjson it Hpc) as (-> & Hk & Hreq).
    split_and!; [done..|]. simpl. unfold on_json. rewrite Hpc.
    destruct tcs as [|tool rest]; [done|]. simpl. by apply requested_first.
  - intros Hreq. rewrite Hreq in HP.
    destruct HP as (Hh & Hne & HP). split_and!; try done.
    + destruct (pc w); try done.
      * destruct HP as (_ & _ & ->). done.
      * destruct HP as (_ & ->). done.
      * destruct HP as (_ & served & -> & ->). apply tool_plan_serving.
      * apply HP.
    + intros Hs. destruct (settled_or_not (pc w)) as [Hp|Hn].
      * rewrite Hp in HP. by apply HP.
      * apply (running_not_settled w (inv_life _ (Inv_reachable mc s acts))) in Hn.
        congruence.
    + intros it ft ci buf Hpc w'. rewrite Hpc in HP. destruct HP as (_ & Hk).
      destruct (on_read_done mc it ft ci buf w Hpc) as (Hp & Hc & _).
      split; [done|]. unfold w', kinds in *. by rewrite Hc.
  - intros it tool rest Hpc Htcs w'.
    by destruct (Hfirst it tool rest Hpc Htcs) as (? & ? & _).
  - intros it tool next rest env Hpc w'. rewrite (Htool _ _ _ Hpc) in Hpc.
    by destruct (on_tool_next mc 1 tool next rest env w Hpc) as (? & ? & _).
  - intros it tool env Hpc w'. rewrite (Htool _ _ _ Hpc) in Hpc.
    destruct (on_tool_last mc 1 tool env w) as (? & ? & _); try done.
    unfold MAX_ITERATIONS. lia.
  - intros stream Hpc w'. unfold w'. simpl. unfold on_fetch. rewrite Hpc.
    rewrite Hpc in HP.
    destruct (requested (messages w)) as [[c' t']|]; [|by destruct HP as (_ & ? & _)].
    destruct HP as (_ & _ & _ & -> & _). split; [done|]. by eexists.
  - intros it envs values Hpc Hne Hlen w'.
    destruct (Hjson it Hpc) as (-> & Hk & _).
    destruct tcs as [|tool rest]; [done|].
    destruct (Hfirst 1%nat tool rest Hpc eq_refl) as (Hp1 & Hc1 & Hd1 & _).
    unfold w'. cbn [run fold_left].
    change (fold_left (step mc) ?l ?x) with (run mc x l).
    set (w1 := step mc w (AJson (JsonMessage content (tool :: rest)))) in *.
    unfold run. rewrite fold_left_app. fold (run mc w1 (map ATool envs)).
    destruct (run_tools mc 1 rest envs w1 tool) as (Hp2 & Hk2 & Hd2);
      [done|unfold MAX_ITERATIONS; lia|done|done|].
    set (w2 := run mc w1 (map ATool envs)) in *.
    cbn [fold_left].
    assert (pc (step mc w2 (AFetch Ok))
            = AwaitRead 2 "" (Z.of_nat (length (chunks (task w2)))) ""
            ∧ calls (step mc w2 (AFetch Ok)) = calls w2
            ∧ db_fault (step mc w2 (AFetch Ok)) = db_fault w2) as (Hp3 & Hc3 & Hd3).
    { simpl. unfold on_fetch. by rewrite Hp2. }
    set (w3 := step mc w2 (AFetch Ok)) in *.
    rewrite fold_left_app.
    fold (run mc w3 (map (λ v, ARead (ReadValue v)) values)).
    destruct (run_reads mc values w3 _ _ _ _ Hp3)
      as ((ft' & ci' & buf' & Hp4) & Hc4 & Hd4).
    set (w4 := run mc w3 (map (λ v, ARead (ReadValue v)) values)) in *.
    cbn [fold_left].
    destruct (on_read_done mc _ _ _ _ w4 Hp4) as (Hp5 & Hc5 & Hs5).
    split_and!; [done| |].
    + unfold kinds in *. rewrite Hc5, Hc4, Hc3, Hk2, Hc1, map_app, Hk. done.
    + intros Hdb. apply Hs5. congruence.
Qed.

Lemma tool_round_trip_witness :
  let w := run Sample.message_content (startTask demo_tools) [AFetch Ok] in
  let w' := run Sample.message_content w
              (AJson (JsonMessage "" [calc_call; weather_call])
               :: map ATool [py4; py4]
               ++ AFetch Ok
               :: map (λ v, ARead (ReadValue v)) [Sample.line "4" +:+ Str.nl]
               ++ [ARead ReadDone]) in
  pc w = AwaitJson 1
  ∧ pc w' = Settled
  ∧ kinds w'
    = [KEngine false (Some ["execute_python"]); KTool calc_call; KTool weather_call;
       KEngine true None]
  ∧ status (task w') = Completed
  ∧ fullResponse (task w') = "4".
Proof.
  intros w w'.
  destruct (tool_round_trip Sample.message_content demo_tools [AFetch Ok]
              "" [calc_call; weather_call]) as (_ & _ & _ & _ & _ & _ & H).
  destruct (H 1%nat [py4; py4] [Sample.line "4" +:+ Str.nl]) as (H1 & H2 & H3);
    [by vm_compute|done|done|].
  split_and!; [by vm_compute|exact H1|etrans; [exact H2|by vm_compute]| |by vm_compute].
  apply H3. by vm_compute.
Defined.

(** ** The gateway boundary *)

(** C7, as stated, fails on its last part: an unknown tool name does not
    raise, it is answered as text, and the task of [weather_done] went on
    to its streamed answer and completed. *)
Lemma unknown_tool_is_answered_as_text :
  executeTool py4 "get_weather" (ArgsObject (Some "Jakarta") None)
  = Returns "Error: Unknown tool 'get_weather'"
  ∧ (¬ ∃ msg, executeTool py4 "get_weather" (ArgsObject (Some "Jakarta") None)
              = Throws msg)
  ∧ status (task weather_done) = Completed
  ∧ fullResponse (task weather_done) = "Sorry"
  ∧ ToolMessage "Error: Unknown tool 'get_weather'" ∈ messages weather_done.
Proof.
  split_and!; try by vm_compute.
  - by intros [msg Hm].
  - vm_compute. set_solver.
Qed.

(** C7 (amended): [executeTool] never raises.  A timeout of the sandbox,
    missing arguments, a failing search and an unknown tool name are all
    answered as result text; the task runner appends that text to the
    history as a tool message and the task keeps running. *)
Theorem gateway_answers_in_text mc s acts env toolName args :
  let w := run mc (startTask s) acts in
  (∃ text, executeTool env toolName args = Returns text)
  ∧ (toolName ≠ "web_search" → toolName ≠ "execute_python" →
     executeTool env toolName args
     = Returns ("Error: Unknown tool '" +:+ toolName +:+ "'"))
  ∧ (python env = PyTimedOut →
     ∀ q code, executeTool env "execute_python" (ArgsObject q (Some code))
               = Returns ("❌ System Error: " +:+ timeout_message))
  ∧ executeTool env "web_search" ArgsUndefined
    = Returns ("Error executing web_search: " +:+ type_error env)
  ∧ (∀ q c msg, searchWeb env q = Throws msg →
       executeTool env "web_search" (ArgsObject q c)
       = Returns ("Error executing web_search: " +:+ msg))
  ∧ (∀ it tool rest,
       pc w = AwaitTool it tool rest →
       let w' := step mc w (ATool env) in
       status (task w') = Running
       ∧ ∃ text, executeTool env (funcName tool) (funcArgs tool) = Returns text
           ∧ messages w' = messages w ++ [ToolMessage text]).
Proof.
  intros w. split_and!.
  - apply executeTool_returns.
  - apply executeTool_unknown.
  - intros Hpy q code. unfold executeTool, executePythonCode. simpl. by rewrite Hpy.
  - done.
  - intros q c msg Hs. unfold executeTool. simpl. by rewrite Hs.
  - intros it tool rest Hpc w'.
    destruct (Inv_reachable mc s acts) as [HL _ _ HP]. fold w in HL, HP.
    assert (status (task w) = Running) as Hrun
      by (apply (running_not_settled w HL); congruence).
    unfold ProtoInv in HP. rewrite Hpc in HP.
    destruct (requested (messages w)) as [[content tcs]|]; [|by destruct HP as (_ & [])].
    destruct HP as (_ & _ & -> & _).
    destruct (executeTool_returns env (funcName tool) (funcArgs tool)) as [text Ht].
    unfold w'. simpl. unfold on_tool. rewrite Hpc, Ht.
    destruct rest as [|next rest]; (split; [exact Hrun|]); by exists text.
Qed.

Lemma gateway_answers_in_text_witness :
  "get_weather" ≠ "web_search" ∧ "get_weather" ≠ "execute_python"
  ∧ executeTool py4 "get_weather" (ArgsObject (Some "Jakarta") None)
    = Returns ("Error: Unknown tool '" +:+ "get_weather" +:+ "'").
Proof.
  split_and!; [done..|].
  destruct (gateway_answers_in_text Sample.message_content demo_tools []
              py4 "get_weather" (ArgsObject (Some "Jakarta") None)) as (_ & H & _).
  by apply H.
Defined.

(** * Further properties of the code *)

(** ** What a task never changes *)

Lemma constants_after_loop w : constants (after_loop w) = constants w.
Proof.
  unfold after_loop, db_addMessage. simpl.
  destruct (Str.truthy (fullResponse (task w))); [destruct (db_fault w) as [[?|?]|]|]; reflexivity.
Qed.

Lemma constants_outside w w' :
  outside_stream w' = outside_stream w → constants w' = constants w.
Proof. unfold outside_stream, constants. intros Ho. simplify_eq. congruence. Qed.

Lemma constants_step mc w a : constants (step mc w a) = constants w.
Proof.
  destruct a as [r|r|r|env|tid k|tid from|c| |ms| ]; simpl.
  - unfold on_fetch. destruct (pc w); try done.
    destruct r as [msg|st [t|msg]|]; try done. by case_match.
  - unfold on_read. destruct (pc w); try done. destruct r as [value| |msg]; try done.
    + pose proof (fold_process_outside mc
                    (removelast (Str.split Str.newline (buffer +:+ value)))
                    (w, fullText, chunkIndex)) as Ho.
      destruct (fold_left _ _ _) as [[wf ft] ci]. simpl in Ho.
      by apply constants_outside in Ho.
    + pose proof (process_line_outside mc (w, fullText, chunkIndex) buffer) as Ho.
      destruct (process_line _ _ _) as [[wl ft] ci]. simpl in Ho.
      apply constants_outside in Ho. by rewrite constants_after_loop.
  - unfold on_json. destruct (pc w); try done.
    destruct r as [msg|content [|tool rest]]; try done.
    by rewrite constants_after_loop.
  - unfold on_tool. destruct (pc w); try done.
    destruct (executeTool _ _ _); try done. destruct rest; try done.
    unfold loop. case_match; [done|]. by rewrite constants_after_loop.
  - destruct (subscribe tid k w) as [[c w']|] eqn:E; [|done].
    eapply constants_outside, outside_broker_stream, subscribe_outside, E.
  - destruct (handleTaskStream tid from w) as [[c w']|] eqn:E; [|done].
    eapply constants_outside, outside_broker_stream, subscribe_outside, E.
  - apply constants_outside, outside_broker_stream, cancel_outside.
  - apply constants_outside, outside_broker_stream, heartbeat_outside.
  - done.
  - unfold fire_timers. by case_match.
Qed.

Lemma constants_run mc acts : ∀ w, constants (run mc w acts) = constants w.
Proof.
  induction acts as [|a acts IH]; intros w; simpl; [done|].
  by rewrite IH, constants_step.
Qed.

Lemma constants_start mc s acts :
  let w := run mc (startTask s) acts in
  taskId (task w) = start_id s
  ∧ conversationId (task w) = start_conversation s
  ∧ useSearch w = start_search s ∧ useCode w = start_code s
  ∧ db_fault w = start_db_fault s.
Proof.
  intros w. pose proof (constants_run mc acts (startTask s)) as H.
  unfold constants in H. fold w in H. simplify_eq. by repeat split.
Qed.

(** ** The loop of [processTask] *)

(** A task started with both toggles off makes one engine call in all
    its life: a streaming call that offers no tool. *)
Theorem no_tools_one_streaming_call mc s acts :
  let w := run mc (startTask s) acts in
  start_search s = false → start_code s = false →
  kinds w = [KEngine true None].
Proof.
  intros w Hs Hc. pose proof (inv_proto _ (Inv_reachable mc s acts)) as HP.
  destruct (constants_start mc s acts) as (_ & _ & Hus & Huc & _).
  fold w in HP, Hus, Huc. unfold ProtoInv in HP.
  assert (has_tools w = false) as Hh.
  { unfold has_tools, offered. by rewrite Hus, Huc, Hs, Hc. }
  destruct (requested (messages w)) as [[content tcs]|].
  - destruct HP as (Hh' & _). congruence.
  - destruct HP as (Hk & _). rewrite Hk. unfold plain_plan. by rewrite Hh.
Qed.

Lemma no_tools_one_streaming_call_witness :
  start_search demo = false ∧ start_code demo = false
  ∧ kinds hello_done = [KEngine true None].
Proof.
  split_and!; [done..|].
  apply (no_tools_one_streaming_call Sample.message_content demo hello_done_acts);
    reflexivity.
Defined.

Lemma engine_calls_prefix (l1 l2 : list CallKind) :
  l1 `prefix_of` l2 →
  (length (List.filter is_engine_call l1) ≤ length (List.filter is_engine_call l2))%nat.
Proof.
  intros [l ->]. rewrite List.filter_app, length_app. lia.
Qed.

Lemma engine_calls_tools (tcs : list ToolCall) :
  List.filter is_engine_call (map KTool tcs) = [].
Proof. by induction tcs. Qed.

Lemma calls_step mc w a : calls w `prefix_of` calls (step mc w a).
Proof.
  assert (∀ w', outside_stream w' = outside_stream w → calls w `prefix_of` calls w')
    as Hframe.
  { intros w' Ho. unfold outside_stream in Ho. simplify_eq.
    by replace (calls w') with (calls w). }
  assert (∀ w', calls w' = calls w → calls w `prefix_of` calls (after_loop w')) as Hal.
  { intros w' Hc. destruct (settles_after_loop w') as (_ & _ & -> & _). by rewrite Hc. }
  destruct a as [r|r|r|env|tid k|tid from|c| |ms| ]; simpl.
  - unfold on_fetch. destruct (pc w); try done.
    destruct r as [msg|st [t|msg]|]; try done. by case_match.
  - unfold on_read. destruct (pc w); try done. destruct r as [value| |msg]; try done.
    + pose proof (fold_process_outside mc
                    (removelast (Str.split Str.newline (buffer +:+ value)))
                    (w, fullText, chunkIndex)) as Ho.
      destruct (fold_left _ _ _) as [[wf ft] ci]. simpl in Ho.
      by apply Hframe in Ho.
    + pose proof (process_line_outside mc (w, fullText, chunkIndex) buffer) as Ho.
      destruct (process_line _ _ _) as [[wl ft] ci]. simpl in Ho.
      apply Hal. unfold outside_stream in Ho. simpl. by simplify_eq.
  - unfold on_json. destruct (pc w); try done.
    destruct r as [msg|content [|tool rest]]; try done.
    + by apply Hal.
    + simpl. by apply prefix_app_r.
  - unfold on_tool. destruct (pc w); try done.
    destruct (executeTool _ _ _); try done. destruct rest.
    + unfold loop. case_match; [simpl; by apply prefix_app_r|by apply Hal].
    + simpl. by apply prefix_app_r.
  - destruct (subscribe tid k w) as [[c w']|] eqn:E; [|done].
    eapply Hframe, outside_broker_stream, subscribe_outside, E.
  - destruct (handleTaskStream tid from w) as [[c w']|] eqn:E; [|done].
    eapply Hframe, outside_broker_stream, subscribe_outside, E.
  - apply Hframe, outside_broker_stream, cancel_outside.
  - apply Hframe, outside_broker_stream, heartbeat_outside.
  - done.
  - unfold fire_timers. by case_match.
Qed.

Lemma calls_run mc acts : ∀ w, calls w `prefix_of` calls (run mc w acts).
Proof.
  induction acts as [|a acts IH]; intros w; simpl; [done|].
  etrans; [apply calls_step|apply IH].
Qed.

Lemma first_call_is_engine mc s acts :
  ∃ ms stream tools rest,
    calls (run mc (startTask s) acts) = EngineCall ms stream tools :: rest.
Proof.
  destruct (calls_run mc acts (startTask s)) as [l ->]. simpl. eauto.
Qed.

(** The ceiling of five iterations is never reached: a runner is in
    its first or its second iteration, the second only streams, and no
    task makes more than two engine calls. *)
Theorem at_most_two_iterations mc s acts :
  let w := run mc (startTask s) acts in
  (iteration_of (pc w) ≤ 2)%nat
  ∧ (iteration_of (pc w) < MAX_ITERATIONS)%nat
  ∧ (1 ≤ engine_calls w ≤ 2)%nat
  ∧ (∀ stream, pc w = AwaitFetch 2 stream → stream = true)
  ∧ (∀ it, pc w = AwaitJson it → it = 1%nat).
Proof.
  intros w. pose proof (inv_proto _ (Inv_reachable mc s acts)) as HP.
  fold w in HP. unfold ProtoInv in HP. unfold engine_calls, MAX_ITERATIONS.
  destruct (requested (messages w)) as [[content tcs]|].
  - destruct HP as (_ & _ & HP).
    assert (length (List.filter is_engine_call (tool_plan w tcs)) = 2%nat) as Hplan.
    { unfold tool_plan. simpl. by rewrite List.filter_app, engine_calls_tools. }
    destruct (pc w) eqn:Hpc; simpl.
    + destruct HP as (-> & -> & ->). rewrite Hplan.
      split_and!; try lia; [by intros ? [= <-]|done].
    + done.
    + destruct HP as (-> & ->). rewrite Hplan. split_and!; try lia; done.
    + destruct HP as (-> & served & _ & ->). simpl.
      rewrite engine_calls_tools. simpl. split_and!; try lia; done.
    + destruct HP as (Hpre & _). pose proof (engine_calls_prefix _ _ Hpre) as Hle.
      rewrite Hplan in Hle. split_and!; try lia; try done.
      destruct (first_call_is_engine mc s acts) as (ms & st & tl & rest & Hcalls).
      unfold kinds. fold w in Hcalls. rewrite Hcalls. simpl. lia.
  - destruct HP as (-> & HP). unfold plain_plan. simpl.
    destruct (pc w); simpl; try done.
    + destruct HP as (-> & _). split_and!; try lia; done.
    + destruct HP as (-> & _). split_and!; try lia. done. by intros ? [= <-].
    + destruct HP as (-> & _). split_and!; try lia; done.
    + split_and!; try lia; done.
Qed.

Lemma at_most_two_iterations_witness :
  let w := run Sample.message_content (startTask demo_tools) second_call_acts in
  pc w = AwaitFetch 2 true
  ∧ (iteration_of (pc w) ≤ 2)%nat
  ∧ (iteration_of (pc w) < MAX_ITERATIONS)%nat
  ∧ (1 ≤ engine_calls w ≤ 2)%nat
  ∧ (∀ stream, pc w = AwaitFetch 2 stream → stream = true)
  ∧ (∀ it, pc w = AwaitJson it → it = 1%nat).
Proof.
  intros w. split; [by vm_compute|].
  apply (at_most_two_iterations Sample.message_content demo_tools second_call_acts).
Defined.

(** ** Persistence and the registry *)

(** A task writes at most one row, and only the row of its conversation
    with the role assistant and its whole [fullResponse]. It has written
    that row exactly when its answer is not empty and either it is
    completed, or its status went from completed to error because the
    SELECT that follows the INSERT in [db.addMessage] threw. *)
Theorem persistence_at_most_once mc s acts :
  let w := run mc (startTask s) acts in
  let row := (start_conversation s, "assistant", fullResponse (task w)) in
  (db_writes w = [] ∨ db_writes w = [row])
  ∧ (db_writes w = [row]
     ↔ Str.truthy (fullResponse (task w)) = true
       ∧ (status (task w) = Completed
          ∨ (status_log w = [Running; Completed; Error]
             ∧ ∃ msg, start_db_fault s = Some (SelectThrows msg)
                      ∧ error (task w) = Some msg))).
Proof.
  intros w row. pose proof (inv_life _ (Inv_reachable mc s acts)) as HL.
  destruct (constants_start mc s acts) as (_ & Hconv & _ & _ & Hdb).
  fold w in HL, Hconv, Hdb.
  assert (saved_rows w = if Str.truthy (fullResponse (task w)) then [row] else [])
    as Hrows by (unfold saved_rows, row; by rewrite Hconv).
  destruct (settled_or_not (pc w)) as [Hp|Hn].
  - destruct (life_settled _ HL Hp)
      as [(Hs & Hl & _ & Hw & _)|(Hs & _ & _ & _ & He)].
    + rewrite Hw, Hrows. destruct (Str.truthy (fullResponse (task w))).
      * split; [by right|]. split; [by auto|done].
      * split; [by left|]. split; [done|by intros [? _]].
    + destruct He as [[Hl ->]|(Hl & Hfull & [(msg & Hf & He & ->)|(msg & Hf & He & ->)])].
      * split; [by left|]. split; [done|].
        intros (_ & [?|[? _]]); congruence.
      * split; [by left|]. split; [done|].
        intros (_ & [?|(_ & msg' & Hf' & _)]); congruence.
      * rewrite Hrows, Hfull. split; [by right|]. split; [|done].
        intros _. split; [done|]. right. split; [done|]. exists msg.
        by rewrite <- Hdb.
  - destruct (life_running _ HL Hn) as (Hs & Hl & -> & _).
    split; [by left|]. split; [done|].
    intros (_ & [?|[? _]]); congruence.
Qed.

Lemma persistence_at_most_once_witness :
  let w := half_saved in
  let row := (start_conversation demo_db_select, "assistant", fullResponse (task w)) in
  status (task w) = Error
  ∧ row = ("conv-4", "assistant", "Hel")
  ∧ db_writes w = [row].
Proof.
  intros w row. split_and!; [by vm_compute..|].
  destruct (persistence_at_most_once Sample.message_content demo_db_select
              half_saved_acts) as [_ H].
  apply H. split; [by vm_compute|]. right. split; [by vm_compute|].
  by exists "disk I/O error".
Defined.

Lemma unregistered_run mc acts : ∀ w,
  pc w = Settled → registered w = false → registered (run mc w acts) = false.
Proof.
  induction acts as [|a acts IH]; intros w Hp Hr; simpl; [done|].
  apply IH.
  - pose proof (settled_step mc w a Hp) as Hs. unfold text_fields in Hs.
    simplify_eq. congruence.
  - assert (∀ w', outside_broker w' = outside_broker w → registered w' = false)
      as Hframe.
    { intros w' Ho. unfold outside_broker, outside_stream in Ho. simplify_eq.
      congruence. }
    destruct a as [r|r|r|env|tid k|tid from|c| |ms| ]; simpl.
    + unfold on_fetch. by rewrite Hp.
    + unfold on_read. by rewrite Hp.
    + unfold on_json. by rewrite Hp.
    + unfold on_tool. by rewrite Hp.
    + destruct (subscribe tid k w) as [[c w']|] eqn:E; [|done].
      eapply Hframe, subscribe_outside, E.
    + destruct (handleTaskStream tid from w) as [[c w']|] eqn:E; [|done].
      eapply Hframe, subscribe_outside, E.
    + apply Hframe, cancel_outside.
    + apply Hframe, heartbeat_outside.
    + done.
    + unfold fire_timers. by case_match.
Qed.

(** A completed task stays in the registry until five minutes after
    [completedAt]. The first run of the timers from then on removes it,
    and in every turn after that [subscribe], the stream request and
    the status query answer for its id that there is no such task. *)
Theorem completed_task_leaves_after_retention mc s acts :
  let w := run mc (startTask s) acts in
  status (task w) = Completed →
  ∃ t0, completedAt (task w) = Some t0
    ∧ (clock w < t0 + 5 * 60 * 1000 → registered w = true)
    ∧ (t0 + 5 * 60 * 1000 ≤ clock w →
       ∀ acts',
         let w' := run mc (step mc w ATimers) acts' in
         registered w' = false
         ∧ (∀ k, subscribe (start_id s) k w' = None)
         ∧ (∀ from, handleTaskStream (start_id s) from w' = None)
         ∧ handleTaskStatus (start_id s) w' = None).
Proof.
  intros w Hs. pose proof (inv_life _ (Inv_reachable mc s acts)) as HL. fold w in HL.
  assert (pc w = Settled) as Hp.
  { destruct (settled_or_not (pc w)) as [|Hn]; [done|].
    destruct (life_running _ HL Hn) as [? _]. congruence. }
  destruct (life_settled _ HL Hp) as [(_ & _ & _ & _ & t0 & Ht0 & Hreg)|[? _]];
    [|congruence].
  exists t0. change (5 * 60 * 1000) with retention_ms. split_and!; [done| |].
  - intros Hlt. destruct Hreg as [[? _]|(_ & _ & ?)]; [done|lia].
  - intros Hle acts' w'.
    assert (registered (step mc w ATimers) = false) as Hr1.
    { simpl. unfold fire_timers.
      destruct Hreg as [[_ ->]|(? & -> & _)]; simpl; [|done].
      apply Z.leb_le in Hle. by rewrite Hle. }
    assert (pc (step mc w ATimers) = Settled) as Hp1.
    { pose proof (settled_step mc w ATimers Hp) as Hf. unfold text_fields in Hf.
      simplify_eq. congruence. }
    assert (registered w' = false) as Hr by (by apply unregistered_run).
    split_and!; [done| | |].
    + intros k. unfold subscribe. by rewrite Hr.
    + intros from. unfold handleTaskStream, subscribe. by rewrite Hr.
    + unfold handleTaskStatus, getTaskStatus. by rewrite Hr.
Qed.

Lemma completed_task_leaves_after_retention_witness :
  let w := run Sample.message_content (startTask demo)
             (hello_done_acts ++ [ATick 300000]) in
  status (task w) = Completed
  ∧ ∃ t0, completedAt (task w) = Some t0
      ∧ (clock w < t0 + 5 * 60 * 1000 → registered w = true)
      ∧ (t0 + 5 * 60 * 1000 ≤ clock w →
         ∀ acts',
           let w' := run Sample.message_content
                       (step Sample.message_content w ATimers) acts' in
           registered w' = false
           ∧ (∀ k, subscribe (start_id demo) k w' = None)
           ∧ (∀ from, handleTaskStream (start_id demo) from w' = None)
           ∧ handleTaskStatus (start_id demo) w' = None).
Proof.
  intros w. split; [by vm_compute|].
  apply (completed_task_leaves_after_retention Sample.message_content demo
           (hello_done_acts ++ [ATick 300000])).
  by vm_compute.
Defined.

Lemma status_reply_text_witness :
  handleTaskStatus "task-1" hello_done
  = Some {| reply_id := "task-1"; reply_conversationId := "conv-1";
            reply_status := Completed; reply_chunkCount := 2;
            reply_fullResponse := Some "Hello"; reply_error := None |}
  ∧ "Hello" = chunk_text hello_done
  ∧ 2%nat = length (chunks (task hello_done)).
Proof.
  split; [by vm_compute|].
  apply (status_reply_text Sample.message_content demo hello_done_acts "task-1"
           {| reply_id := "task-1"; reply_conversationId := "conv-1";
              reply_status := Completed; reply_chunkCount := 2;
              reply_fullResponse := Some "Hello"; reply_error := None |} "Hello");
    by vm_compute.
Defined.

(** ** The broker *)

(** A notification reaches every subscriber that can be written to,
    once; every subscriber whose [enqueue] throws is deleted from the
    set, the others stay in their order; nothing else in the world
    changes. *)
Theorem notify_delivers_and_prunes mc s acts d :
  let w := run mc (startTask s) acts in
  let w' := notifySubscribers d w in
  controllers w' = deliver (Data d) <$> controllers w
  ∧ subscribers (task w')
    = filter (is_readable (controllers w)) (subscribers (task w))
  ∧ (∀ c, c ∈ subscribers (task w') ↔ is_readable (controllers w') c)
  ∧ outside_broker w' = outside_broker w.
Proof.
  intros w w'. pose proof (subs_attached _ (inv_subs _ (Inv_reachable mc s acts))) as Ha.
  fold w in Ha. pose proof (notify_attached d w Ha) as [_ Hin']. fold w' in Hin'.
  split_and!.
  - by apply notify_controllers.
  - apply notify_subscribers.
  - intros c. split; [|apply Hin'].
    unfold w'. rewrite notify_subscribers, notify_controllers by done.
    rewrite is_readable_fmap by apply cstate_deliver.
    by intros [? _]%list_elem_of_filter.
  - apply notify_outside.
Qed.

(** The sink that [cancel] leaves in the set is deleted by the next
    notification, which still reaches every other subscriber. *)
Theorem cancelled_sink_pruned_by_next_notify mc s acts c ctl d :
  let w := run mc (startTask s) acts in
  let w' := notifySubscribers d (cancel c w) in
  controllers w !! c = Some ctl → cstate ctl = Readable →
  (c ∉ subscribers (task w'))
  ∧ controllers w' !! c = Some {| queue := queue ctl; cstate := Cancelled |}
  ∧ ∀ c' ctl', c' ≠ c → controllers w !! c' = Some ctl' →
      controllers w' !! c' = Some (deliver (Data d) ctl')
      ∧ (cstate ctl' = Readable → c' ∈ subscribers (task w')).
Proof.
  intros w w' Hc Hr. pose proof (inv_subs _ (Inv_reachable mc s acts)) as HS.
  fold w in HS. pose proof (subs_attached _ (SubsInv_cancel c w HS)) as Ha.
  assert (controllers (cancel c w)
          = <[c:={| queue := queue ctl; cstate := Cancelled |}]> (controllers w)) as Hcc.
  { unfold cancel. by rewrite Hc, Hr. }
  assert (subscribers (task (cancel c w)) = subscribers (task w)) as Hcs.
  { unfold cancel. by rewrite Hc, Hr. }
  pose proof (lookup_lt_Some _ _ _ Hc) as Hlt.
  unfold w'. rewrite notify_subscribers, notify_controllers by done.
  rewrite Hcc, Hcs. split_and!.
  - intros [(x & Hx & Rx) _]%list_elem_of_filter.
    rewrite list_lookup_insert_eq in Hx by done. by simplify_eq.
  - by rewrite list_lookup_fmap, list_lookup_insert_eq.
  - intros c' ctl' Hne Hc'. rewrite list_lookup_fmap, list_lookup_insert_ne, Hc' by done.
    split; [done|]. intros Hr'. apply list_elem_of_filter. split.
    + exists ctl'. by rewrite list_lookup_insert_ne.
    + apply (subs_attached _ HS). by exists ctl'.
Qed.

Lemma cancelled_sink_pruned_by_next_notify_witness :
  let w := run Sample.message_content (startTask demo)
             [ASubscribe "task-1" (Num 0); ASubscribe "task-1" (Num 0)] in
  let w' := notifySubscribers (DataChunk "x" 0) (cancel 0 w) in
  controllers w !! 0%nat = Some {| queue := []; cstate := Readable |}
  ∧ subscribers (task w) = [0%nat; 1%nat]
  ∧ subscribers (task w') = [1%nat]
  ∧ 0%nat ∉ subscribers (task w').
Proof.
  intros w w'. split_and!; [by vm_compute..|].
  apply (cancelled_sink_pruned_by_next_notify Sample.message_content demo
           [ASubscribe "task-1" (Num 0); ASubscribe "task-1" (Num 0)] 0
           {| queue := []; cstate := Readable |} (DataChunk "x" 0)); by vm_compute.
Defined.

(** [closeSubscribers] may be called again without effect; after it the
    set is empty and no stream of the task can be written to. *)
Theorem closeSubscribers_idempotent mc s acts :
  let w := run mc (startTask s) acts in
  closeSubscribers (closeSubscribers w) = closeSubscribers w
  ∧ subscribers (task (closeSubscribers w)) = []
  ∧ (∀ c, ¬ is_readable (controllers (closeSubscribers w)) c)
  ∧ (∀ c ctl, controllers w !! c = Some ctl →
       controllers (closeSubscribers w) !! c
       = Some (if decide (cstate ctl = Readable)
               then {| queue := queue ctl; cstate := Closed |}
               else ctl)).
Proof.
  intros w. pose proof (subs_attached _ (inv_subs _ (Inv_reachable mc s acts))) as Ha.
  fold w in Ha. split_and!; [done|done| |].
  - intros c (x & Hx & Rx). rewrite close_controllers, list_lookup_fmap in Hx by done.
    destruct (controllers w !! c) as [ctl|]; simplify_eq/=.
    unfold shut, close in Rx. by destruct (cstate ctl) eqn:E; simpl in Rx; rewrite ?E in Rx.
  - intros c ctl Hc. rewrite close_controllers, list_lookup_fmap, Hc by done. simpl.
    f_equal. unfold shut, close. case_decide as Hr; [by rewrite Hr|].
    by destruct (cstate ctl).
Qed.


Lemma closeSubscribers_idempotent_witness :
  controllers joined !! 0%nat = Some {| queue := []; cstate := Readable |}
  ∧ controllers (closeSubscribers joined) !! 0%nat
    = Some {| queue := []; cstate := Closed |}.
Proof.
  split; [by vm_compute|].
  destruct (closeSubscribers_idempotent Sample.message_content demo
              [ASubscribe "task-1" (Num 0)]) as (_ & _ & _ & H).
  apply (H 0%nat {| queue := []; cstate := Readable |}). by vm_compute.
Defined.

(** ** Replay and live delivery *)

Lemma fragments_app q1 q2 : fragments (q1 ++ q2) = fragments q1 ++ fragments q2.
Proof. apply omap_app. Qed.

Lemma indexed_nonneg cs : indexed cs → Forall (λ ch, 0 ≤ index ch) cs.
Proof.
  intros Hi. apply Forall_lookup. intros i ch Hl. rewrite (Hi _ _ Hl). lia.
Qed.

Lemma fragments_replay cs :
  Forall (λ ch, 0 ≤ index ch) cs → fragments (map chunk_frame cs) = cs.
Proof.
  induction 1 as [|ch cs Hch _ IH]; [done|].
  unfold fragments in *. simpl. apply Z.leb_le in Hch. rewrite Hch.
  f_equal; [by destruct ch|exact IH].
Qed.

Lemma fragments_terminal t : fragments (terminal_frames t) = [].
Proof. unfold terminal_frames. by destruct (status t). Qed.

Lemma filter_resume from cs :
  indexed cs →
  List.filter (λ ch, js_ge (index ch) from) cs = drop (resume_point from (length cs)) cs.
Proof.
  intros Hi. destruct from as [z|]; unfold resume_point.
  - destruct (Z.le_gt_cases 0 z) as [Hz|Hz].
    + replace (Num z) with (Num (Z.of_nat (Z.to_nat z))) by (by rewrite Z2Nat.id).
      rewrite filter_from by done.
      destruct (Nat.le_gt_cases (Z.to_nat z) (length cs)).
      * by rewrite Nat.min_l.
      * rewrite Nat.min_r, !drop_ge by lia. done.
    + replace (Z.to_nat z) with 0%nat by lia. simpl.
      pose proof (indexed_nonneg cs Hi) as Hn. clear Hi.
      induction Hn as [|ch cs Hch _ IH]; [done|]. simpl.
      replace (z <=? index ch) with true by (symmetry; apply Z.leb_le; lia).
      f_equal. exact IH.
  - by rewrite filter_NaN, drop_all.
Qed.

Lemma sync_deliver_chunk k t t' ctl token i :
  cstate ctl ≠ Closed → 0 ≤ i →
  chunks t' = chunks t ++ [{| content := token; index := i |}] →
  sync k t ctl → sync k t' (deliver (Data (DataChunk token i)) ctl).
Proof.
  intros Hc Hi Ht Hs Hn. rewrite cstate_deliver in Hn.
  destruct (Hs Hn) as (Hk & Hf & _). rewrite Ht, length_app. split_and!.
  - lia.
  - rewrite deliver_readable by (by destruct (cstate ctl)). simpl.
    rewrite fragments_app, Hf, drop_app_le by done. f_equal.
    unfold fragments. simpl. apply Z.leb_le in Hi. by rewrite Hi.
  - rewrite cstate_deliver. done.
Qed.

Lemma sync_deliver_quiet k t ctl msg :
  frame_fragment msg = None → sync k t ctl → sync k t (deliver msg ctl).
Proof.
  intros Hm Hs. destruct (decide (cstate ctl = Readable)) as [Hr|Hr].
  - rewrite deliver_readable by done. intros _.
    destruct Hs as (Hk & Hf & _); [by rewrite Hr|]. split_and!; [done| |done].
    simpl. rewrite fragments_app, Hf.
    replace (fragments [msg]) with (@nil TaskChunk);
      [by rewrite app_nil_r|]. unfold fragments. simpl. by rewrite Hm.
  - by rewrite deliver_not_readable.
Qed.

Lemma sync_task k t t' ctl :
  chunks t' = chunks t → status t' = status t → error t' = error t →
  sync k t ctl → sync k t' ctl.
Proof.
  intros Hc Hst He Hs Hn. destruct (Hs Hn) as (Hk & Hf & Hq).
  unfold terminal_frames. by rewrite Hc, Hst, He.
Qed.

Lemma sync_settle k t t' ctl d :
  cstate ctl ≠ Closed → frame_fragment (Data d) = None →
  chunks t' = chunks t → terminal_frames t' = [Data d] →
  sync k t ctl → sync k t' (shut (deliver (Data d) ctl)).
Proof.
  intros Hc Hd Ht Hterm Hs. destruct (cstate ctl) eqn:E; [|done|].
  - assert (shut (deliver (Data d) ctl)
            = {| queue := queue ctl ++ [Data d]; cstate := Closed |}) as ->
      by (by rewrite deliver_readable).
    intros _. cbn [queue cstate].
    destruct Hs as (Hk & Hf & _); [by rewrite E|]. rewrite Ht, Hterm.
    split_and!; [done| |by eauto].
    rewrite fragments_app, Hf.
    replace (fragments [Data d]) with (@nil TaskChunk);
      [by rewrite app_nil_r|]. unfold fragments. simpl in *. by rewrite Hd.
  - rewrite deliver_not_readable by (by rewrite E). unfold shut, close.
    rewrite E. simpl. intros Hn. by rewrite E in Hn.
Qed.

Lemma sync_cancel k t ctl :
  cstate ctl = Readable →
  sync k t ctl → sync k t {| queue := queue ctl; cstate := Cancelled |}.
Proof. by intros _ _ ?. Qed.

Lemma sync_stream_property k : StreamProperty (sync k).
Proof.
  split.
  - apply sync_deliver_chunk.
  - apply sync_deliver_quiet.
  - apply sync_task.
  - apply sync_settle.
  - apply sync_cancel.
Qed.

Section Carried.

Variable P : GenerationTask → Controller → Prop.
Hypothesis Hkept : StreamProperty P.

Lemma carried_refl w : carried P w w.
Proof. split; [done|]. intros c ctl ctl' H1 H2. by simplify_eq. Qed.

Lemma carried_trans w1 w2 w3 : carried P w1 w2 → carried P w2 w3 → carried P w1 w3.
Proof.
  intros [Hl1 H1] [Hl2 H2]. split; [congruence|].
  intros c ctl ctl'' Hc Hc'' Hs.
  destruct (lookup_lt_is_Some_2 (controllers w2) c) as [ctl' Hc'].
  { rewrite Hl1. by eapply lookup_lt_Some. }
  eauto.
Qed.

Lemma carried_fmap f w w' :
  controllers w' = f <$> controllers w →
  (∀ c ctl, controllers w !! c = Some ctl → P (task w) ctl → P (task w') (f ctl)) →
  carried P w w'.
Proof.
  intros Hc Hf. split; [by rewrite Hc, length_fmap|].
  intros c ctl ctl' Hl Hl' Hs. rewrite Hc, list_lookup_fmap, Hl in Hl'.
  simplify_eq/=. eauto.
Qed.

Lemma carried_same w w' :
  controllers w' = controllers w → chunks (task w') = chunks (task w) →
  status (task w') = status (task w) → error (task w') = error (task w) →
  carried P w w'.
Proof.
  intros Hc Hch Hst He. split; [by rewrite Hc|].
  intros c ctl ctl' Hl Hl' Hs. rewrite Hc in Hl'. simplify_eq.
  by apply (kept_task P Hkept (task w)).
Qed.

Lemma carried_push_notify token i w :
  quiet w → 0 ≤ i →
  carried P w (notifySubscribers (DataChunk token i)
                 (push_chunk {| content := token; index := i |} w)).
Proof.
  intros [Ha Hl] Hi. apply (carried_fmap (deliver (Data (DataChunk token i)))).
  - by rewrite notify_controllers.
  - intros c ctl Hc Hs. apply (kept_chunk P Hkept (task w)); [|done|done|done].
    eapply Forall_lookup_1 in Hl as [? _]; done.
Qed.

Lemma carried_notice text w :
  quiet w → carried P w (notifySubscribers (DataChunk text (-1)) w).
Proof.
  intros [Ha Hl]. apply (carried_fmap (deliver (Data (DataChunk text (-1))))).
  - by rewrite notify_controllers.
  - intros c ctl Hc Hs. apply (kept_task P Hkept (task w)); [done..|].
    by apply (kept_quiet P Hkept).
Qed.

Lemma carried_settle d w w' :
  quiet w → frame_fragment (Data d) = None →
  controllers w' = controllers (closeSubscribers (notifySubscribers d w)) →
  chunks (task w') = chunks (task w) → terminal_frames (task w') = [Data d] →
  carried P w w'.
Proof.
  intros [Ha Hl] Hd Hc Hch Ht.
  apply (carried_fmap (λ ctl, shut (deliver (Data d) ctl))).
  - rewrite Hc, close_controllers, notify_controllers
      by (done || by apply notify_attached).
    by rewrite <- list_fmap_compose.
  - intros c ctl Hl' Hs. apply (kept_settle P Hkept (task w)); try done.
    eapply Forall_lookup_1 in Hl as [? _]; done.
Qed.

Lemma carried_throw msg w : quiet w → carried P w (throw msg w).
Proof. intros Hq. by apply (carried_settle (DataError (Some msg))). Qed.

Lemma carried_after_loop w : quiet w → carried P w (after_loop w).
Proof.
  intros Hq. unfold after_loop, db_addMessage. simpl.
  destruct (Str.truthy (fullResponse (task w))); [destruct (db_fault w) as [[msg|msg]|]|].
  - by apply (carried_settle (DataError (Some msg)) w).
  - by apply (carried_settle (DataError (Some msg)) w).
  - by apply (carried_settle DataDone w).
  - by apply (carried_settle DataDone w).
Qed.

Lemma carried_loop iteration w : quiet w → carried P w (loop iteration w).
Proof.
  intros Hq. unfold loop. case_match; [|by apply carried_after_loop].
  by apply carried_same.
Qed.

Lemma carried_begin_tool iteration tool rest w :
  quiet w → carried P w (begin_tool iteration tool rest w).
Proof.
  intros Hq. eapply carried_trans; [by apply (carried_notice (tool_notice (funcName tool)))|].
  by apply carried_same.
Qed.

Variable mc : string → option string.

Lemma process_line_carried st line :
  quiet st.1.1 → streaming st → carried P st.1.1 (process_line mc st line).1.1.
Proof.
  destruct st as [[w ft] ci]. unfold process_line. simpl. intros Hq (_ & Hci & _).
  simpl in Hci. repeat case_match; try apply carried_refl. simpl.
  apply carried_push_notify; [done|lia].
Qed.

Lemma fold_process_carried lines : ∀ st,
  quiet st.1.1 → streaming st →
  carried P st.1.1 (fold_left (process_line mc) lines st).1.1.
Proof.
  induction lines as [|line lines IH]; intros st Hq Hst; simpl; [apply carried_refl|].
  eapply carried_trans; [by apply process_line_carried|].
  apply IH; [by apply process_line_quiet|by apply process_line_streaming].
Qed.


(** Every turn but a subscription keeps [P] on every stream. *)
Lemma step_carried w a :
  Inv w →
  match a with
  | ASubscribe _ _ | AStream _ _ => True
  | _ => carried P w (step mc w a)
  end.
Proof.
  intros [HL HT HS HP].
  assert (pc w ≠ Settled → quiet w) as Hq.
  { intros Hp. split; [apply HS|by apply HS]. }
  destruct a as [r|r|r|env|tid k|tid from|c| |ms| ]; simpl; try done.
  - unfold on_fetch. destruct (pc w) eqn:Hpc; try apply carried_refl.
    specialize (Hq ltac:(done)).
    destruct r as [msg|st [t|msg]|]; try by apply carried_throw.
    case_match; by apply carried_same.
  - unfold on_read. destruct (pc w) eqn:Hpc; try apply carried_refl.
    specialize (Hq ltac:(done)).
    assert (streaming (w, fullText, chunkIndex)) as Hst.
    { split_and!; simpl; [apply HT|by eapply HT|].
      by rewrite (text_running _ HT) by congruence; rewrite Hpc. }
    destruct r as [value| |msg].
    + pose proof (fold_process_carried
                    (removelast (Str.split Str.newline (buffer +:+ value)))
                    (w, fullText, chunkIndex) Hq Hst) as Hc.
      destruct (fold_left _ _ _) as [[wf ft] ci] eqn:E. simpl in Hc.
      eapply carried_trans; [exact Hc|]. by apply carried_same.
    + pose proof (process_line_carried (w, fullText, chunkIndex) buffer Hq Hst)
        as Hc.
      pose proof (process_line_quiet mc (w, fullText, chunkIndex) buffer Hq) as Hq'.
      destruct (process_line _ _ _) as [[wl ft] ci] eqn:E. simpl in Hc, Hq'.
      eapply carried_trans; [exact Hc|].
      eapply carried_trans; [|apply carried_after_loop].
      * by apply carried_same.
      * by eapply quiet_fields.
    + by apply carried_throw.
  - unfold on_json. destruct (pc w) eqn:Hpc; try apply carried_refl.
    specialize (Hq ltac:(done)).
    destruct r as [msg|content [|tool rest]].
    + by apply carried_throw.
    + eapply carried_trans; [|apply carried_after_loop].
      * eapply carried_trans; [|apply carried_push_notify].
        -- by apply (carried_same w (append_fullResponse content w)).
        -- by eapply quiet_fields.
        -- simpl. lia.
      * apply quiet_notify; [done|]. by eapply quiet_fields.
    + eapply carried_trans; [|apply carried_begin_tool].
      * by apply carried_same.
      * by eapply quiet_fields.
  - unfold on_tool. destruct (pc w) eqn:Hpc; try apply carried_refl.
    specialize (Hq ltac:(done)).
    destruct (executeTool _ _ _) as [result|msg]; [|by apply carried_throw].
    destruct rest as [|next rest].
    + eapply carried_trans; [|apply carried_loop].
      * by apply carried_same.
      * by eapply quiet_fields.
    + eapply carried_trans; [|apply carried_begin_tool].
      * by apply carried_same.
      * by eapply quiet_fields.
  - unfold cancel. destruct (controllers w !! c) as [gone|] eqn:E;
      [|apply carried_refl].
    destruct (cstate gone) eqn:S; try apply carried_refl.
    split; [simpl; by rewrite length_insert|].
    intros c' ctl ctl' Hc Hc' Hs. simpl in Hc'.
    destruct (decide (c = c')) as [<-|Hne].
    + rewrite list_lookup_insert_eq in Hc' by (by eapply lookup_lt_Some).
      simplify_eq. apply (kept_task P Hkept (task w)); [done..|].
      by apply (kept_cancel P Hkept).
    + rewrite list_lookup_insert_ne in Hc' by done. simplify_eq.
      by apply (kept_task P Hkept (task w)).
  - unfold heartbeat. case_match; [|apply carried_refl].
    apply (carried_fmap (deliver KeepAlive)).
    + simpl. apply beat_controllers, HS.
    + intros c ctl Hc Hs. by apply (kept_quiet P Hkept).
  - by apply carried_same.
  - unfold fire_timers. case_match; [apply carried_refl|]. by apply carried_same.
Qed.

(** What [subscribe] leaves alone. *)
Lemma subscribe_appends tid from w c w' :
  subscribe tid from w = Some (c, w') →
  c = length (controllers w)
  ∧ (∃ ctl, controllers w' = controllers w ++ [ctl])
  ∧ chunks (task w') = chunks (task w)
  ∧ status (task w') = status (task w)
  ∧ error (task w') = error (task w).
Proof.
  unfold subscribe. case_match; [|done].
  destruct (status (task w)) eqn:Hst; intros [= <- <-]; simpl; rewrite ?Hst; eauto 10.
Qed.

Lemma step_old w a c ctl :
  Inv w → controllers w !! c = Some ctl → P (task w) ctl →
  ∃ ctl', controllers (step mc w a) !! c = Some ctl' ∧ P (task (step mc w a)) ctl'.
Proof.
  intros Hw Hc Hs.
  assert (carried P w (step mc w a) →
          ∃ ctl', controllers (step mc w a) !! c = Some ctl'
            ∧ P (task (step mc w a)) ctl') as Hcar.
  { intros [Hlen Hcar].
    destruct (lookup_lt_is_Some_2 (controllers (step mc w a)) c) as [ctl' Hc'].
    { rewrite Hlen. by eapply lookup_lt_Some. }
    eauto. }
  assert (∀ tid from,
            ∃ ctl', controllers (from_option snd w (subscribe tid from w)) !! c
                    = Some ctl'
              ∧ P (task (from_option snd w (subscribe tid from w))) ctl')
    as Hsub.
  { intros tid from. destruct (subscribe tid from w) as [[c' w']|] eqn:E; simpl; [|eauto].
    destruct (subscribe_appends _ _ _ _ _ E) as (_ & [new Hcs] & Hch & Hst & He).
    exists ctl. split; [rewrite Hcs; by apply lookup_app_l_Some|].
    by apply (kept_task P Hkept (task w)). }
  pose proof (step_carried w a Hw) as H.
  destruct a; try (by apply Hcar); apply Hsub.
Qed.

Lemma run_old acts : ∀ w c ctl,
  Inv w → controllers w !! c = Some ctl → P (task w) ctl →
  ∃ ctl', controllers (run mc w acts) !! c = Some ctl'
    ∧ P (task (run mc w acts)) ctl'.
Proof.
  induction acts as [|a acts IH]; intros w c ctl Hw Hc Hs; simpl; [eauto|].
  destruct (step_old w a c ctl Hw Hc Hs) as (ctl' & Hc' & Hs').
  eapply IH; [by apply Inv_step|done..].
Qed.

End Carried.

Section SyncSteps.

Variable mc : string → option string.

(** A subscription opens one stream, in step from its resume point. *)
Lemma subscribe_sync tid from w c w' :
  Inv w → subscribe tid from w = Some (c, w') →
  c = length (controllers w)
  ∧ ∃ ctl, controllers w' = controllers w ++ [ctl]
      ∧ sync (resume_point from (length (chunks (task w)))) (task w') ctl
      ∧ chunks (task w') = chunks (task w)
      ∧ status (task w') = status (task w)
      ∧ error (task w') = error (task w).
Proof.
  intros [HL HT HS HP]. pose proof (text_index _ HT) as Hi.
  assert (fragments (map chunk_frame
            (List.filter (λ ch, js_ge (index ch) from) (chunks (task w))))
          = drop (resume_point from (length (chunks (task w)))) (chunks (task w)))
    as Hreplay.
  { rewrite filter_resume by done. apply fragments_replay, Forall_drop.
    by apply indexed_nonneg. }
  assert (resume_point from (length (chunks (task w))) ≤ length (chunks (task w)))%nat
    as Hle by (destruct from; simpl; lia).
  unfold subscribe. case_match; [|done].
  destruct (status (task w)) eqn:Hst; intros [= <- <-]; (split; [done|]);
    eexists; (split; [reflexivity|]); (split; [|done]); intros _; simpl.
  - by rewrite Hreplay.
  - rewrite fragments_app, Hreplay, app_nil_r. split_and!; [done..|].
    intros _. unfold terminal_frames. simpl. rewrite Hst. eauto.
  - rewrite fragments_app, Hreplay, app_nil_r. split_and!; [done..|].
    intros _. unfold terminal_frames. simpl. rewrite Hst. eauto.
Qed.

Lemma step_all w a :
  Inv w →
  (∀ c ctl, controllers w !! c = Some ctl → ∃ k, sync k (task w) ctl) →
  ∀ c ctl, controllers (step mc w a) !! c = Some ctl →
    ∃ k, sync k (task (step mc w a)) ctl.
Proof.
  intros Hw Hall c ctl' Hc'.
  destruct (controllers w !! c) as [ctl|] eqn:Hc.
  - destruct (Hall c ctl Hc) as [k Hs]. exists k.
    destruct (step_old (sync k) (sync_stream_property k) mc w a c ctl Hw Hc Hs)
      as (ctl'' & Hc'' & Hs').
    by simplify_eq.
  - apply lookup_ge_None in Hc.
    assert (carried (sync 0) w (step mc w a) → False) as Hcar.
    { intros [Hlen _]. apply lookup_lt_Some in Hc'. lia. }
    assert (∀ tid from,
              controllers (from_option snd w (subscribe tid from w)) !! c = Some ctl' →
              ∃ k, sync k (task (from_option snd w (subscribe tid from w))) ctl')
      as Hsub.
    { intros tid from. destruct (subscribe tid from w) as [[c' w']|] eqn:E; simpl.
      - destruct (subscribe_sync _ _ _ _ _ Hw E) as (_ & new & Hcs & Hs & _).
        rewrite Hcs. intros [[Hlt _]|[_ <-]]%lookup_snoc_Some; [lia|eauto].
      - intros Hl. apply lookup_lt_Some in Hl. lia. }
    pose proof (step_carried (sync 0) (sync_stream_property 0) mc w a Hw) as H.
    destruct a; try (by destruct Hcar); by apply Hsub.
Qed.

Lemma run_all acts : ∀ w,
  Inv w →
  (∀ c ctl, controllers w !! c = Some ctl → ∃ k, sync k (task w) ctl) →
  ∀ c ctl, controllers (run mc w acts) !! c = Some ctl →
    ∃ k, sync k (task (run mc w acts)) ctl.
Proof.
  induction acts as [|a acts IH]; intros w Hw Hall; simpl; [done|].
  apply IH; [by apply Inv_step|by apply step_all].
Qed.

(** The stream of a subscription, at any later turn. *)
Lemma resume_sync s acts tid from c w1 acts' :
  subscribe tid from (run mc (startTask s) acts) = Some (c, w1) →
  ∃ ctl, controllers (run mc w1 acts') !! c = Some ctl
    ∧ sync (resume_point from (length (chunks (task (run mc (startTask s) acts)))))
        (task (run mc w1 acts')) ctl.
Proof.
  intros E. pose proof (Inv_reachable mc s acts) as Hw.
  destruct (subscribe_sync _ _ _ _ _ Hw E) as (-> & new & Hcs & Hs & _).
  assert (Inv w1) as Hw1.
  { replace w1 with (step mc (run mc (startTask s) acts) (ASubscribe tid from));
      [by apply Inv_step|]. simpl. by rewrite E. }
  eapply (run_old (sync _) (sync_stream_property _)); [done| |exact Hs].
  rewrite Hcs. by rewrite lookup_app_r, Nat.sub_diag.
Qed.

End SyncSteps.

(** At every turn, every stream that its client has not cancelled has
    carried a suffix of the stored fragments, each fragment once and in
    the order of [task.chunks]; a closed stream ends with the terminal
    event of the task. *)
Theorem stream_carries_a_suffix mc s acts c ctl :
  let w := run mc (startTask s) acts in
  controllers w !! c = Some ctl → cstate ctl ≠ Cancelled →
  ∃ k, (k ≤ length (chunks (task w)))%nat
    ∧ fragments (queue ctl) = drop k (chunks (task w))
    ∧ (cstate ctl = Closed → ∃ q, queue ctl = q ++ terminal_frames (task w)).
Proof.
  intros w Hc Hn.
  destruct (run_all mc acts (startTask s) (Inv_start s)) with (c := c) (ctl := ctl)
    as [k Hs]; [|done|].
  - intros c' ctl' Hl. simpl in Hl. by rewrite lookup_nil in Hl.
  - exists k. by apply Hs.
Qed.

Lemma stream_carries_a_suffix_witness :
  controllers hello_done !! 0%nat = Some hello_stream
  ∧ cstate hello_stream ≠ Cancelled
  ∧ ∃ k, (k ≤ length (chunks (task hello_done)))%nat
      ∧ fragments (queue hello_stream) = drop k (chunks (task hello_done))
      ∧ (cstate hello_stream = Closed →
         ∃ q, queue hello_stream = q ++ terminal_frames (task hello_done)).
Proof.
  split_and!; [by vm_compute|done|].
  apply (stream_carries_a_suffix Sample.message_content demo hello_done_acts
           0 hello_stream); [by vm_compute|done].
Defined.

(** A subscription from the index [from] stays in step with the task
    from its resume point on: at every later turn, unless the client
    has cancelled it, its stream has carried exactly the fragments
    stored from that point on, the replayed and the live ones, with
    none missing and none twice. *)
Theorem subscription_resumes_in_step mc s acts tid from c w1 acts' :
  let w := run mc (startTask s) acts in
  let w2 := run mc w1 acts' in
  subscribe tid from w = Some (c, w1) →
  ∃ ctl, controllers w2 !! c = Some ctl
    ∧ (cstate ctl ≠ Cancelled →
       fragments (queue ctl)
       = drop (resume_point from (length (chunks (task w)))) (chunks (task w2))
       ∧ (cstate ctl = Closed → ∃ q, queue ctl = q ++ terminal_frames (task w2))).
Proof.
  intros w w2 E.
  destruct (resume_sync mc s acts tid from c w1 acts' E) as (ctl & Hc & Hs).
  exists ctl. split; [done|]. intros Hn. by destruct (Hs Hn) as (_ & ? & ?).
Qed.

Lemma subscription_resumes_in_step_witness :
  let w := run Sample.message_content (startTask demo) unwatched_acts in
  let w1 := step Sample.message_content unwatched (ASubscribe "task-1" (Num 1)) in
  let w2 := run Sample.message_content w1 rest_acts in
  subscribe "task-1" (Num 1) w = Some (0%nat, w1)
  ∧ ∃ ctl, controllers w2 !! 0%nat = Some ctl
      ∧ (cstate ctl ≠ Cancelled →
         fragments (queue ctl)
         = drop (resume_point (Num 1) (length (chunks (task w)))) (chunks (task w2))
         ∧ (cstate ctl = Closed → ∃ q, queue ctl = q ++ terminal_frames (task w2))).
Proof.
  intros w w1 w2. split; [by vm_compute|].
  apply (subscription_resumes_in_step Sample.message_content demo unwatched_acts
           "task-1" (Num 1) 0 w1 rest_acts).
  by vm_compute.
Defined.

(** A client that asks for the stream with [from=0], at any turn, and
    does not cancel it has been sent the whole answer once the task is
    completed: the text of the fragments on its stream is
    [fullResponse], the stream is closed and its last event is [done]. *)
Theorem whole_answer_streamed mc s acts tid c w1 acts' :
  let w := run mc (startTask s) acts in
  let w2 := run mc w1 acts' in
  handleTaskStream tid (Some "0") w = Some (c, w1) →
  status (task w2) = Completed →
  ∃ ctl, controllers w2 !! c = Some ctl
    ∧ (cstate ctl ≠ Cancelled →
       cstate ctl = Closed
       ∧ Str.concat (map content (fragments (queue ctl))) = fullResponse (task w2)
       ∧ ∃ q, queue ctl = q ++ [Data DataDone]).
Proof.
  intros w w2 E Hdone.
  change (subscribe tid (Num 0) w = Some (c, w1)) in E.
  destruct (resume_sync mc s acts tid (Num 0) c w1 acts' E) as (ctl & Hc & Hs).
  assert (Inv w2) as Hw2.
  { unfold w2. replace w1 with (step mc w (ASubscribe tid (Num 0))).
    - apply Inv_run, Inv_step, Inv_reachable.
    - simpl. fold w. by rewrite E. }
  fold w2 in Hc, Hs. exists ctl. split; [done|]. intros Hn.
  destruct (Hs Hn) as (_ & Hf & Hq). simpl in Hf. rewrite drop_0 in Hf.
  assert (pc w2 = Settled) as Hp.
  { destruct (settled_or_not (pc w2)) as [|Hr]; [done|].
    apply (running_not_settled w2 (inv_life _ Hw2)) in Hr. congruence. }
  destruct (subs_settled _ (inv_subs _ Hw2) Hp) as [_ Hfin].
  eapply Forall_lookup_1 in Hfin as [[Hcl _]|[? _]]; [|done|exact Hc].
  split_and!; [done| |].
  - rewrite Hf. apply (text_completed _ (inv_text _ Hw2) Hdone).
  - destruct (Hq Hcl) as [q Hq']. exists q. rewrite Hq'.
    unfold terminal_frames. by rewrite Hdone.
Qed.

Lemma whole_answer_streamed_witness :
  let w := run Sample.message_content (startTask demo) unwatched_acts in
  let w1 := step Sample.message_content unwatched (AStream "task-1" (Some "0")) in
  let w2 := run Sample.message_content w1 rest_acts in
  handleTaskStream "task-1" (Some "0") w = Some (0%nat, w1)
  ∧ status (task w2) = Completed
  ∧ ∃ ctl, controllers w2 !! 0%nat = Some ctl
      ∧ (cstate ctl ≠ Cancelled →
         cstate ctl = Closed
         ∧ Str.concat (map content (fragments (queue ctl))) = fullResponse (task w2)
         ∧ ∃ q, queue ctl = q ++ [Data DataDone]).
Proof.
  intros w w1 w2. split_and!; [by vm_compute..|].
  apply (whole_answer_streamed Sample.message_content demo unwatched_acts
           "task-1" 0 w1 rest_acts); by vm_compute.
Defined.

Lemma terminal_count_deliver_keepalive ctl :
  terminal_count (queue (deliver KeepAlive ctl)) = terminal_count (queue ctl).
Proof.
  unfold deliver, enqueue. destruct (cstate ctl); simpl; try done.
  rewrite terminal_count_app. unfold terminal_count at 2. simpl. lia.
Qed.

Lemma fragments_deliver_keepalive ctl :
  fragments (queue (deliver KeepAlive ctl)) = fragments (queue ctl).
Proof.
  unfold deliver, enqueue. destruct (cstate ctl); simpl; try done.
  by rewrite fragments_app, app_nil_r.
Qed.

(** A tick of the heartbeat interval adds the keep-alive comment to the
    stream of every subscriber that can be written to and changes
    nothing else: no field of the task, no member of the set, no state
    of a stream; what a stream has carried of fragments and of terminal
    signals is what it had carried before. *)
Theorem heartbeat_is_not_a_fragment mc s acts :
  let w := run mc (startTask s) acts in
  outside_broker (heartbeat w) = outside_broker w
  ∧ subscribers (task (heartbeat w)) = subscribers (task w)
  ∧ controllers (heartbeat w)
    = (if keepAlive w then deliver KeepAlive <$> controllers w else controllers w)
  ∧ (∀ c ctl', controllers (heartbeat w) !! c = Some ctl' →
       ∃ ctl, controllers w !! c = Some ctl
         ∧ cstate ctl' = cstate ctl
         ∧ terminal_count (queue ctl') = terminal_count (queue ctl)
         ∧ fragments (queue ctl') = fragments (queue ctl)).
Proof.
  intros w. pose proof (inv_subs _ (Inv_reachable mc s acts)) as HS. fold w in HS.
  pose proof (subs_attached _ HS) as Ha.
  assert (controllers (heartbeat w)
          = (if keepAlive w then deliver KeepAlive <$> controllers w
             else controllers w)) as Hc.
  { unfold heartbeat. destruct (keepAlive w); [|done]. simpl.
    by apply beat_controllers. }
  split_and!; [apply heartbeat_outside| |done|].
  - unfold heartbeat. by case_match.
  - intros c ctl' Hl. rewrite Hc in Hl. destruct (keepAlive w).
    + rewrite list_lookup_fmap in Hl.
      destruct (controllers w !! c) as [ctl|]; simplify_eq/=.
      exists ctl. split_and!; [done|apply cstate_deliver| |].
      * apply terminal_count_deliver_keepalive.
      * apply fragments_deliver_keepalive.
    + by exists ctl'.
Qed.

Lemma heartbeat_is_not_a_fragment_witness :
  let w := run Sample.message_content (startTask demo) hello_mid_acts in
  outside_broker (heartbeat w) = outside_broker w
  ∧ controllers (heartbeat w) !! 0%nat
    = Some {| queue := [Data (DataChunk "Hel" 0); KeepAlive]; cstate := Readable |}
  ∧ ∃ ctl, controllers w !! 0%nat = Some ctl
      ∧ Readable = cstate ctl
      ∧ terminal_count [Data (DataChunk "Hel" 0); KeepAlive] = terminal_count (queue ctl)
      ∧ fragments [Data (DataChunk "Hel" 0); KeepAlive] = fragments (queue ctl).
Proof.
  intros w.
  destruct (heartbeat_is_not_a_fragment Sample.message_content demo hello_mid_acts)
    as (Ho & _ & _ & H).
  split_and!; [exact Ho|by vm_compute|].
  apply (H 0%nat {| queue := [Data (DataChunk "Hel" 0); KeepAlive];
                    cstate := Readable |}).
  by vm_compute.
Defined.

(** ** The line buffer of [streamFromOllama] *)

Lemma split_nonempty sep s : Str.split sep s ≠ [].
Proof.
  destruct s as [|c s]; simpl; [done|].
  destruct (Ascii.eqb c sep); [done|]. by destruct (Str.split sep s).
Qed.

Lemma last_cons_nonempty {A} (x : A) l : l ≠ [] → last (x :: l) = last l.
Proof. by destruct l. Qed.

Lemma removelast_cons_nonempty {A} (x : A) l :
  l ≠ [] → removelast (x :: l) = x :: removelast l.
Proof. by destruct l. Qed.

(** Splitting a string that arrives in two parts: the last piece of the
    first part is completed by the second part. *)
Lemma split_app sep s t :
  Str.split sep (s +:+ t)
  = removelast (Str.split sep s)
    ++ Str.split sep (default "" (last (Str.split sep s)) +:+ t).
Proof.
  induction s as [|c s IH]; [done|].
  pose proof (split_nonempty sep s) as Hne. rewrite append_cons. cbn [Str.split].
  destruct (Ascii.eqb c sep) eqn:Hc.
  - rewrite removelast_cons_nonempty, last_cons_nonempty by done.
    by rewrite IH.
  - rewrite IH. destruct (Str.split sep s) as [|piece [|piece' pieces]]; [done| |].
    + simpl. rewrite Hc. done.
    + change (removelast (piece :: piece' :: pieces))
        with (piece :: removelast (piece' :: pieces)).
      change (removelast (String c piece :: piece' :: pieces))
        with (String c piece :: removelast (piece' :: pieces)).
      change (last (piece :: piece' :: pieces)) with (last (piece' :: pieces)).
      change (last (String c piece :: piece' :: pieces)) with (last (piece' :: pieces)).
      done.
Qed.

Lemma split_line_feed sep s :
  Str.split sep (s +:+ String sep "") = Str.split sep s ++ [""].
Proof.
  induction s as [|c s IH]; [simpl|rewrite append_cons; cbn [Str.split]].
  - by rewrite Ascii.eqb_refl.
  - destruct (Ascii.eqb c sep); [by rewrite IH|].
    rewrite IH. pose proof (split_nonempty sep s).
    by destruct (Str.split sep s).
Qed.

Lemma last_app_nonempty {A} (l1 l2 : list A) : l2 ≠ [] → last (l1 ++ l2) = last l2.
Proof.
  intros Hne. rewrite last_app. destruct (last l2) as [x|] eqn:E; [done|].
  apply last_None in E. done.
Qed.

Section Buffer.

Variable mc : string → option string.

(** The loop over the lines does not read the program counter. *)
Lemma process_line_with_pc p w ft ci line :
  process_line mc (with_pc p w, ft, ci) line
  = let st := process_line mc (w, ft, ci) line in (with_pc p st.1.1, st.1.2, st.2).
Proof. unfold process_line. by repeat case_match. Qed.

Lemma fold_process_with_pc p lines : ∀ w ft ci,
  fold_left (process_line mc) lines (with_pc p w, ft, ci)
  = let st := fold_left (process_line mc) lines (w, ft, ci) in
    (with_pc p st.1.1, st.1.2, st.2).
Proof.
  induction lines as [|line lines IH]; intros w ft ci; [done|].
  cbn [fold_left]. rewrite process_line_with_pc.
  destruct (process_line mc (w, ft, ci) line) as [[w' ft'] ci']. apply IH.
Qed.

Lemma after_loop_with_pc p w : after_loop (with_pc p w) = after_loop w.
Proof.
  unfold after_loop, db_addMessage. simpl.
  destruct (Str.truthy (fullResponse (task w))); [destruct (db_fault w) as [[?|?]|]|]; done.
Qed.

End Buffer.

(** Where the engine cuts its byte stream does not matter: two reads
    [a] and [b] leave the task, the streams and the runner as the one
    read of [a] followed by [b] does. *)
Theorem read_boundaries_do_not_matter mc a b w :
  on_read mc (ReadValue b) (on_read mc (ReadValue a) w)
  = on_read mc (ReadValue (a +:+ b)) w.
Proof.
  unfold on_read at 2 3. destruct (pc w) eqn:Hpc;
    try (unfold on_read; by rewrite Hpc).
  rewrite <- append_assoc, (split_app Str.newline (buffer +:+ a) b).
  set (lines1 := Str.split Str.newline (buffer +:+ a)).
  set (lines2 := Str.split Str.newline (default "" (last lines1) +:+ b)).
  assert (lines2 ≠ []) as Hne by apply split_nonempty.
  rewrite removelast_app, last_app_nonempty, fold_left_app by done.
  destruct (fold_left (process_line mc) (removelast lines1) (w, fullText, chunkIndex))
    as [[w1 ft1] ci1].
  unfold on_read. cbn [pc with_pc]. fold lines2.
  rewrite fold_process_with_pc.
  by destruct (fold_left (process_line mc) (removelast lines2) (w1, ft1, ci1))
    as [[w2 ft2] ci2].
Qed.

(** The last line of the engine's stream needs no line feed: the end of
    the stream after the read [a] leaves the world that it leaves after
    the read of [a] and a line feed. *)
Theorem last_line_needs_no_line_feed mc a w :
  on_read mc ReadDone (on_read mc (ReadValue a) w)
  = on_read mc ReadDone (on_read mc (ReadValue (a +:+ Str.nl)) w).
Proof.
  unfold on_read at 2 4. destruct (pc w) eqn:Hpc;
    try (unfold on_read; by rewrite Hpc).
  rewrite <- append_assoc. unfold Str.nl. rewrite split_line_feed.
  set (lines := Str.split Str.newline (buffer +:+ a)).
  assert (lines ≠ []) as Hne by apply split_nonempty.
  rewrite removelast_last, last_snoc. cbn [default].
  rewrite (app_removelast_last "" Hne) at 2. rewrite fold_left_app.
  replace (List.last lines "") with (default "" (last lines)).
  2:{ clearbody lines. induction lines as [|x [|y l] IH]; try done.
      rewrite last_cons_nonempty by done. apply IH. done. }
  destruct (fold_left (process_line mc) (removelast lines) (w, fullText, chunkIndex))
    as [[w1 ft1] ci1].
  cbn [fold_left]. unfold on_read. cbn [pc with_pc].
  rewrite process_line_with_pc.
  destruct (process_line mc (w1, ft1, ci1) (default "" (last lines)))
    as [[w2 ft2] ci2]. cbn [fst snd pc with_pc id].
  rewrite process_line_with_pc.
  change (process_line mc (w2, ft2, ci2) "") with (w2, ft2, ci2). cbn [fst snd].
  change (append_fullResponse ft2 (with_pc ?p w2))
    with (with_pc p (append_fullResponse ft2 w2)).
  by rewrite !after_loop_with_pc.
Qed.

(** ** The [from] parameter *)

Lemma parse_digits_cons c s acc v :
  digit_value 10 c = Some v →
  parse_digits 10 (String c s) (Some acc) = parse_digits 10 s (Some (10 * acc + v)).
Proof. intros H. cbn [parse_digits]. by rewrite H. Qed.

Lemma parse_digits_uint d : ∀ acc : nat,
  parse_digits 10 (NilEmpty.string_of_uint d) (Some (Z.of_nat acc))
  = Some (Z.of_nat (Nat.of_uint_acc d acc)).
Proof.
  induction d as [|d IH|d IH|d IH|d IH|d IH|d IH|d IH|d IH|d IH|d IH]; intros acc;
    [done|..];
    cbn [NilEmpty.string_of_uint Nat.of_uint_acc]; rewrite <- IH;
    (erewrite parse_digits_cons by reflexivity);
    f_equal; f_equal; rewrite Nat.tail_mul_spec;
    match goal with
    | |- context [Z.of_nat (nat_of_ascii ?c)] =>
        let v := eval vm_compute in (Z.of_nat (nat_of_ascii c)) in
        change (Z.of_nat (nat_of_ascii c)) with v
    end; lia.
Qed.

Lemma parse_digits_start c s v :
  digit_value 10 c = Some v →
  parse_digits 10 (String c s) None = parse_digits 10 (String c s) (Some 0).
Proof. intros H. cbn [parse_digits]. by rewrite H. Qed.

(** [parseInt] reads the decimal digits of a number back. *)
Lemma parseInt_uint d :
  parseInt (NilZero.string_of_uint d) = Num (Z.of_nat (Nat.of_uint d)).
Proof.
  assert (∀ c s n v, digit_value 10 c = Some v →
          parse_digits 10 (String c s) (Some 0) = Some n →
          match parse_digits 10 (String c s) None with
          | Some n => Num (1 * n)
          | None => NaN
          end = Num n) as Hnum.
  { intros c s n v Hc H. rewrite (parse_digits_start c s v Hc), H. f_equal. lia. }
  pose proof (parse_digits_uint d 0) as Hd. unfold Nat.of_uint.
  destruct d as [|d|d|d|d|d|d|d|d|d|d]; [done|..];
    try (eapply Hnum; [reflexivity|exact Hd]).
  destruct d as [|d|d|d|d|d|d|d|d|d|d]; [done|..];
    (eapply Hnum; [reflexivity|exact Hd]).
Qed.

Lemma parseInt_of_nat n : parseInt (Str.of_nat n) = Num (Z.of_nat n).
Proof. unfold Str.of_nat. by rewrite parseInt_uint, DecimalNat.Unsigned.of_to. Qed.

Lemma of_nat_truthy n : Str.truthy (Str.of_nat n) = true.
Proof.
  unfold Str.of_nat. pose proof (DecimalNat.Unsigned.of_to n) as H.
  destruct (Nat.to_uint n); try done.
Qed.

(** The request [GET /api/chat/stream/:id?from=k], with the number [k]
    printed in decimal digits as the client prints it, subscribes from
    the chunk index [k]; a request without the parameter, or with an
    empty one, subscribes from the index 0. *)
Theorem stream_from_decimal tid k w :
  handleTaskStream tid (Some (Str.of_nat k)) w = subscribe tid (Num (Z.of_nat k)) w
  ∧ handleTaskStream tid None w = subscribe tid (Num 0) w
  ∧ handleTaskStream tid (Some "") w = subscribe tid (Num 0) w.
Proof.
  split; [|done]. unfold handleTaskStream, or_default.
  by rewrite of_nat_truthy, parseInt_of_nat.
Qed.

(** ** The tool gateway *)

Lemma unique_spec rs : ∀ seen,
  NoDup (link <$> WebSearch.unique seen rs)
  ∧ WebSearch.unique seen rs `sublist_of` rs
  ∧ (∀ r, r ∈ WebSearch.unique seen rs → link r ∉ seen)
  ∧ (∀ r, r ∈ rs → link r ∈ seen ∨ link r ∈ link <$> WebSearch.unique seen rs)
  ∧ (∀ r, r ∈ WebSearch.unique seen rs →
       ∃ i, list_find (λ x, link x = link r) rs = Some (i, r)).
Proof.
  induction rs as [|r rs IH]; intros seen; simpl.
  - split_and!; [constructor|done|set_solver|set_solver|set_solver].
  - case_decide as Hr.
    + destruct (IH seen) as (Hnd & Hsub & Hout & Hin & Hfirst). split_and!.
      * done.
      * by apply sublist_cons.
      * done.
      * intros r' [->|Hr']%elem_of_cons; [by left|by apply Hin].
      * intros r' Hr'. destruct (Hfirst r' Hr') as [i Hi].
        exists (S i). cbn [list_find]. rewrite decide_False.
        -- by rewrite Hi.
        -- intros Heq. apply (Hout r' Hr'). by rewrite <- Heq.
    + destruct (IH (link r :: seen)) as (Hnd & Hsub & Hout & Hin & Hfirst). split_and!.
      * rewrite fmap_cons. apply NoDup_cons. split; [|done].
        intros (r' & Heq & Hr')%list_elem_of_fmap. apply (Hout r' Hr').
        rewrite <- Heq. by left.
      * by apply sublist_skip.
      * intros r' [->|Hr']%elem_of_cons; [done|].
        intros Hs. apply (Hout r' Hr'). by right.
      * intros r' [->|Hr']%elem_of_cons.
        -- right. rewrite fmap_cons. by left.
        -- destruct (Hin r' Hr') as [[->|Hs]%elem_of_cons|Hl].
           ++ right. rewrite fmap_cons. by left.
           ++ by left.
           ++ right. rewrite fmap_cons. by right.
      * intros r' [->|Hr']%elem_of_cons.
        -- exists 0%nat. cbn [list_find]. by rewrite decide_True.
        -- destruct (Hfirst r' Hr') as [i Hi].
           exists (S i). cbn [list_find]. rewrite decide_False.
           ++ by rewrite Hi.
           ++ intros Heq. apply (Hout r' Hr'). rewrite <- Heq. by left.
Qed.

(** [searchWeb] never fails and returns at most five results with
    distinct links, in the order of the providers' answers, Bing first;
    of several results with one link it keeps the first; and a link is
    lost to the cap only. *)
Theorem searchWeb_unique_capped bing wiki :
  let merged := WebSearch.push_settled (WebSearch.push_settled [] bing) wiki in
  let results := WebSearch.searchWeb bing wiki in
  (length results ≤ WebSearch.MAX_RESULTS)%nat
  ∧ NoDup (link <$> results)
  ∧ results `sublist_of` merged
  ∧ (∀ r, r ∈ results → ∃ i, list_find (λ x, link x = link r) merged = Some (i, r))
  ∧ (∀ r, r ∈ merged →
       link r ∈ link <$> results ∨ length results = WebSearch.MAX_RESULTS).
Proof.
  intros merged results.
  destruct (unique_spec merged []) as (Hnd & Hsub & _ & Hin & Hfirst).
  assert (results = take WebSearch.MAX_RESULTS (WebSearch.unique [] merged)) as ->.
  { unfold results, WebSearch.searchWeb. fold merged.
    by destruct (WebSearch.unique [] merged). }
  split_and!.
  - rewrite length_take. lia.
  - rewrite fmap_take. eapply sublist_NoDup; [done|apply sublist_take].
  - etrans; [apply sublist_take|done].
  - intros r Hr. apply Hfirst.
    by apply (sublist_subseteq _ _ (sublist_take _ WebSearch.MAX_RESULTS)).
  - intros r Hr.
    destruct (Nat.le_gt_cases (length (WebSearch.unique [] merged))
                WebSearch.MAX_RESULTS) as [Hle|Hgt].
    + left. rewrite take_ge by done. destruct (Hin r Hr) as [H|H]; [set_solver|done].
    + right. rewrite length_take. lia.
Qed.

Lemma searchWeb_unique_capped_witness :
  let bing := WebSearch.Fulfilled bing_hits in
  let wiki := WebSearch.Rejected "timeout" in
  WebSearch.searchWeb bing wiki
  = [{| title := "Rocq"; link := "https://rocq-prover.org"; snippet := "A prover";
        source := Bing |}]
  ∧ NoDup (link <$> WebSearch.searchWeb bing wiki)
  ∧ WebSearch.searchWeb bing wiki `sublist_of` bing_hits.
Proof.
  intros bing wiki. split; [by vm_compute|].
  destruct (searchWeb_unique_capped bing wiki) as (_ & Hnd & Hsub & _).
  by split.
Defined.

Lemma format_entries_closed rs : ∀ i context,
  format_entries i rs context
  = context +:+ Str.concat (imap (λ j, format_entry (i + j)) rs).
Proof.
  induction rs as [|r rs IH]; intros i context.
  - simpl. by rewrite append_nil_r.
  - cbn [format_entries imap Str.concat fold_right]. rewrite IH.
    assert (imap ((λ j, format_entry (i + j)) ∘ S) rs
            = imap (λ j, format_entry (S i + j)) rs) as ->.
    { apply imap_ext. intros j x _. simpl. f_equal. lia. }
    rewrite Nat.add_0_r. unfold format_entry at 2, Str.concat.
    by rewrite !append_assoc.
Qed.

Lemma append_empty s t : s +:+ t = "" → s = "" ∧ t = "".
Proof. by destruct s. Qed.

Lemma formatResultsAsContext_empty results :
  formatResultsAsContext results = "" ↔ results = [].
Proof.
  destruct results as [|r rs]; [done|]. split; [|done].
  unfold formatResultsAsContext. by intros [_ ?]%append_empty.
Qed.

(** The context text of [formatResultsAsContext] is empty when there is
    no result and only then; otherwise it is the heading, the entries
    numbered from 1 in the order of the results, and the closing line. *)
Theorem formatResultsAsContext_entries results :
  formatResultsAsContext results
  = match results with
    | [] => ""
    | _ => Str.nl +:+ Str.nl
           +:+ "--- Web Search Results (Real-time from Internet) ---" +:+ Str.nl
           +:+ Str.concat (imap format_entry results)
           +:+ Str.nl +:+ "--- End of Search Results ---" +:+ Str.nl
    end
  ∧ (formatResultsAsContext results = "" ↔ results = []).
Proof.
  split; [|apply formatResultsAsContext_empty].
  destruct results as [|r rs]; [done|]. unfold formatResultsAsContext.
  rewrite format_entries_closed. by rewrite !append_assoc.
Qed.

Lemma executePythonCode_text env code text :
  executePythonCode env code = Returns text → text ≠ "".
Proof.
  unfold executePythonCode. destruct code as [code|]; [|done].
  destruct (python env) as [msg| |stdout stderr [msg|]]; simpl;
    try (intros [= <-]; done).
  destruct (Str.truthy (Str.trim stderr)); [intros [= <-]; done|].
  destruct (Str.trim stdout); intros [= <-]; done.
Qed.

(** The gateway answers with the empty text in one case only: a web
    search that returns no result. Every other answer, the error texts
    included, is a text that is not empty. *)
Theorem gateway_empty_answer env toolName args :
  executeTool env toolName args = Returns ""
  ↔ toolName = "web_search"
    ∧ ∃ query code, args = ArgsObject query code ∧ searchWeb env query = Returns [].
Proof.
  unfold executeTool.
  destruct (String.eqb_spec toolName "web_search") as [->|Hweb].
  - destruct args as [|query code]; simpl.
    + split; [done|]. by intros (_ & ? & ? & ? & _).
    + destruct (searchWeb env query) as [results|msg] eqn:E; simpl.
      * split.
        -- intros [= H%formatResultsAsContext_empty]. subst. eauto.
        -- intros (_ & q & c & [= <- <-] & Hs). rewrite E in Hs. by simplify_eq.
      * split; [done|]. intros (_ & q & c & [= <- <-] & Hs). congruence.
  - split; [|by intros [? _]]. intros H. exfalso.
    destruct (String.eqb toolName "execute_python"); [|done].
    destruct args as [|query code]; simpl in H; [done|].
    destruct (executePythonCode env code) as [text|msg] eqn:E; simpl in H; [|done].
    apply executePythonCode_text in E. by simplify_eq.
Qed.

Lemma gateway_empty_answer_witness :
  executeTool py4 "web_search" (ArgsObject (Some "rocq") None) = Returns "".
Proof.
  apply gateway_empty_answer. split; [done|]. by exists (Some "rocq"), None.
Defined.

(** ** The heartbeat interval *)

Lemma KeepInv_settled w : keepAlive w = false → pc w = Settled → KeepInv w.
Proof. intros Hk Hp. unfold KeepInv. rewrite Hk, Hp. split; done. Qed.

Lemma KeepInv_running w : keepAlive w = true → pc w ≠ Settled → KeepInv w.
Proof. intros Hk Hp. unfold KeepInv. by rewrite Hk. Qed.

Lemma KeepInv_after_loop w : KeepInv (after_loop w).
Proof.
  unfold after_loop, db_addMessage. simpl.
  destruct (Str.truthy (fullResponse (task w))); [destruct (db_fault w) as [[?|?]|]|];
    by apply KeepInv_settled.
Qed.

Lemma KeepInv_outside w w' :
  outside_stream w' = outside_stream w → KeepInv w → KeepInv w'.
Proof.
  unfold outside_stream, KeepInv. intros Ho. simplify_eq.
  by replace (keepAlive w') with (keepAlive w); replace (pc w') with (pc w).
Qed.

Lemma KeepInv_step mc w a : KeepInv w → KeepInv (step mc w a).
Proof.
  intros HK.
  assert (pc w ≠ Settled → keepAlive w = true) as Hk by apply HK.
  assert (∀ w', outside_broker w' = outside_broker w → KeepInv w') as Hframe.
  { intros w' Ho. apply (KeepInv_outside w); [by apply outside_broker_stream|done]. }
  destruct a as [r|r|r|env|tid k|tid from|c| |ms| ]; simpl.
  - unfold on_fetch. destruct (pc w) eqn:Hpc; try done.
    specialize (Hk ltac:(done)).
    destruct r as [msg|st [t|msg]|]; try by apply KeepInv_settled.
    case_match; by apply KeepInv_running.
  - unfold on_read. destruct (pc w) eqn:Hpc; try done.
    specialize (Hk ltac:(done)).
    destruct r as [value| |msg].
    + pose proof (fold_process_outside mc
                    (removelast (Str.split Str.newline (buffer +:+ value)))
                    (w, fullText, chunkIndex)) as Ho.
      destruct (fold_left _ _ _) as [[wf ft] ci]. simpl in Ho.
      apply KeepInv_running; [|done]. simpl.
      unfold outside_stream in Ho. simplify_eq. congruence.
    + destruct (process_line _ _ _) as [[wl ft] ci]. apply KeepInv_after_loop.
    + by apply KeepInv_settled.
  - unfold on_json. destruct (pc w) eqn:Hpc; try done.
    specialize (Hk ltac:(done)).
    destruct r as [msg|content [|tool rest]].
    + by apply KeepInv_settled.
    + apply KeepInv_after_loop.
    + by apply KeepInv_running.
  - unfold on_tool. destruct (pc w) eqn:Hpc; try done.
    specialize (Hk ltac:(done)).
    destruct (executeTool _ _ _) as [result|msg]; [|by apply KeepInv_settled].
    destruct rest as [|next rest].
    + unfold loop. case_match; [by apply KeepInv_running|apply KeepInv_after_loop].
    + by apply KeepInv_running.
  - destruct (subscribe tid k w) as [[c w']|] eqn:E; [|done].
    eapply Hframe, subscribe_outside, E.
  - destruct (handleTaskStream tid from w) as [[c w']|] eqn:E; [|done].
    eapply Hframe, subscribe_outside, E.
  - apply Hframe, cancel_outside.
  - apply Hframe, heartbeat_outside.
  - done.
  - unfold fire_timers. by case_match.
Qed.

Lemma KeepInv_run mc acts : ∀ w, KeepInv w → KeepInv (run mc w acts).
Proof.
  induction acts as [|a acts IH]; intros w Hw; simpl; [done|].
  by apply IH, KeepInv_step.
Qed.

Lemma KeepInv_start s : KeepInv (startTask s).
Proof. by apply KeepInv_running. Qed.

(** The heartbeat interval is set while the task is running and is
    cleared by the time it has ended, for completed and for error
    alike; from then on a tick of the interval writes nothing. *)
Theorem heartbeat_stops_with_the_task mc s acts :
  let w := run mc (startTask s) acts in
  (keepAlive w = true ↔ status (task w) = Running)
  ∧ (status (task w) ≠ Running → heartbeat w = w).
Proof.
  intros w. pose proof (KeepInv_run mc acts _ (KeepInv_start s)) as HK.
  pose proof (running_not_settled w (inv_life _ (Inv_reachable mc s acts))) as HR.
  fold w in HK. unfold KeepInv in HK.
  assert (keepAlive w = true ↔ status (task w) = Running) as H by (by rewrite HR).
  split; [done|]. intros Hs. unfold heartbeat.
  destruct (keepAlive w); [|done]. by destruct Hs, H as [-> _].
Qed.

Lemma heartbeat_stops_with_the_task_witness :
  status (task hello_done) ≠ Running ∧ heartbeat hello_done = hello_done.
Proof.
  split; [by vm_compute|].
  destruct (heartbeat_stops_with_the_task Sample.message_content demo hello_done_acts)
    as [_ H].
  apply H. by vm_compute.
Defined.

(** ** The history sent to the engine *)

Lemma requested_after_tool_calls base content tcs rest :
  requested (base ++ AssistantToolCalls content tcs :: rest) ≠ None.
Proof. induction base as [|[] base IH]; simpl; auto. Qed.

Lemma payloads_snoc_tool w tool :
  payloads (with_calls (calls w ++ [ToolInvoke tool]) w) = payloads w.
Proof. unfold payloads. simpl. by rewrite omap_app, app_nil_r. Qed.

Lemma HistInv_fields base w w' :
  messages w' = messages w → calls w' = calls w → pc w' = pc w →
  HistInv base w → HistInv base w'.
Proof.
  intros Hm Hc Hp. unfold HistInv, payloads. by rewrite Hm, Hc, Hp.
Qed.

Lemma HistInv_outside base w w' :
  outside_stream w' = outside_stream w → HistInv base w → HistInv base w'.
Proof.
  intros Ho. unfold outside_stream in Ho.
  apply HistInv_fields; simplify_eq; congruence.
Qed.

Lemma HistInv_settles base w w' :
  settles w w' → HistInv base w → HistInv base w'.
Proof.
  intros (Hp & Hm & Hc & _) H. unfold HistInv, payloads in *. rewrite Hm, Hc, Hp.
  destruct H as [(? & ? & _)|(content & tcs & results & ? & ? & H)].
  - by left.
  - right. exists content, tcs, results. split_and!; [done..|].
    destruct H as [[? _]|(? & ? & _)]; [by left|by right].
Qed.

Lemma HistInv_begin_tool base iteration w content tcs results t rest :
  messages w = base ++ AssistantToolCalls content tcs :: map ToolMessage results →
  Forall2 answered (take (length results) tcs) results →
  payloads w = [base] → drop (length results) tcs = t :: rest →
  HistInv base (begin_tool iteration t rest w).
Proof.
  intros Hm Ha Hp Hd. right. exists content, tcs, results.
  split_and!; [done..|]. left. split; [|done].
  unfold begin_tool, payloads in *. simpl. by rewrite omap_app, Hp.
Qed.

Lemma HistInv_step mc base w a : Inv w → HistInv base w → HistInv base (step mc w a).
Proof.
  intros Hw HH.
  assert (∀ w', outside_broker w' = outside_broker w → HistInv base w') as Hframe.
  { intros w' Ho. apply (HistInv_outside base w); [by apply outside_broker_stream|done]. }
  assert (∀ msg, HistInv base (throw msg w)) as Hthrow.
  { intros msg. apply (HistInv_settles base w); [apply settles_throw|done]. }
  destruct a as [r|r|r|env|tid k|tid from|c| |ms| ]; simpl.
  - unfold on_fetch. destruct (pc w) eqn:Hpc; try done.
    destruct r as [msg|st [t|msg]|]; try apply Hthrow.
    destruct shouldStream eqn:Hstream.
    + unfold HistInv in *. cbn [pc messages calls with_pc payloads] in *.
      rewrite Hpc in HH. exact HH.
    + destruct HH as [(Hm & Hp & _)|(content & tcs & results & Hm & _ & _)].
      * left. by split_and!.
      * pose proof (inv_proto _ Hw) as HP. unfold ProtoInv in HP.
        pose proof (requested_after_tool_calls base content tcs
                      (map ToolMessage results)) as Hreq.
        rewrite <- Hm in Hreq.
        destruct (requested (messages w)) as [[c' t']|]; [|done].
        rewrite Hpc in HP. by destruct HP as (_ & _ & _ & ? & _).
  - unfold on_read. destruct (pc w) eqn:Hpc; try done.
    destruct r as [value| |msg]; [| |apply Hthrow].
    + pose proof (fold_process_outside mc
                    (removelast (Str.split Str.newline (buffer +:+ value)))
                    (w, fullText, chunkIndex)) as Ho.
      destruct (fold_left _ _ _) as [[wf ft] ci]. simpl in Ho.
      unfold outside_stream in Ho.
      assert (HistInv base (with_pc (pc w) wf)) as H.
      { apply (HistInv_fields base w); simpl; simplify_eq; congruence. }
      unfold HistInv, payloads in *. cbn [pc messages calls with_pc] in *.
      by rewrite Hpc in H.
    + pose proof (process_line_outside mc (w, fullText, chunkIndex) buffer) as Ho.
      destruct (process_line _ _ _) as [[wl ft] ci]. simpl in Ho.
      unfold outside_stream in Ho.
      apply (HistInv_settles base w); [|done].
      destruct (settles_after_loop (append_fullResponse ft wl)) as (? & ? & ? & ? & ?).
      unfold settles. simpl in *. simplify_eq. split_and!; congruence.
  - unfold on_json. destruct (pc w) eqn:Hpc; try done.
    destruct r as [msg|content [|tool rest]]; [apply Hthrow| |].
    + apply (HistInv_settles base w); [|done].
      match goal with |- settles _ (after_loop ?w') =>
        destruct (settles_after_loop w') as (? & ? & ? & ? & ?) end.
      by split_and!.
    + destruct HH as [(Hm & Hp & _)|(c' & tcs & results & _ & _ & H)].
      * apply (HistInv_begin_tool base _ _ content (tool :: rest) []); simpl;
          [by rewrite Hm|constructor|done|done].
      * rewrite Hpc in H. by destruct H as [[_ ?]|(_ & _ & ?)].
  - unfold on_tool. destruct (pc w) eqn:Hpc; try done.
    destruct (executeTool env (funcName tool) (funcArgs tool)) as [result|msg] eqn:E;
      [|apply Hthrow].
    destruct HH as [(_ & _ & H)|(content & tcs & results & Hm & Ha & H)];
      [by rewrite Hpc in H|].
    rewrite Hpc in H. destruct H as [[Hp Hd]|(_ & _ & ?)]; [|done].
    assert (tcs !! length results = Some tool) as Hl.
    { rewrite <- (Nat.add_0_r (length results)), <- lookup_drop. by rewrite Hd. }
    assert (drop (S (length results)) tcs = rest) as Hd'.
    { rewrite (drop_S _ _ _ Hl) in Hd. by simplify_eq. }
    assert (messages (with_messages (messages w ++ [ToolMessage result]) w)
            = base ++ AssistantToolCalls content tcs
                :: map ToolMessage (results ++ [result])) as Hm'.
    { simpl. rewrite Hm, map_app. by rewrite <- app_assoc. }
    assert (Forall2 answered (take (length (results ++ [result])) tcs)
              (results ++ [result])) as Ha'.
    { rewrite length_app, Nat.add_1_r. rewrite (take_S_r _ _ _ Hl).
      apply Forall2_app; [done|]. constructor; [|constructor]. by exists env. }
    destruct rest as [|next rest].
    + unfold loop. case_match.
      * right. exists content, tcs, (results ++ [result]). split_and!; [done..|].
        right. split_and!; [| |done]; simpl.
        -- unfold payloads in *. simpl. by rewrite omap_app, Hp.
        -- rewrite length_app. simpl.
           pose proof (lookup_lt_Some _ _ _ Hl) as Hlt.
           apply (f_equal length) in Hd'. rewrite length_drop in Hd'. simpl in Hd'. lia.
      * destruct (settles_after_loop
                    (with_messages (messages w ++ [ToolMessage result]) w))
          as (Hpc' & Hmsg & Hc & _).
        right. exists content, tcs, (results ++ [result]). split_and!.
        -- by rewrite Hmsg.
        -- done.
        -- left. rewrite Hpc'. split; [|done]. unfold payloads in *. by rewrite Hc.
    + apply (HistInv_begin_tool base _ _ content tcs (results ++ [result]));
        [done|done|done|].
      by rewrite length_app, Nat.add_1_r.
  - destruct (subscribe tid k w) as [[c w']|] eqn:E; [|done].
    eapply Hframe, subscribe_outside, E.
  - destruct (handleTaskStream tid from w) as [[c w']|] eqn:E; [|done].
    eapply Hframe, subscribe_outside, E.
  - apply Hframe, cancel_outside.
  - apply Hframe, heartbeat_outside.
  - by apply (HistInv_fields base w).
  - apply (HistInv_fields base w); try done; unfold fire_timers; by case_match.
Qed.

Lemma HistInv_run mc base acts : ∀ w,
  Inv w → HistInv base w → HistInv base (run mc w acts).
Proof.
  induction acts as [|a acts IH]; intros w Hw HH; simpl; [done|].
  apply IH; [by apply Inv_step|by apply HistInv_step].
Qed.

Lemma HistInv_start s :
  HistInv (map (λ m, Plain m.1 m.2) (start_history s)) (startTask s).
Proof. by left. Qed.

(** The engine is always called with the history of the request, which
    is never altered. When its first answer asks for tools, the second
    call carries that history, then the tool-call message of the engine,
    then the answers of the gateway: one tool message for every
    requested call, in the order of the calls. *)
Theorem tool_results_fed_back mc s acts :
  let w := run mc (startTask s) acts in
  let base := map (λ m, Plain m.1 m.2) (start_history s) in
  base `prefix_of` messages w
  ∧ (payloads w = [base]
     ∨ ∃ content tcs results,
         payloads w
         = [base; base ++ AssistantToolCalls content tcs :: map ToolMessage results]
         ∧ Forall2 answered tcs results).
Proof.
  intros w base.
  pose proof (HistInv_run mc base acts _ (Inv_start s) (HistInv_start s)) as HH.
  fold w in HH.
  destruct HH as [(Hm & Hp & _)|(content & tcs & results & Hm & Ha & H)].
  - split; [by rewrite Hm|by left].
  - split; [rewrite Hm; by eexists|].
    destruct H as [[Hp _]|(Hp & Hlen & _)]; [by left|].
    right. exists content, tcs, results. rewrite Hp, Hm. split; [done|].
    by rewrite Hlen, firstn_all in Ha.
Qed.

Lemma tool_results_fed_back_witness :
  let base := map (λ m, Plain m.1 m.2) (start_history demo_tools) in
  payloads calc_done
  = [base; base ++ AssistantToolCalls "" [calc_call] :: map ToolMessage ["4"]]
  ∧ answered calc_call "4"
  ∧ base `prefix_of` messages calc_done.
Proof.
  intros base. split_and!; [by vm_compute|by exists py4|].
  by destruct (tool_results_fed_back Sample.message_content demo_tools calc_done_acts)
    as [H _].
Defined.

(** ** The record of a task *)

Lemma extends_refl w : extends w w.
Proof.
  unfold extends. split_and!; [done| |done..]. exists "". by rewrite append_nil_r.
Qed.

Lemma extends_trans w1 w2 w3 : extends w1 w2 → extends w2 w3 → extends w1 w3.
Proof.
  intros (A1 & [r1 B1] & C1 & D1 & E1 & F1) (A2 & [r2 B2] & C2 & D2 & E2 & F2).
  unfold extends. split_and!; [by etrans| |by etrans..].
  exists (r1 +:+ r2). by rewrite B2, B1, append_assoc.
Qed.

Lemma extends_outside w w' : outside_broker w' = outside_broker w → extends w w'.
Proof.
  intros Ho. unfold outside_broker, outside_stream in Ho. simplify_eq.
  unfold extends.
  repeat match goal with H : _ = _ |- _ => rewrite H; clear H end.
  apply extends_refl.
Qed.

Ltac extends_fields :=
  unfold extends; simpl; split_and!;
  try done; try (by repeat apply prefix_app_r);
  try (eexists; by rewrite append_nil_r).

Lemma extends_throw msg w : extends w (throw msg w).
Proof. extends_fields. Qed.

Lemma extends_after_loop w : extends w (after_loop w).
Proof.
  unfold after_loop, db_addMessage. simpl.
  destruct (Str.truthy (fullResponse (task w))); [destruct (db_fault w) as [[msg|msg]|]|];
    extends_fields.
Qed.

Lemma extends_loop iteration w : extends w (loop iteration w).
Proof.
  unfold loop. case_match; [extends_fields|apply extends_after_loop].
Qed.

Lemma extends_begin_tool iteration tool rest w :
  extends w (begin_tool iteration tool rest w).
Proof. extends_fields. Qed.

Lemma extends_append_fullResponse text w : extends w (append_fullResponse text w).
Proof. extends_fields. by eexists. Qed.

Lemma extends_process_line mc st line : extends st.1.1 (process_line mc st line).1.1.
Proof.
  destruct st as [[w ft] ci]. unfold process_line.
  repeat case_match; try apply extends_refl. extends_fields.
Qed.

Lemma extends_fold_process mc lines : ∀ st,
  extends st.1.1 (fold_left (process_line mc) lines st).1.1.
Proof.
  induction lines as [|line lines IH]; intros st; simpl; [apply extends_refl|].
  eapply extends_trans; [apply extends_process_line|apply IH].
Qed.

Lemma extends_step mc w a : extends w (step mc w a).
Proof.
  destruct a as [r|r|r|env|tid k|tid from|c| |ms| ]; simpl.
  - unfold on_fetch. destruct (pc w); try apply extends_refl.
    destruct r as [msg|st [t|msg]|]; try apply extends_throw.
    case_match; extends_fields.
  - unfold on_read. destruct (pc w); try apply extends_refl.
    destruct r as [value| |msg]; [| |apply extends_throw].
    + pose proof (extends_fold_process mc
                    (removelast (Str.split Str.newline (buffer +:+ value)))
                    (w, fullText, chunkIndex)) as He.
      destruct (fold_left _ _ _) as [[wf ft] ci]. simpl in He.
      eapply extends_trans; [exact He|]. extends_fields.
    + pose proof (extends_process_line mc (w, fullText, chunkIndex) buffer) as He.
      destruct (process_line _ _ _) as [[wl ft] ci]. simpl in He.
      eapply extends_trans; [exact He|].
      eapply extends_trans; [apply extends_append_fullResponse|apply extends_after_loop].
  - unfold on_json. destruct (pc w); try apply extends_refl.
    destruct r as [msg|content [|tool rest]]; [apply extends_throw| |].
    + eapply extends_trans; [|apply extends_after_loop]. extends_fields. by eexists.
    + eapply extends_trans; [|apply extends_begin_tool]. extends_fields.
  - unfold on_tool. destruct (pc w); try apply extends_refl.
    destruct (executeTool _ _ _) as [result|msg]; [|apply extends_throw].
    destruct rest as [|next rest].
    + eapply extends_trans; [|apply extends_loop]. extends_fields.
    + eapply extends_trans; [|apply extends_begin_tool]. extends_fields.
  - destruct (subscribe tid k w) as [[c w']|] eqn:E; [|apply extends_refl].
    eapply extends_outside, subscribe_outside, E.
  - destruct (handleTaskStream tid from w) as [[c w']|] eqn:E; [|apply extends_refl].
    eapply extends_outside, subscribe_outside, E.
  - apply extends_outside, cancel_outside.
  - apply extends_outside, heartbeat_outside.
  - extends_fields.
  - unfold fire_timers. case_match; extends_fields.
Qed.

Lemma extends_run mc acts : ∀ w, extends w (run mc w acts).
Proof.
  induction acts as [|a acts IH]; intros w; simpl; [apply extends_refl|].
  eapply extends_trans; [apply extends_step|apply IH].
Qed.

Lemma continues_stream_property ctl0 : StreamProperty (continues ctl0).
Proof.
  split.
  - intros t t' ctl token i _ _ _ [Hq Hc]. split.
    + etrans; [exact Hq|]. unfold deliver, enqueue.
      destruct (cstate ctl); simpl; try done. by apply prefix_app_r.
    + intros Hn. rewrite (Hc Hn). by apply deliver_not_readable.
  - intros t ctl msg _ [Hq Hc]. split.
    + etrans; [exact Hq|]. unfold deliver, enqueue.
      destruct (cstate ctl); simpl; try done. by apply prefix_app_r.
    + intros Hn. rewrite (Hc Hn). by apply deliver_not_readable.
  - by intros t t' ctl _ _ _ ?.
  - intros t t' ctl d _ _ _ _ [Hq Hc]. split.
    + etrans; [exact Hq|]. unfold shut, close, deliver, enqueue.
      destruct (cstate ctl) eqn:E; simpl; rewrite ?E; try done. by apply prefix_app_r.
    + intros Hn. rewrite (Hc Hn). rewrite deliver_not_readable by done.
      unfold shut, close. by destruct (cstate ctl0).
  - intros t ctl Hr [Hq Hc]. split; [done|].
    intros Hn. rewrite (Hc Hn) in Hr. done.
Qed.

(** Nothing is taken back. What a task has on record at one turn is a
    prefix of what it has on record at every later turn: its fragments,
    its answer, the history, the calls to the engine and to the tools,
    the rows written and the changes of its status. Every stream stays
    where it is, what was sent on it stays sent, and once it is closed
    or cancelled it is not written to again. *)
Theorem record_is_append_only mc s acts acts' :
  let w := run mc (startTask s) acts in
  let w' := run mc w acts' in
  extends w w'
  ∧ ∀ c ctl, controllers w !! c = Some ctl →
      ∃ ctl', controllers w' !! c = Some ctl'
        ∧ queue ctl `prefix_of` queue ctl'
        ∧ (cstate ctl ≠ Readable → ctl' = ctl).
Proof.
  intros w w'. split; [apply extends_run|]. intros c ctl Hc.
  destruct (run_old (continues ctl) (continues_stream_property ctl) mc acts'
              w c ctl (Inv_reachable mc s acts) Hc) as (ctl' & Hc' & Hq & Hn).
  - by split.
  - by exists ctl'.
Qed.

Lemma record_is_append_only_witness :
  let w := run Sample.message_content (startTask demo) hello_mid_acts in
  let w' := run Sample.message_content w rest_acts in
  let ctl := {| queue := [Data (DataChunk "Hel" 0)]; cstate := Readable |} in
  controllers w !! 0%nat = Some ctl
  ∧ ∃ ctl', controllers w' !! 0%nat = Some ctl'
      ∧ queue ctl `prefix_of` queue ctl'
      ∧ (cstate ctl ≠ Readable → ctl' = ctl).
Proof.
  intros w w' ctl. split; [by vm_compute|].
  destruct (record_is_append_only Sample.message_content demo hello_mid_acts rest_acts)
    as [_ H].
  apply (H 0%nat ctl). by vm_compute.
Defined.

(** ** Failures of the engine *)

Lemma step_failure mc w a msg :
  failure_of a (pc w) = Some msg → step mc w a = throw msg w.
Proof.
  unfold failure_of. intros H.
  destruct a as [[m|code [t|m]|]|[v| |m]|[m|content tcs]|env|tid k|tid from|c| |ms| ];
    try done; simpl;
    [unfold on_fetch|unfold on_fetch|unfold on_fetch|unfold on_read|unfold on_json];
    destruct (pc w); by simplify_eq.
Qed.

(** Whatever fails between the process and the engine, a rejected
    request, a response that is not ok, a body that cannot be read, in
    the first call or in the second, ends the task in that very turn:
    the status is error with the message of the failure, every stream
    that can be written to gets that one error event and is closed, the
    set is emptied, nothing is written to the database and no removal
    is scheduled. The fragments streamed so far are kept, though they
    never reach [fullResponse]: a later subscriber is replayed them and
    is then sent the error. *)
Theorem failure_ends_the_task mc s acts a msg :
  let w := run mc (startTask s) acts in
  let w' := step mc w a in
  failure_of a (pc w) = Some msg →
  status (task w') = Error ∧ error (task w') = Some msg
  ∧ chunks (task w') = chunks (task w)
  ∧ fullResponse (task w') = fullResponse (task w)
  ∧ db_writes w' = [] ∧ timers w' = [] ∧ registered w' = true
  ∧ subscribers (task w') = []
  ∧ controllers w'
    = (λ ctl, shut (deliver (Data (DataError (Some msg))) ctl)) <$> controllers w
  ∧ ∀ from, ∃ w'',
      subscribe (start_id s) from w' = Some (length (controllers w'), w'')
      ∧ controllers w''
        = controllers w'
          ++ [{| queue :=
                   map chunk_frame
                     (drop (resume_point from (length (chunks (task w))))
                        (chunks (task w)))
                   ++ [Data (DataError (Some msg))];
                 cstate := Closed |}].
Proof.
  intros w w' Hf. pose proof (Inv_reachable mc s acts) as Hw. fold w in Hw.
  assert (pc w ≠ Settled) as Hp.
  { intros Hp. rewrite Hp in Hf. unfold failure_of in Hf. by repeat case_match. }
  destruct (life_running _ (inv_life _ Hw) Hp) as (_ & _ & Hdb & Htm & Hreg & _).
  pose proof (subs_attached _ (inv_subs _ Hw)) as Ha.
  destruct (constants_start mc s acts) as (Hid & _). fold w in Hid.
  unfold w'. rewrite (step_failure mc w a msg Hf).
  split_and!; try done.
  - change (controllers (throw msg w))
      with (controllers (closeSubscribers
                           (notifySubscribers (DataError (Some msg))
                              (with_task (task_with_error (Some msg)
                                            (task (set_status Error
                                                     (with_keepAlive false w))))
                                 (set_status Error (with_keepAlive false w)))))).
    rewrite close_controllers, notify_controllers
      by (done || by apply notify_attached).
    by rewrite <- list_fmap_compose.
  - intros from.
    destruct (subscribe_registered from (throw msg w) Hreg) as (w'' & Hs & Hc & _).
    exists w''. split; [by rewrite <- Hid|]. rewrite Hc. do 2 f_equal.
    simpl. by rewrite filter_resume by apply (text_index _ (inv_text _ Hw)).
Qed.

Lemma failure_ends_the_task_witness :
  let w := run Sample.message_content (startTask demo) hello_mid_acts in
  let w' := step Sample.message_content w (ARead (ReadThrows "socket closed")) in
  failure_of (ARead (ReadThrows "socket closed")) (pc w) = Some "socket closed"
  ∧ chunks (task w) = [{| content := "Hel"; index := 0 |}]
  ∧ status (task w') = Error ∧ error (task w') = Some "socket closed"
  ∧ chunks (task w') = chunks (task w)
  ∧ fullResponse (task w') = fullResponse (task w)
  ∧ db_writes w' = [].
Proof.
  intros w w'. split; [by vm_compute|]. split; [by vm_compute|].
  destruct (failure_ends_the_task Sample.message_content demo hello_mid_acts
              (ARead (ReadThrows "socket closed")) "socket closed")
    as (H1 & H2 & H3 & H4 & H5 & _); [by vm_compute|].
  by split_and!.
Defined.

(** ** Status queries, again *)

